(** * VYT-PIPE: papercut mask extraction and page geometry

    A shallow embedding of the mask pipeline of [make_papercut_panel.py]
    and of the alternate pipeline under [vyt/core], together with the
    properties stated about them.  The model comes first, the properties
    second.

    Python [float] is IEEE binary64; it is modelled by Rocq's primitive
    floats, so concrete runs compute the very bits CPython computes.
    Python [int] is modelled by [Z].  A Pillow image is modelled by its
    size, its mode and its pixel accessor.  Code that raises returns a
    [result]. *)

From Stdlib Require Import ZArith QArith Qabs List Bool Lia Floats Ascii String.
Import ListNotations.
Open Scope Z_scope.

(** ** Exceptions *)

Inductive exn : Type :=
| ValueError (msg : string)
| OverflowError (msg : string)
| ZeroDivisionError (msg : string)
| FileNotFoundError (msg : string).

Inductive result (A : Type) : Type :=
| Ok (a : A)
| Raise (e : exn).
Arguments Ok {A} a.
Arguments Raise {A} e.

Definition bind {A B} (r : result A) (k : A -> result B) : result B :=
  match r with
  | Ok a => k a
  | Raise e => Raise e
  end.

Declare Scope result_scope.
Delimit Scope result_scope with result.
Notation "x <- c ;; k" := (bind c (fun x => k))
  (at level 61, c at next level, right associativity) : result_scope.
Notation "' ( a , b ) <- c ;; k" := (bind c (fun p => let '(a, b) := p in k))
  (at level 61, c at next level, right associativity) : result_scope.

(** ** Python numbers *)

Module Py.

(** [float(z)] for an [int] z: the nearest binary64, ties to even
    (beyond the range of binary64 Python raises; here the result is an
    infinity, on which [round] raises). *)
Definition of_int (z : Z) : float :=
  SF2Prim (binary_normalize prec emax z 0 false).

(** The exact rational value of a finite float. *)
Definition exact (f : float) : option Q :=
  match Prim2SF f with
  | S754_zero _ => Some 0%Q
  | S754_finite s m e =>
      let v := if 0 <=? e then inject_Z (Z.pos m * 2 ^ e)
               else Qmake (Z.pos m) (Z.to_pos (2 ^ (- e))) in
      Some (if s then Qopp v else v)
  | S754_infinity _ | S754_nan => None
  end.

(** Round half to even on [m / d], for d > 0. *)
Definition div_half_even (m d : Z) : Z :=
  let q := m / d in
  let r := m mod d in
  match 2 * r ?= d with
  | Lt => q
  | Gt => q + 1
  | Eq => if Z.even q then q else q + 1
  end.

(** [round(x)] with one argument: the nearest [int], ties to even;
    raises on infinities and NaN. *)
Definition round (f : float) : result Z :=
  match Prim2SF f with
  | S754_zero _ => Ok 0
  | S754_finite s m e =>
      let a := if 0 <=? e then Z.pos m * 2 ^ e
               else div_half_even (Z.pos m) (2 ^ (- e)) in
      Ok (if s then - a else a)
  | S754_infinity _ => Raise (OverflowError "cannot convert float infinity to integer")
  | S754_nan => Raise (ValueError "cannot convert float NaN to integer")
  end.

(** [max(a, b)] and [min(a, b)] on floats: the first argument is kept
    unless the second compares strictly beyond it. *)
Definition fmax (a b : float) : float := if PrimFloat.ltb a b then b else a.
Definition fmin (a b : float) : float := if PrimFloat.ltb b a then b else a.

End Py.

(** ** Units: [make_papercut_panel.py] and [vyt/utils/units.py] *)

(** [MM_PER_INCH = 25.4], the binary64 nearest to 25.4. *)
Definition MM_PER_INCH : float := 0x1.9666666666666p+4%float.

(** [mm_to_px] of [make_papercut_panel.py]: [int(round(mm * dpi / MM_PER_INCH))]. *)
Definition mm_to_px (mm : float) (dpi : Z) : result Z :=
  Py.round (mm * Py.of_int dpi / MM_PER_INCH)%float.

(** [px_to_mm] of [make_papercut_panel.py]. *)
Definition px_to_mm (px : Z) (dpi : Z) : float :=
  if (dpi <=? 0) || (px <=? 0) then 0%float
  else (Py.of_int px / Py.of_int dpi * MM_PER_INCH)%float.

Module VytUnits.

(** [mm_to_px] of [vyt/utils/units.py]: [round(mm * dpi / 25.4)]. *)
Definition mm_to_px (mm : float) (dpi : Z) : result Z :=
  Py.round (mm * Py.of_int dpi / 0x1.9666666666666p+4)%float.

(** [cm_to_px] of [vyt/utils/units.py]: [round(cm * dpi / 2.54)]. *)
Definition cm_to_px (cm : float) (dpi : Z) : result Z :=
  Py.round (cm * Py.of_int dpi / 0x1.451eb851eb852p+1)%float.

End VytUnits.

(** [a4_size_px]. *)
Definition a4_size_px (dpi : Z) : result (Z * Z) :=
  (w <- mm_to_px 210 dpi ;;
   h <- mm_to_px 297 dpi ;;
   Ok (w, h))%result.

(** The round-trip error in millimetres, as an exact rational. *)
Definition roundtrip_error (mm dpi : Z) : option Q :=
  match mm_to_px (Py.of_int mm) dpi with
  | Ok p =>
      match Py.exact (px_to_mm p dpi) with
      | Some back => Some (Qabs (back - inject_Z mm))
      | None => None
      end
  | Raise _ => None
  end.

Definition within (bound : Q) (err : option Q) : Prop :=
  match err with
  | Some e => (e <= bound)%Q
  | None => False
  end.

Definition within_dec (bound : Q) (err : option Q) : bool :=
  match err with
  | Some e => Qle_bool e bound
  | None => false
  end.

(** The round-trip test as Python evaluates it, in floats:
    [abs(px_to_mm(mm_to_px(mm, dpi), dpi) - mm) <= 1 / dpi * 25.4]. *)
Definition roundtrip_test (mm dpi : Z) : bool :=
  match mm_to_px (Py.of_int mm) dpi with
  | Ok p =>
      PrimFloat.leb (PrimFloat.abs (px_to_mm p dpi - Py.of_int mm))
                    (1 / Py.of_int dpi * MM_PER_INCH)
  | Raise _ => false
  end.

(** ** Images

    A Pillow image: its size, its mode ("1" for bilevel masks, whose
    pixels are stored as 0 or 255, and "L" for 8-bit grayscale) and its
    pixel accessor.  Only pixels inside the size are meaningful. *)

Inductive Mode : Type := Mode1 | ModeL.

Record Image : Type := mkImage {
  width : Z;
  height : Z;
  mode : Mode;
  getpixel : Z -> Z -> Z
}.

Definition zrange (n : Z) : list Z := map Z.of_nat (seq 0 (Z.to_nat n)).

(** All pixel positions [(x, y)] of a [w] by [h] canvas, row by row. *)
Definition coords (w h : Z) : list (Z * Z) :=
  flat_map (fun y => map (fun x => (x, y)) (zrange w)) (zrange h).

Definition pixels (img : Image) : list (Z * Z) := coords (width img) (height img).

Definition inside (img : Image) (x y : Z) : Prop :=
  0 <= x < width img /\ 0 <= y < height img.

Definition insideb (img : Image) (x y : Z) : bool :=
  (0 <=? x) && (x <? width img) && (0 <=? y) && (y <? height img).

Definition tabulate (w h : Z) (f : Z -> Z -> Z) : list (list Z) :=
  map (fun y => map (fun x => f x y) (zrange w)) (zrange h).

Definition lookup (rows : list (list Z)) (x y : Z) : Z :=
  if (0 <=? x) && (0 <=? y)
  then nth (Z.to_nat x) (nth (Z.to_nat y) rows []) 0
  else 0.

(** A fresh image whose pixel buffer is filled from [f]. *)
Definition new_image (w h : Z) (m : Mode) (f : Z -> Z -> Z) : Image :=
  let rows := tabulate w h f in
  mkImage w h m (lookup rows).

(** [Image.new(mode, (w, h), 0)]. *)
Definition Image_new (m : Mode) (w h : Z) (v : Z) : Image :=
  new_image w h m (fun _ _ => v).

(** A foreground pixel of a mask is a non-zero pixel. *)
Definition fg (img : Image) (x y : Z) : bool := negb (getpixel img x y =? 0).

Definition count_fg (img : Image) : nat :=
  List.length (filter (fun p => fg img (fst p) (snd p)) (pixels img)).

(** Pixel-for-pixel equality of two images of the same size. *)
Definition same_pixels (a b : Image) : Prop :=
  width a = width b /\ height a = height b /\
  forall x y, inside a x y -> getpixel a x y = getpixel b x y.

(** Two images of the same size. *)
Definition same_size (a b : Image) : Prop :=
  width a = width b /\ height a = height b.

(** *** Pillow operations used by the pipeline

    Pillow is not part of the repository; the definitions below follow
    the behaviour of the Pillow calls the source makes.  The logical
    operations of [ImageChops] want bilevel images and raise otherwise;
    the pipeline only hands them bilevel images, and the check is left
    out. *)

(** [img.point(f, mode=m)]. *)
Definition point (f : Z -> Z) (m : Mode) (img : Image) : Image :=
  new_image (width img) (height img) m (fun x y => f (getpixel img x y)).

(** [img.convert("L")]: a bilevel image becomes 0/255 gray. *)
Definition convert_L (img : Image) : Image :=
  match mode img with
  | Mode1 => new_image (width img) (height img) ModeL
               (fun x y => if getpixel img x y =? 0 then 0 else 255)
  | ModeL => img
  end.

Definition clamp (lo hi v : Z) : Z := Z.max lo (Z.min hi v).

(** [img.expand(margin)] replicates the edge pixels outwards; this is
    the pixel of the expanded image at offset [(x, y)] of the original. *)
Definition expand_pixel (img : Image) (x y : Z) : Z :=
  getpixel img (clamp 0 (width img - 1) x) (clamp 0 (height img - 1) y).

Definition offsets (size : Z) : list Z :=
  map (fun i => i - size / 2) (zrange size).

(** The [size] by [size] window of the expanded image centred at [(x, y)]. *)
Definition window (img : Image) (size x y : Z) : list Z :=
  flat_map (fun dy => map (fun dx => expand_pixel img (x + dx) (y + dy)) (offsets size))
           (offsets size).

(** [img.filter(ImageFilter.MaxFilter(size))] on 8-bit pixels. *)
Definition MaxFilter (size : Z) (img : Image) : Image :=
  new_image (width img) (height img) (mode img)
            (fun x y => fold_right Z.max 0 (window img size x y)).

(** [img.filter(ImageFilter.MinFilter(size))] on 8-bit pixels. *)
Definition MinFilter (size : Z) (img : Image) : Image :=
  new_image (width img) (height img) (mode img)
            (fun x y => fold_right Z.min 255 (window img size x y)).

Module ImageChops.

(** Two-image operations work on the common top-left area. *)
Definition chop (f : Z -> Z -> Z) (a b : Image) : Image :=
  new_image (Z.min (width a) (width b)) (Z.min (height a) (height b)) (mode a)
            (fun x y => f (getpixel a x y) (getpixel b x y)).

Definition logical_and : Image -> Image -> Image :=
  chop (fun u v => if negb (u =? 0) && negb (v =? 0) then 255 else 0).

Definition logical_or : Image -> Image -> Image :=
  chop (fun u v => if negb (u =? 0) || negb (v =? 0) then 255 else 0).

(** [ImageChops.subtract(a, b)] with scale 1 and offset 0, clipped to 0..255. *)
Definition subtract : Image -> Image -> Image :=
  chop (fun u v => clamp 0 255 (u - v)).

Definition invert (img : Image) : Image :=
  new_image (width img) (height img) (mode img) (fun x y => 255 - getpixel img x y).

End ImageChops.

(** [img.getbbox() is None]: no non-zero pixel. *)
Definition getbbox_is_None (img : Image) : bool :=
  forallb (fun p => getpixel img (fst p) (snd p) =? 0) (pixels img).

(** [img.crop((x0, y0, x1, y1))]; pixels outside the source are 0. *)
Definition crop (img : Image) (x0 y0 x1 y1 : Z) : Image :=
  new_image (x1 - x0) (y1 - y0) (mode img)
            (fun x y => if insideb img (x + x0) (y + y0)
                        then getpixel img (x + x0) (y + y0) else 0).

(** ** Morphology primitives of [make_papercut_panel.py] *)

(** [lambda v: 255 if v >= 128 else 0]. *)
Definition ge128 (v : Z) : Z := if 128 <=? v then 255 else 0.

(** [lambda v: 255 if v > 0 else 0]. *)
Definition gt0 (v : Z) : Z := if 0 <? v then 255 else 0.

(** [_apply_closing]: dilate then erode with a square of side
    [max(3, 2 * radius + 1)], then rebinarise. *)
Definition _apply_closing (mask : Image) (radius : Z) : Image :=
  if radius <=? 0 then mask
  else
    let size := Z.max 3 (2 * radius + 1) in
    let mask_l := convert_L mask in
    let mask_l := MaxFilter size mask_l in
    let mask_l := MinFilter size mask_l in
    point ge128 Mode1 mask_l.

(** [q] is a pixel of the canvas within Chebyshev distance [r] of [p]. *)
Definition near (w h r : Z) (px py qx qy : Z) : Prop :=
  (0 <= qx < w /\ 0 <= qy < h) /\ Z.abs (qx - px) <= r /\ Z.abs (qy - py) <= r.

(** Dilation and erosion of a pixel predicate over the canvas. *)
Definition dilateP (w h r : Z) (P : Z -> Z -> Prop) (x y : Z) : Prop :=
  exists qx qy, near w h r x y qx qy /\ P qx qy.

Definition erodeP (w h r : Z) (P : Z -> Z -> Prop) (x y : Z) : Prop :=
  forall qx qy, near w h r x y qx qy -> P qx qy.

Definition closeP (w h r : Z) (P : Z -> Z -> Prop) : Z -> Z -> Prop :=
  erodeP w h r (dilateP w h r P).

(** A pixel counts as solid when it is at least 128 after [convert("L")]. *)
Definition solid (img : Image) (x y : Z) : Prop := 128 <= getpixel (convert_L img) x y.

(** ** Flood fill *)

(** [pixel[x, y] = v] on a loaded image. *)
Definition putpixel (img : Image) (x y v : Z) : Image :=
  mkImage (width img) (height img) (mode img)
          (fun x' y' => if (x' =? x) && (y' =? y) then v else getpixel img x' y').

Definition mem (s t : Z) (l : list (Z * Z)) : bool :=
  existsb (fun q => (fst q =? s) && (snd q =? t)) l.

(** The number of pixels of the canvas whose value satisfies [P]. *)
Definition count_where (P : Z -> bool) (img : Image) : nat :=
  List.length (filter (fun p => P (getpixel img (fst p) (snd p))) (pixels img)).

Module ImageDraw.

(** State of one sweep of Pillow's [ImageDraw.floodfill]: the pixel
    buffer being painted, the pixels painted in this sweep and the
    pixels already looked at. *)
Record sweep : Type := mkSweep {
  buf : Image;
  new_edge : list (Z * Z);
  full_edge : list (Z * Z)
}.

(** [_color_diff(p, background) <= thresh] with [thresh = 0]. *)
Definition is_background (background p : Z) : bool := Z.abs (p - background) <=? 0.

(** The number of pixels that still carry the background colour. *)
Definition unpainted (background : Z) (img : Image) : nat :=
  count_where (is_background background) img.

(** One neighbour [(s, t)]: skipped when already looked at or off the
    canvas, painted when its colour is the background colour
    ([thresh = 0], no border colour). *)
Definition visit (background value : Z) (st : sweep) (q : Z * Z) : sweep :=
  let '(s, t) := q in
  if mem s t (full_edge st) || (s <? 0) || (t <? 0) then st
  else if negb (insideb (buf st) s t) then st
  else
    let p := getpixel (buf st) s t in
    if is_background background p
    then mkSweep (putpixel (buf st) s t value) ((s, t) :: new_edge st)
                 ((s, t) :: full_edge st)
    else mkSweep (buf st) (new_edge st) ((s, t) :: full_edge st).

Definition visit_around (background value : Z) (st : sweep) (p : Z * Z) : sweep :=
  let '(x, y) := p in
  fold_left (visit background value) [(x + 1, y); (x - 1, y); (x, y + 1); (x, y - 1)] st.

(** The [while edge:] loop; [fuel] bounds the number of sweeps. *)
Fixpoint sweeps (fuel : nat) (background value : Z) (img : Image)
         (edge full : list (Z * Z)) : option Image :=
  match edge with
  | [] => Some img
  | _ :: _ =>
      match fuel with
      | O => None
      | S fuel' =>
          let st := fold_left (visit_around background value) edge (mkSweep img [] full) in
          sweeps fuel' background value (buf st) (new_edge st) edge
      end
  end.

(** [ImageDraw.floodfill(image, (x, y), value, thresh=0)]: paints the
    4-connected region of the seed's colour.  Every sweep that goes on
    paints a pixel, so one sweep per pixel plus one is enough
    ([sweeps_total] below); the [None] branch is never taken. *)
Definition floodfill (img : Image) (x y value : Z) : Image :=
  if negb (insideb img x y) then img
  else
    let background := getpixel img x y in
    if is_background background value then img
    else
      match sweeps (S (List.length (pixels img))) background value
                   (putpixel img x y value) [(x, y)] [] with
      | Some painted => painted
      | None => img
      end.

End ImageDraw.

(** [_fill_closed_regions_python]: the breadth-first fallback. *)

Module Bfs.

Record state : Type := mkState {
  outside : Image;
  queue : list (Z * Z)
}.

(** The local function [enqueue]. *)
Definition enqueue (blocked : Image) (st : state) (p : Z * Z) : state :=
  let '(x, y) := p in
  if insideb blocked x y
     && (getpixel blocked x y =? 0)
     && (getpixel (outside st) x y =? 0)
  then mkState (putpixel (outside st) x y 255) (queue st ++ [(x, y)])
  else st.

(** The two seeding loops over the canvas border. *)
Definition seed (blocked : Image) (st : state) : state :=
  let w := width blocked in
  let h := height blocked in
  let st := fold_left (fun st x => enqueue blocked (enqueue blocked st (x, 0)) (x, h - 1))
                      (zrange w) st in
  fold_left (fun st y => enqueue blocked (enqueue blocked st (0, y)) (w - 1, y))
            (zrange h) st.

Definition neighbours : list (Z * Z) := [(-1, 0); (1, 0); (0, -1); (0, 1)].

(** The [while q:] loop; [fuel] bounds the number of pops. *)
Fixpoint drain (fuel : nat) (blocked : Image) (st : state) : option Image :=
  match queue st with
  | [] => Some (outside st)
  | (x, y) :: rest =>
      match fuel with
      | O => None
      | S fuel' =>
          drain fuel' blocked
                (fold_left (fun st d => enqueue blocked st (x + fst d, y + snd d))
                           neighbours (mkState (outside st) rest))
      end
  end.

(** The marks live on a canvas of the size of the walls. *)
Definition same_canvas (blocked : Image) (st : state) : Prop :=
  width (outside st) = width blocked /\ height (outside st) = height blocked.

Definition unmarked (v : Z) : bool := v =? 0.

(** What is left to do: the queued pixels and the unmarked ones. *)
Definition pending (st : state) : nat :=
  (List.length (queue st) + count_where unmarked (outside st))%nat.

End Bfs.

(** Every pop either shrinks the queue or marks a fresh pixel, so the
    queue length plus the canvas area bounds the pops ([drain_total]
    below); the [None] branch is never taken. *)
Definition _fill_closed_regions_python (blocked_binary : Image) : Image :=
  let w := width blocked_binary in
  let h := height blocked_binary in
  if (w =? 0) || (h =? 0) then Image_new Mode1 w h 0
  else
    let st := Bfs.seed blocked_binary (Bfs.mkState (Image_new Mode1 w h 0) []) in
    let fuel := S (List.length (Bfs.queue st) + List.length (pixels blocked_binary)) in
    match Bfs.drain fuel blocked_binary st with
    | Some outside =>
        let solid := ImageChops.invert outside in
        ImageChops.logical_and solid (ImageChops.invert blocked_binary)
    | None => Image_new Mode1 w h 0
    end.

(** ** The mask pipeline of [make_papercut_panel.py] *)

Record BWParams : Type := mkBWParams {
  threshold_bg : Z;
  threshold_detail : Z;
  blur : float;
  dilate_px : Z;
  antialias_radius : float;
  detail_join_px : Z
}.

Record MaskResult : Type := mkMaskResult {
  paper : Image;
  filled : Image;
  holes : Image;
  outline : Image
}.

Section Pipeline.

(** Pillow operations that are left abstract: the dithering done by
    [convert("1")] on a grayscale image, the Gaussian and box blurs
    and the [FIND_EDGES] kernel.  [floodfill_available] tells whether
    [ImageDraw.floodfill] exists, i.e. whether the call raises
    [AttributeError]. *)
Variable dither : Image -> Image.
Variable GaussianBlur : float -> Image -> Image.
Variable BoxBlur : Z -> Image -> Image.
Variable FIND_EDGES : Image -> Image.
Variable floodfill_available : bool.

(** [img.convert("1")]: a bilevel image is copied as it is. *)
Definition convert_1 (img : Image) : Image :=
  match mode img with
  | Mode1 => img
  | ModeL => dither img
  end.

(** The local [eroded_bin] of [extract_outline]. *)
Definition eroded_bin (mask : Image) (radius : Z) : Image :=
  let radius := if radius <? 1 then 1 else radius in
  let mask_bin := convert_1 mask in
  let mask_l := convert_L mask_bin in
  let size := Z.max 3 (2 * radius + 1) in
  let eroded := MinFilter size mask_l in
  point ge128 Mode1 eroded.

(** [extract_outline]: the mask minus its erosion. *)
Definition extract_outline (mask : Image) (radius : Z) : Image :=
  let mask_bin := convert_1 mask in
  ImageChops.logical_and mask_bin (ImageChops.invert (eroded_bin mask radius)).

(** The local [blocked_binary] of [fill_closed_regions]: the walls. *)
Definition blocked_binary (outline_mask : Image) (dilation_radius : Z) : Image :=
  let outline_mask :=
    match mode outline_mask with
    | Mode1 => outline_mask
    | ModeL => convert_1 outline_mask
    end in
  let blocked_l :=
    if 0 <? dilation_radius
    then MaxFilter (Z.max 3 (2 * dilation_radius + 1)) (convert_L outline_mask)
    else convert_L outline_mask in
  point gt0 Mode1 blocked_l.

(** [fill_closed_regions]: the flood fill is seeded at [(0, 0)];
    when [ImageDraw.floodfill] is missing the fallback runs. *)
Definition fill_closed_regions (outline_mask : Image) (dilation_radius : Z) : Image :=
  let blocked := blocked_binary outline_mask dilation_radius in
  let w := width blocked in
  let h := height blocked in
  if (w =? 0) || (h =? 0) then Image_new Mode1 w h 0
  else
    let flood_img := convert_L blocked in
    if floodfill_available then
      let flood_img := ImageDraw.floodfill flood_img 0 0 128 in
      let outside := point (fun v => if v =? 128 then 255 else 0) Mode1 flood_img in
      let solid := ImageChops.invert outside in
      ImageChops.logical_and solid (ImageChops.invert blocked)
    else _fill_closed_regions_python blocked.

(** [smooth_binary_edges]. *)
Definition smooth_binary_edges (mask : Image) (radius : float) : Image :=
  if PrimFloat.leb radius 0 then convert_1 mask
  else
    let mask_l := convert_L mask in
    let blurred := GaussianBlur radius mask_l in
    point ge128 Mode1 blurred.

(** [connect_detail_gaps]. *)
Definition connect_detail_gaps (mask : Image) (join_radius : Z) (smooth_radius : float)
  : Image :=
  let base := convert_1 mask in
  let result := base in
  let result :=
    if 0 <? join_radius
    then ImageChops.logical_or result (_apply_closing base join_radius)
    else result in
  if PrimFloat.ltb 0 smooth_radius
  then smooth_binary_edges result smooth_radius
  else result.

(** [detect_relative_dark_regions]. *)
Definition detect_relative_dark_regions
           (gray_processed paper_candidate : Image) (t_bg t_detail : Z) : Image :=
  let paper_candidate :=
    match mode paper_candidate with
    | Mode1 => paper_candidate
    | ModeL => convert_1 paper_candidate
    end in
  if getbbox_is_None paper_candidate
  then Image_new Mode1 (width gray_processed) (height gray_processed) 0
  else
    let local_mean := BoxBlur 1 gray_processed in
    let local_min := MinFilter 3 gray_processed in
    let local_drop := ImageChops.subtract local_mean local_min in
    let relative_margin := Z.max 6 ((t_bg - t_detail) / 3) in
    let rel_candidates :=
      point (fun d => if relative_margin <=? d then 255 else 0) Mode1 local_drop in
    let near_bg := point (fun g => if g <? t_bg - 2 then 255 else 0) Mode1 gray_processed in
    let rel_candidates := ImageChops.logical_and rel_candidates near_bg in
    let rel_candidates := ImageChops.logical_and rel_candidates paper_candidate in
    let edge_map := FIND_EDGES gray_processed in
    let edge_thresh := Z.max 20 (Z.min 96 ((t_bg - t_detail) * 2 + 16)) in
    let edge_mask := point (fun v => if edge_thresh <=? v then 255 else 0) Mode1 edge_map in
    let edge_mask := ImageChops.logical_and edge_mask paper_candidate in
    let rel_candidates :=
      if negb (getbbox_is_None edge_mask) then
        let edge_mask := _apply_closing edge_mask 1 in
        let edge_regions := fill_closed_regions edge_mask 1 in
        ImageChops.logical_and rel_candidates edge_regions
      else rel_candidates in
    _apply_closing rel_candidates 1.

(** The local [outline_raw] of [build_masks_from_gray]. *)
Definition outline_raw (gray_processed : Image) (params : BWParams) : Image :=
  let t_bg := Z.max 0 (Z.min 255 (threshold_bg params)) in
  point (fun g => if g <? t_bg then 255 else 0) Mode1 gray_processed.

(** [build_masks_from_gray]. *)
Definition build_masks_from_gray (gray_processed : Image) (params : BWParams) : MaskResult :=
  let t_bg := Z.max 0 (Z.min 255 (threshold_bg params)) in
  let t_detail := Z.max 0 (Z.min t_bg (threshold_detail params)) in
  let outline_raw := outline_raw gray_processed params in
  let outline_closed := _apply_closing outline_raw (dilate_px params) in
  let combined_outline := ImageChops.logical_or outline_raw outline_closed in
  let fill_radius := if 0 <? dilate_px params then dilate_px params else 0 in
  let filled := fill_closed_regions outline_closed fill_radius in
  let paper_candidate := filled in
  let holes_raw := point (fun g => if g <? t_detail then 255 else 0) Mode1 gray_processed in
  let holes_seed := ImageChops.logical_and holes_raw paper_candidate in
  let holes_rel := detect_relative_dark_regions gray_processed paper_candidate t_bg t_detail in
  let holes_seed :=
    if negb (getbbox_is_None holes_rel)
    then ImageChops.logical_or holes_seed holes_rel
    else holes_seed in
  let hole_close_radius := if 0 <? dilate_px params then dilate_px params else 0 in
  let holes_refined := _apply_closing holes_seed hole_close_radius in
  let detail_outline := extract_outline holes_refined 1 in
  let outline_bridge := Z.max (dilate_px params) (detail_join_px params) in
  let detail_outline_closed := _apply_closing detail_outline outline_bridge in
  let detail_filled := fill_closed_regions detail_outline_closed outline_bridge in
  let holes_combined := ImageChops.logical_or holes_refined detail_filled in
  let join_radius := Z.max 0 (detail_join_px params) in
  let join_smooth := Py.fmax 0 (Py.of_int join_radius * 0x1.6666666666666p-2)%float in
  let holes_joined := connect_detail_gaps holes_combined join_radius join_smooth in
  let holes_limited := ImageChops.logical_and holes_joined filled in
  let paper := ImageChops.logical_and paper_candidate (ImageChops.invert holes_limited) in
  mkMaskResult paper filled holes_limited combined_outline.

End Pipeline.

(** ** Concrete images *)

(** An image given by its rows of pixels. *)
Definition of_rows (m : Mode) (rows : list (list Z)) : Image :=
  mkImage (Z.of_nat (List.length (hd [] rows))) (Z.of_nat (List.length rows)) m (lookup rows).

(** The rows of pixels of an image. *)
Definition to_rows (img : Image) : list (list Z) :=
  tabulate (width img) (height img) (getpixel img).

(** A solid 3 by 3 square. *)
Definition dot5 : Image :=
  of_rows Mode1 [[0; 0; 0; 0; 0];
                 [0; 255; 255; 255; 0];
                 [0; 255; 255; 255; 0];
                 [0; 255; 255; 255; 0];
                 [0; 0; 0; 0; 0]].

(** A stand-in for the Gaussian blur that paints everything white, so
    that the smoothed hole mask is not empty. *)
Definition white_blur : float -> Image -> Image :=
  fun _ img => point (fun _ => 255) ModeL img.

(** A bright canvas with a dark ring around a mid-gray centre pixel. *)
Definition gray_ring5 : Image :=
  of_rows ModeL [[250; 250; 250; 250; 250];
                 [250; 0; 0; 0; 250];
                 [250; 0; 100; 0; 250];
                 [250; 0; 0; 0; 250];
                 [250; 250; 250; 250; 250]].

(** Thresholds 50 and 20, no blur, no dilation, detail join of 2. *)
Definition params0 : BWParams := mkBWParams 50 20 0 0 0 2.

(** A horizontal stroke with a one-pixel gap, one pixel away from
    the left and right edges. *)
Definition dashed7 : Image :=
  of_rows Mode1 [[0; 0; 0; 0; 0; 0; 0];
                 [0; 0; 0; 0; 0; 0; 0];
                 [0; 0; 0; 0; 0; 0; 0];
                 [0; 255; 255; 0; 255; 255; 0];
                 [0; 0; 0; 0; 0; 0; 0];
                 [0; 0; 0; 0; 0; 0; 0];
                 [0; 0; 0; 0; 0; 0; 0]].

(** ** Threshold monotonicity *)

(** The parameters with the background threshold replaced. *)
Definition set_threshold_bg (p : BWParams) (t : Z) : BWParams :=
  mkBWParams t (threshold_detail p) (blur p) (dilate_px p) (antialias_radius p)
             (detail_join_px p).

(** The statement of C5 about the [filled] mask. *)
Definition filled_count_monotone : Prop :=
  forall (dither : Image -> Image) (GaussianBlur : float -> Image -> Image)
         (BoxBlur : Z -> Image -> Image) (FIND_EDGES : Image -> Image)
         (floodfill_available : bool) (gray : Image) (p : BWParams) (t1 t2 : Z),
    t1 <= t2 ->
    (count_fg (filled (build_masks_from_gray dither GaussianBlur BoxBlur FIND_EDGES
                         floodfill_available gray (set_threshold_bg p t1)))
     <= count_fg (filled (build_masks_from_gray dither GaussianBlur BoxBlur FIND_EDGES
                            floodfill_available gray (set_threshold_bg p t2))))%nat.

(** ** The two fill paths *)

Definition circle7 : Image :=
  of_rows Mode1 [[0; 0; 0; 0; 0; 0; 0];
                 [0; 0; 255; 255; 255; 0; 0];
                 [0; 255; 0; 0; 0; 255; 0];
                 [0; 255; 0; 0; 0; 255; 0];
                 [0; 255; 0; 0; 0; 255; 0];
                 [0; 0; 255; 255; 255; 0; 0];
                 [0; 0; 0; 0; 0; 0; 0]].

Definition nested9 : Image :=
  of_rows Mode1 [[0; 0; 0; 0; 0; 0; 0; 0; 0];
                 [0; 255; 255; 255; 255; 255; 255; 255; 0];
                 [0; 255; 0; 0; 0; 0; 0; 255; 0];
                 [0; 255; 0; 255; 255; 255; 0; 255; 0];
                 [0; 255; 0; 255; 0; 255; 0; 255; 0];
                 [0; 255; 0; 255; 255; 255; 0; 255; 0];
                 [0; 255; 0; 0; 0; 0; 0; 255; 0];
                 [0; 255; 255; 255; 255; 255; 255; 255; 0];
                 [0; 0; 0; 0; 0; 0; 0; 0; 0]].

Definition open_c7 : Image :=
  of_rows Mode1 [[0; 0; 0; 0; 0; 0; 0];
                 [0; 255; 255; 255; 255; 255; 0];
                 [0; 255; 0; 0; 0; 0; 0];
                 [0; 255; 0; 0; 0; 0; 0];
                 [0; 255; 0; 0; 0; 0; 0];
                 [0; 255; 255; 255; 255; 255; 0];
                 [0; 0; 0; 0; 0; 0; 0]].

Definition fragments7 : Image :=
  of_rows Mode1 [[0; 0; 0; 0; 0; 0; 0];
                 [0; 255; 255; 0; 0; 255; 0];
                 [0; 0; 0; 0; 0; 255; 0];
                 [0; 0; 0; 255; 0; 0; 0];
                 [0; 255; 0; 0; 0; 0; 0];
                 [0; 255; 0; 0; 255; 255; 0];
                 [0; 0; 0; 0; 0; 0; 0]].

Definition full5 : Image :=
  of_rows Mode1 [[255; 255; 255; 255; 255];
                 [255; 255; 255; 255; 255];
                 [255; 255; 255; 255; 255];
                 [255; 255; 255; 255; 255];
                 [255; 255; 255; 255; 255]].

(** A wall from the top edge to the bottom edge. *)
Definition wall3 : Image :=
  of_rows Mode1 [[0; 255; 0];
                 [0; 255; 0];
                 [0; 255; 0]].

(** A wall pixel in the corner that seeds the flood fill. *)
Definition corner2 : Image :=
  of_rows Mode1 [[255; 0];
                 [0; 0]].

Definition fill_fast (outline_mask : Image) (r : Z) : Image :=
  fill_closed_regions (fun i => i) true outline_mask r.

Definition fill_fallback (outline_mask : Image) (r : Z) : Image :=
  fill_closed_regions (fun i => i) false outline_mask r.

(** The statement of C2. *)
Definition fill_paths_agree : Prop :=
  forall (dither : Image -> Image) (outline_mask : Image) (dilation_radius : Z),
    same_pixels (fill_closed_regions dither true outline_mask dilation_radius)
                (fill_closed_regions dither false outline_mask dilation_radius).

(** ** The auto-flip decision *)

Module ImageStat.

(** [Stat(img).sum[0]]: the sum of all pixels, as a float (Pillow adds
    the histogram up in floats, which is exact below 2^53). *)
Definition sum (img : Image) : float :=
  Py.of_int (fold_right Z.add 0 (map (fun p => getpixel img (fst p) (snd p)) (pixels img))).

(** [Stat(img).count[0]]: the number of pixels. *)
Definition count (img : Image) : Z := width img * height img.

(** [Stat(img).mean[0]]: sum over count. *)
Definition mean (img : Image) : result float :=
  if count img =? 0 then Raise (ZeroDivisionError "float division by zero")
  else Ok (sum img / Py.of_int (count img))%float.

End ImageStat.

(** [_compute_mask_ratio]: the share of white pixels. *)
Definition _compute_mask_ratio (mask : Image) : float :=
  let mask_l := convert_L mask in
  let total_pixels := width mask * height mask in
  if total_pixels =? 0 then 0%float
  else
    let white_pixels := (ImageStat.sum mask_l / 255)%float in
    (white_pixels / Py.of_int total_pixels)%float.

(** The local [_box_mean] of [_border_and_center_means]. *)
Definition _box_mean (gray : Image) (box : Z * Z * Z * Z) : result (float * Z) :=
  let '(x0, y0, x1, y1) := box in
  if (x1 <=? x0) || (y1 <=? y0) then Ok (0%float, 0)
  else
    (m <- ImageStat.mean (crop gray x0 y0 x1 y1) ;;
     Ok (m, (x1 - x0) * (y1 - y0)))%result.

(** [_border_and_center_means]; the default [border_fraction] is 0.12. *)
Definition _border_and_center_means (gray : Image) (border_fraction : float)
  : result (float * float) :=
  let w := width gray in
  let h := height gray in
  if (w =? 0) || (h =? 0) then Ok (0%float, 0%float)
  else
    (rw <- Py.round (Py.of_int w * border_fraction) ;;
     rh <- Py.round (Py.of_int h * border_fraction) ;;
     let bw := Z.max 1 rw in
     let bh := Z.max 1 rh in
     let top_box := (0, 0, w, bh) in
     let bottom_box := (0, h - bh, w, h) in
     let left_box := (0, bh, bw, h - bh) in
     let right_box := (w - bw, bh, w, h - bh) in
     let center_box := (bw, bh, w - bw, h - bh) in
     let border_parts := [top_box; bottom_box; left_box; right_box] in
     ' (border_sum, border_area) <-
       fold_left (fun acc part =>
                    ' (border_sum, border_area) <- acc ;;
                    ' (mean, area) <- _box_mean gray part ;;
                    Ok ((border_sum + mean * Py.of_int area)%float, border_area + area))
                 border_parts (Ok (0%float, 0)) ;;
     let border_mean :=
       if border_area =? 0 then 0%float
       else (border_sum / Py.of_int border_area)%float in
     ' (center_mean, center_area) <- _box_mean gray center_box ;;
     center_mean <- (if center_area =? 0 then ImageStat.mean gray else Ok center_mean) ;;
     Ok (border_mean, center_mean))%result.

Definition border_fraction_default : float := 0x1.eb851eb851eb8p-4%float.

(** [str.lower()] on ASCII text. *)
Definition lower_ascii (c : ascii) : ascii :=
  let n := nat_of_ascii c in
  if (65 <=? n)%nat && (n <=? 90)%nat then ascii_of_nat (n + 32) else c.

Fixpoint lower (s : string) : string :=
  match s with
  | EmptyString => EmptyString
  | String c rest => String (lower_ascii c) (lower rest)
  end.

(** [_should_flip_auto]; the default [tolerance] is 5.0. *)
Definition _should_flip_auto (gray_processed : Image) (mask_result : MaskResult)
           (invert_mode : string) (tolerance : float) : result bool :=
  let mode := lower invert_mode in
  if String.eqb mode "flip" then Ok true
  else if String.eqb mode "keep" then Ok false
  else
    let paper_ratio := _compute_mask_ratio (paper mask_result) in
    if PrimFloat.leb paper_ratio 0.5 then Ok false
    else
      (' (border_mean, center_mean) <- _border_and_center_means gray_processed
                                                               border_fraction_default ;;
       Ok (PrimFloat.ltb (border_mean + tolerance) center_mean))%result.

(** A 10 by 10 picture with a one-pixel border band of brightness
    [border] around an interior of brightness [center]. *)
Definition framed (border center : Z) : Image :=
  new_image 10 10 ModeL
            (fun x y => if (x =? 0) || (x =? 9) || (y =? 0) || (y =? 9) then border else center).

(** A 10 by 10 mask whose first [n] pixels, row by row, are white. *)
Definition partly_white (n : Z) : Image :=
  new_image 10 10 Mode1 (fun x y => if 10 * y + x <? n then 255 else 0).

Definition bundle_of (paper_mask : Image) : MaskResult :=
  mkMaskResult paper_mask paper_mask (Image_new Mode1 10 10 0) paper_mask.

(** The statement of C1: flip exactly when the border is brighter than
    the interior by more than the tolerance. *)
Definition flips_when_border_brighter : Prop :=
  forall (gray : Image) (masks : MaskResult) (tolerance border_mean center_mean : float),
    PrimFloat.leb (_compute_mask_ratio (paper masks)) 0.5 = false ->
    _border_and_center_means gray border_fraction_default = Ok (border_mean, center_mean) ->
    _should_flip_auto gray masks "auto" tolerance
    = Ok (PrimFloat.ltb (center_mean + tolerance) border_mean).

(** ** Scale-adaptive radii *)

Section ScaleRadius.

(** [x ** y] on floats, which may raise (overflow, zero to a negative
    power); the C library's [pow] is left abstract. *)
Variable pow : float -> float -> result float.

(** [scale_radius]; the default [exponent] is 0.5 and the default
    [clamp] is [None]. *)
Definition scale_radius (base_radius : Z) (scale_factor : float) (exponent : float)
           (clamp : option Z) : result Z :=
  if base_radius <=? 0 then Ok 0
  else
    let effective_scale := Py.fmax scale_factor 1 in
    (p <- pow effective_scale exponent ;;
     scaled <- Py.round (Py.of_int base_radius * p) ;;
     let scaled :=
       match clamp with
       | Some c => Z.min scaled c
       | None => scaled
       end in
     Ok (Z.max 1 scaled))%result.

(** The formula as the specification words it:
    [round(base * max(scaleFactor, 1) ^ exponent)], clamped to the
    optional ceiling, floored at 1 if [base > 0], else 0. *)
Definition rounded_power (base : Z) (scaleFactor exponent : float) : result Z :=
  (p <- pow (Py.fmax scaleFactor 1) exponent ;;
   Py.round (Py.of_int base * p))%result.

Definition clamped (ceiling : option Z) (v : Z) : Z :=
  match ceiling with
  | Some c => Z.min v c
  | None => v
  end.

Definition ScaleRadius (base : Z) (scaleFactor exponent : float) (ceiling : option Z)
  : result Z :=
  if 0 <? base
  then (v <- rounded_power base scaleFactor exponent ;;
        Ok (Z.max 1 (clamped ceiling v)))%result
  else Ok 0.

End ScaleRadius.

(** A sample power function: exact on the exponents 0 and 1. *)
Definition pow01 (x y : float) : result float :=
  if PrimFloat.eqb y 0 then Ok 1%float
  else if PrimFloat.eqb y 1 then Ok x
  else Raise (ValueError "exponent outside the sample").

(** ** Page geometry of [make_papercut_panel.py] *)

Module Panel.

Record PanelLayout : Type := mkPanelLayout {
  dpi : Z;
  cols : Z;
  rows : Z;
  margin_mm : float
}.

Definition page_size_px (l : PanelLayout) : result (Z * Z) := a4_size_px (dpi l).

(** The property [tile_size_px]. *)
Definition tile_size_px (l : PanelLayout) : result (Z * Z) :=
  (' (pw, ph) <- page_size_px l ;;
   margin_px <- mm_to_px (margin_mm l) (dpi l) ;;
   let inner_w := pw - 2 * margin_px in
   let inner_h := ph - 2 * margin_px in
   if (inner_w <=? 0) || (inner_h <=? 0)
   then Raise (ValueError "Margins are too large for A4 at this DPI")
   else Ok (inner_w, inner_h))%result.

(** The property [panel_size_px]. *)
Definition panel_size_px (l : PanelLayout) : result (Z * Z) :=
  (' (tw, th) <- tile_size_px l ;;
   Ok (cols l * tw, rows l * th))%result.

(** The inner tile size is not positive. *)
Definition degenerate (l : PanelLayout) : Prop :=
  exists pw ph margin_px,
    page_size_px l = Ok (pw, ph)
    /\ mm_to_px (margin_mm l) (dpi l) = Ok margin_px
    /\ (pw - 2 * margin_px <= 0 \/ ph - 2 * margin_px <= 0).

Definition wide_margins : PanelLayout := mkPanelLayout 300 3 4 150.

End Panel.

(** ** Tiling of the alternate pipeline: [vyt/core/tile.py] *)

Module Tile.

Definition A4_MM : float * float := (210%float, 297%float).

Definition is_space (c : ascii) : bool := Ascii.eqb c " ".

Fixpoint remove_spaces (s : string) : string :=
  match s with
  | EmptyString => EmptyString
  | String c rest =>
      if is_space c then remove_spaces rest else String c (remove_spaces rest)
  end.

(** [s.split("x", 1)]: the text before and after the first "x". *)
Fixpoint split_x (s : string) : option (string * string) :=
  match s with
  | EmptyString => None
  | String c rest =>
      if Ascii.eqb c "x" then Some (EmptyString, rest)
      else match split_x rest with
           | Some (a, b) => Some (String c a, b)
           | None => None
           end
  end.

Definition digit (c : ascii) : option Z :=
  let n := nat_of_ascii c in
  if (48 <=? n)%nat && (n <=? 57)%nat then Some (Z.of_nat n - 48) else None.

(** The value of a run of ASCII digits. *)
Fixpoint digits (acc : Z) (s : string) : option Z :=
  match s with
  | EmptyString => Some acc
  | String c rest =>
      match digit c with
      | Some d => digits (10 * acc + d) rest
      | None => None
      end
  end.

(** *** Python's [int(s)] on a string

    A Python string is held as its UTF-8 bytes.  [int] reads it the way
    CPython 3.11 does with its default settings: every character from
    code point 127 on is first turned into a space (Unicode white
    space), an ASCII digit (Unicode decimal digits, Unicode 14) or a
    question mark; then come optional ASCII white space, an optional
    sign, decimal digits with single underscores between them, and
    optional ASCII white space.  More than 4300 digits are refused.
    The messages are given up to the text that quotes the input. *)

(** The code points of a string.  Bytes that are not UTF-8 stand for
    no Python string; they are read as U+FFFD, which [int] refuses. *)
Fixpoint code_points (s : string) : list Z :=
  match s with
  | EmptyString => []
  | String b0 r0 =>
      let n0 := Z.of_nat (nat_of_ascii b0) in
      let cont := fun b => let n := Z.of_nat (nat_of_ascii b) in (128 <=? n) && (n <? 192) in
      let low := fun b => Z.of_nat (nat_of_ascii b) mod 64 in
      if n0 <? 128 then n0 :: code_points r0
      else
        match r0 with
        | EmptyString => [65533]
        | String b1 r1 =>
            if (194 <=? n0) && (n0 <? 224) && cont b1
            then ((n0 - 192) * 64 + low b1) :: code_points r1
            else
              match r1 with
              | EmptyString => 65533 :: code_points r0
              | String b2 r2 =>
                  let c3 := (n0 - 224) * 4096 + low b1 * 64 + low b2 in
                  if (224 <=? n0) && (n0 <? 240) && cont b1 && cont b2
                     && (2048 <=? c3) && negb ((55296 <=? c3) && (c3 <? 57344))
                  then c3 :: code_points r2
                  else
                    match r2 with
                    | EmptyString => 65533 :: code_points r0
                    | String b3 r3 =>
                        let c4 := (n0 - 240) * 262144 + low b1 * 4096 + low b2 * 64 + low b3 in
                        if (240 <=? n0) && (n0 <? 245) && cont b1 && cont b2 && cont b3
                           && (65536 <=? c4) && (c4 <? 1114112)
                        then c4 :: code_points r3
                        else 65533 :: code_points r0
                    end
              end
        end
  end.

(** [Py_UNICODE_ISSPACE] from code point 127 on. *)
Definition is_unicode_space (c : Z) : bool :=
  existsb (Z.eqb c) [0x85; 0xa0; 0x1680; 0x2028; 0x2029; 0x202f; 0x205f; 0x3000]
  || ((0x2000 <=? c) && (c <=? 0x200a)).

(** The first code point of every run of ten decimal digits beyond
    ASCII (the characters with a decimal value, Unicode 14). *)
Definition decimal_zeros : list Z :=
  [0x660; 0x6f0; 0x7c0; 0x966; 0x9e6; 0xa66; 0xae6; 0xb66; 0xbe6; 0xc66; 0xce6; 0xd66;
   0xde6; 0xe50; 0xed0; 0xf20; 0x1040; 0x1090; 0x17e0; 0x1810; 0x1946; 0x19d0; 0x1a80;
   0x1a90; 0x1b50; 0x1bb0; 0x1c40; 0x1c50; 0xa620; 0xa8d0; 0xa900; 0xa9d0; 0xa9f0;
   0xaa50; 0xabf0; 0xff10; 0x104a0; 0x10d30; 0x11066; 0x110f0; 0x11136; 0x111d0;
   0x112f0; 0x11450; 0x114d0; 0x11650; 0x116c0; 0x11730; 0x118e0; 0x11950; 0x11c50;
   0x11d50; 0x11da0; 0x16a60; 0x16ac0; 0x16b50; 0x1d7ce; 0x1d7d8; 0x1d7e2; 0x1d7ec;
   0x1d7f6; 0x1e140; 0x1e2f0; 0x1e950; 0x1fbf0].

(** [Py_UNICODE_TODECIMAL] from code point 127 on. *)
Definition to_decimal (c : Z) : option Z :=
  match find (fun z => (z <=? c) && (c <? z + 10)) decimal_zeros with
  | Some z => Some (c - z)
  | None => None
  end.

(** One character of [_PyUnicode_TransformDecimalAndSpaceToASCII]. *)
Definition to_ascii (c : Z) : Z :=
  if c <? 127 then c
  else if is_unicode_space c then 32
  else match to_decimal c with
       | Some d => 48 + d
       | None => 63
       end.

(** [Py_ISSPACE]: the space and the characters 9 to 13. *)
Definition Py_ISSPACE (c : Z) : bool := (c =? 32) || ((9 <=? c) && (c <=? 13)).

Fixpoint skip_spaces (l : list Z) : list Z :=
  match l with
  | [] => []
  | c :: rest => if Py_ISSPACE c then skip_spaces rest else l
  end.

(** The scan over digits and underscores: the value read, the number
    of digits and what is left; [None] for two underscores in a row or
    an underscore at the end of the run. *)
Fixpoint scan_digits (acc count : Z) (after_underscore : bool) (l : list Z)
  : option (Z * Z * list Z) :=
  match l with
  | [] => if after_underscore then None else Some (acc, count, [])
  | c :: rest =>
      if c =? 95 then
        if after_underscore then None else scan_digits acc count true rest
      else if (48 <=? c) && (c <=? 57) then
        scan_digits (10 * acc + (c - 48)) (count + 1) false rest
      else if after_underscore then None else Some (acc, count, l)
  end.

(** [sys.get_int_max_str_digits()], by default. *)
Definition max_str_digits : Z := 4300.

(** [int(s)] in base 10. *)
Definition int (s : string) : result Z :=
  let bad := Raise (ValueError "invalid literal for int() with base 10") in
  let l := skip_spaces (map to_ascii (code_points s)) in
  let negative := match l with c :: _ => c =? 45 | [] => false end in
  let l := match l with
           | c :: rest => if (c =? 45) || (c =? 43) then rest else l
           | [] => l
           end in
  if match l with c :: _ => c =? 95 | [] => false end then bad
  else
    match scan_digits 0 0 false l with
    | None => bad
    | Some (v, count, rest) =>
        if max_str_digits <? count
        then Raise (ValueError "Exceeds the limit (4300 digits) for integer string conversion")
        else if count =? 0 then bad
        else
          match skip_spaces rest with
          | [] => Ok (if negative then - v else v)
          | _ :: _ => bad
          end
    end.

(** [_parse_grid]. *)
Definition _parse_grid (grid : string) : result (Z * Z) :=
  let cleaned := remove_spaces (lower grid) in
  match split_x cleaned with
  | Some (cols_str, rows_str) =>
      (c <- int cols_str ;;
       r <- int rows_str ;;
       Ok (c, r))%result
  | None => Raise (ValueError "not enough values to unpack (expected 2, got 1)")
  end.

(** The entries of [cfg] that [to_tiles] reads. *)
Record config : Type := mkConfig {
  dpi : Z;
  margins_mm : float;
  overlap_mm : float;
  grid : string
}.

(** One written tile: its place in the grid and its SVG view box. *)
Record tile : Type := mkTile {
  row : Z;
  col : Z;
  offset_x : Z;
  offset_y : Z;
  tile_w_vb : Z;
  tile_h_vb : Z;
  page_number : Z
}.

(** [to_tiles]: the tiles written, in order; the scene file is taken
    to be readable and the tile directory writable. *)
Definition to_tiles (cfg : config) : result (list tile) :=
  (margins_px <- VytUnits.mm_to_px (margins_mm cfg) (dpi cfg) ;;
   overlap_px <- VytUnits.mm_to_px (overlap_mm cfg) (dpi cfg) ;;
   ' (cols, rows) <- _parse_grid (grid cfg) ;;
   a4_w_px <- VytUnits.mm_to_px (fst A4_MM) (dpi cfg) ;;
   a4_h_px <- VytUnits.mm_to_px (snd A4_MM) (dpi cfg) ;;
   let tile_w_vb := a4_w_px - 2 * margins_px + 2 * overlap_px in
   let tile_h_vb := a4_h_px - 2 * margins_px + 2 * overlap_px in
   let step_x := tile_w_vb - 2 * overlap_px in
   let step_y := tile_h_vb - 2 * overlap_px in
   Ok (flat_map
         (fun row =>
            map (fun col =>
                   let offset_x := col * step_x in
                   let offset_y := row * step_y in
                   let page_number := row * cols + col + 1 in
                   mkTile row col offset_x offset_y tile_w_vb tile_h_vb page_number)
                (zrange cols))
         (zrange rows)))%result.

(** Margins of 150 mm on each side of a 210 mm wide page. *)
Definition wide_margins : config := mkConfig 300 150 0 "3x4".

End Tile.

(** ** The bridge-width enforcer: [vyt/core/bridge.py] *)

Module Bridge.

(** The entries of [cfg] that [enforce] reads; a missing
    ["min_bridge_mm"] stands for 1.2. *)
Record config : Type := mkConfig {
  dpi : Z;
  min_bridge_mm : option float
}.

(** What [enforce] hands back: the path of the untouched mask, or the
    reinforced mask it has written. *)
Inductive outcome : Type :=
| Unchanged
| Reinforced (mask : Image).

(** [min_bridge_px] and [radius]. *)
Definition bridge_px (cfg : config) : result (Z * Z) :=
  (px <- VytUnits.mm_to_px
           (match min_bridge_mm cfg with Some v => v | None => 0x1.3333333333333p+0%float end)
           (dpi cfg) ;;
   let min_bridge_px := Z.max 1 px in
   r <- Py.round (Py.of_int min_bridge_px / 2) ;;
   Ok (min_bridge_px, Z.max 1 r))%result.

(** [binary = (mask > 127).astype(np.uint8)]. *)
Definition binarize (mask : Image) : Image :=
  point (fun v => if 127 <? v then 1 else 0) ModeL mask.

(** [cv2.dilate(src, kernel)]: the maximum of the source under the
    non-zero kernel cells, the kernel being anchored at its centre;
    cells that fall off the source are left out. *)
Definition dilate (src kernel : Image) : Image :=
  let ax := width kernel / 2 in
  let ay := height kernel / 2 in
  new_image (width src) (height src) (mode src)
            (fun x y =>
               fold_right Z.max 0
                 (map (fun c =>
                         let sx := x + fst c - ax in
                         let sy := y + snd c - ay in
                         if fg kernel (fst c) (snd c) && insideb src sx sy
                         then getpixel src sx sy else 0)
                      (pixels kernel))).

Section Enforce.

(** OpenCV is not part of the repository.  The distance transform
    and the elliptic structuring element are left abstract; what is
    used of them is that a zero pixel is at distance zero and that
    the structuring element of side [k] is [k] by [k] and contains
    its centre. *)
Variable distanceTransform : Image -> Z -> Z -> float.
Variable ellipse : Z -> Image.

(** [thin_regions = (dist < thin_threshold).astype(np.uint8)]. *)
Definition thin_regions (binary : Image) (min_bridge_px : Z) : Image :=
  let dist := distanceTransform binary in
  let thin_threshold := Py.fmax 1 (Py.of_int min_bridge_px / 2) in
  new_image (width binary) (height binary) ModeL
            (fun x y => if PrimFloat.ltb (dist x y) thin_threshold then 1 else 0).

(** [np.where(region_of_interest > 0, dilated, binary)]. *)
Definition reinforce (binary kernel thin : Image) : Image :=
  let dilated := dilate binary kernel in
  let region_of_interest := dilate thin kernel in
  new_image (width binary) (height binary) ModeL
            (fun x y => if 0 <? getpixel region_of_interest x y
                        then getpixel dilated x y else getpixel binary x y).

(** [enforce]; [mask] is what [cv2.imread] returns. *)
Definition enforce (mask : option Image) (cfg : config) : result outcome :=
  (' (min_bridge_px, radius) <- bridge_px cfg ;;
   let kernel_size := radius * 2 + 1 in
   match mask with
   | None => Raise (FileNotFoundError "Mask image not found")
   | Some mask =>
       let binary := binarize mask in
       let thin := thin_regions binary min_bridge_px in
       if getbbox_is_None thin then Ok Unchanged
       else
         let kernel := ellipse kernel_size in
         let reinforced := reinforce binary kernel thin in
         Ok (Reinforced (point (fun v => v * 255) ModeL reinforced))
   end)%result.

End Enforce.

(** *** A concrete OpenCV *)

(** The exact Euclidean distance to the nearest zero pixel. *)
Definition euclidean_distance (binary : Image) (x y : Z) : float :=
  let squares :=
    map (fun q => (fst q - x) * (fst q - x) + (snd q - y) * (snd q - y))
        (filter (fun q => getpixel binary (fst q) (snd q) =? 0) (pixels binary)) in
  match squares with
  | [] => infinity
  | s :: rest => PrimFloat.sqrt (Py.of_int (fold_right Z.min s rest))
  end.

(** The rows of OpenCV's [MORPH_ELLIPSE] element: row [i] is set
    between [c - dx] and [c + dx], with
    [dx = round(c * sqrt((r * r - dy * dy) / (r * r)))]. *)
Definition ellipse_element (k : Z) : Image :=
  let r := k / 2 in
  let c := k / 2 in
  new_image k k ModeL
            (fun j i =>
               let dy := i - r in
               let dx :=
                 match Py.round (Py.of_int c
                                 * PrimFloat.sqrt (Py.of_int (r * r - dy * dy)
                                                   * (1 / Py.of_int (r * r))))%float with
                 | Ok v => v
                 | Raise _ => 0
                 end in
               if (Z.max (c - dx) 0 <=? j) && (j <? Z.min (c + dx + 1) k) then 1 else 0).

(** OpenCV's [MORPH_RECT] element: a full square. *)
Definition rect_element (k : Z) : Image := Image_new ModeL k k 1.

(** A mask with a solid 3 by 3 block and no thin part. *)
Definition block7 : Image :=
  of_rows ModeL [[0; 0; 0; 0; 0; 0; 0];
                 [0; 0; 0; 0; 0; 0; 0];
                 [0; 0; 255; 255; 255; 0; 0];
                 [0; 0; 255; 255; 255; 0; 0];
                 [0; 0; 255; 255; 255; 0; 0];
                 [0; 0; 0; 0; 0; 0; 0];
                 [0; 0; 0; 0; 0; 0; 0]].

(** At 25 dpi the default 1.2 mm is one pixel: the structuring
    element has radius 1 and a pixel is thin below distance 1. *)
Definition coarse : config := mkConfig 25 None.

End Bridge.

(** ** Further parts of [make_papercut_panel.py] *)

(** [slice_panel_into_tiles]: the crops, row by row.  The panel is an
    RGB image in the source; the crop does not look at the mode, and a
    pixel stands for its stored value. *)
Definition slice_panel_into_tiles (panel : Image) (layout : Panel.PanelLayout)
  : result (list Image) :=
  (' (tw, th) <- Panel.tile_size_px layout ;;
   Ok (flat_map
         (fun row =>
            map (fun col =>
                   let left := col * tw in
                   let upper := row * th in
                   crop panel left upper (left + tw) (upper + th))
                (zrange (Panel.cols layout)))
         (zrange (Panel.rows layout))))%result.

(** The local [scaled_params] of [build_white_on_gray_panel]: the
    radii rescaled for the export pass, capped at 2.0 mm and 1.4 mm;
    [scale_used] is the fit scale, [pow] the float power. *)
Definition scaled_params (pow : float -> float -> result float) (layout : Panel.PanelLayout)
           (bw_params : BWParams) (scale_used : float) : result BWParams :=
  let scale_factor := Py.fmax scale_used 1 in
  (max_panel_dilate <-
     (if 0 <? dilate_px bw_params
      then (c <- mm_to_px 2 (Panel.dpi layout) ;; Ok (Z.max 1 c))
      else Ok 0) ;;
   max_panel_join <-
     (if 0 <? detail_join_px bw_params
      then (c <- mm_to_px 0x1.6666666666666p+0 (Panel.dpi layout) ;; Ok (Z.max 1 c))
      else Ok 0) ;;
   scaled_dilate <-
     scale_radius pow (dilate_px bw_params) scale_factor 0x1.ccccccccccccdp-2
                  (if 0 <? max_panel_dilate then Some max_panel_dilate else None) ;;
   scaled_join <-
     scale_radius pow (detail_join_px bw_params) scale_factor 0x1.6666666666666p-2
                  (if 0 <? max_panel_join then Some max_panel_join else None) ;;
   Ok (mkBWParams (threshold_bg bw_params) (threshold_detail bw_params) (blur bw_params)
                  scaled_dilate (antialias_radius bw_params) scaled_join))%result.

(** ** Decimal numerals *)

(** Every character is one of "0" to "9". *)
Fixpoint all_digits (s : string) : bool :=
  match s with
  | EmptyString => true
  | String c rest =>
      match Tile.digit c with
      | Some _ => all_digits rest
      | None => false
      end
  end.

(** A sample power function: exact at the base 1 and on the exponents
    0 and 1. *)
Definition pow_unit (x y : float) : result float :=
  if PrimFloat.eqb x 1 then Ok 1%float else pow01 x y.

Definition params3 : BWParams := mkBWParams 50 20 0 3 0 2.

(** ** Connectivity on the canvas *)

(** Two pixels that share a side. *)
Definition adjacent (x y x' y' : Z) : Prop := Z.abs (x - x') + Z.abs (y - y') = 1.

(** The pixels that can be walked to from a seed pixel, from pixel to
    neighbouring pixel, staying on pixels that satisfy [ok]. *)
Inductive reach (ok seed : Z -> Z -> Prop) : Z -> Z -> Prop :=
| reach_seed x y : seed x y -> ok x y -> reach ok seed x y
| reach_step x y x' y' :
    reach ok seed x y -> adjacent x y x' y' -> ok x' y' -> reach ok seed x' y'.

(** A pixel of the canvas that is not a wall. *)
Definition free (blocked : Image) (x y : Z) : Prop :=
  inside blocked x y /\ getpixel blocked x y = 0.

Definition on_border (img : Image) (x y : Z) : Prop :=
  x = 0 \/ x = width img - 1 \/ y = 0 \/ y = height img - 1.

(** The seed of a flood fill. *)
Definition at_seed (sx sy x y : Z) : Prop := x = sx /\ y = sy.

(** The positions that the two seeding loops of the fallback go
    through, in order. *)
Definition border_points (img : Image) : list (Z * Z) :=
  flat_map (fun x => [(x, 0); (x, height img - 1)]) (zrange (width img))
  ++ flat_map (fun y => [(0, y); (width img - 1, y)]) (zrange (height img)).

Definition marked (outside : Image) (x y : Z) : Prop := getpixel outside x y <> 0.

(** Every free neighbour of the pixel is marked. *)
Definition closed_at (blocked outside : Image) (x y : Z) : Prop :=
  forall x' y', adjacent x y x' y' -> free blocked x' y' -> marked outside x' y'.

(** The invariant of the fallback's loops: a mark is only put on a
    free pixel that can be walked to from the border, the queue holds
    marked pixels, and a marked pixel is queued, or is one of [pend],
    or has all its free neighbours marked. *)
Record bfs_invariant (blocked : Image) (pend : list (Z * Z)) (st : Bfs.state) : Prop := {
  bfs_sound : forall x y,
    marked (Bfs.outside st) x y -> reach (free blocked) (on_border blocked) x y;
  bfs_binary : forall x y,
    getpixel (Bfs.outside st) x y = 255 \/ getpixel (Bfs.outside st) x y = 0;
  bfs_queued : forall x y, In (x, y) (Bfs.queue st) -> marked (Bfs.outside st) x y;
  bfs_closed : forall x y,
    marked (Bfs.outside st) x y ->
    In (x, y) pend \/ In (x, y) (Bfs.queue st) \/ closed_at blocked (Bfs.outside st) x y
}.

(** A pixel of the canvas that has the colour the flood fill replaces. *)
Definition same_colour (img : Image) (colour x y : Z) : Prop :=
  inside img x y /\ getpixel img x y = colour.

Definition painted (value : Z) (img : Image) (x y : Z) : Prop := getpixel img x y = value.

(** Every neighbour of the pixel that had the replaced colour is painted. *)
Definition filled_around (img0 : Image) (background value : Z) (img : Image) (x y : Z)
  : Prop :=
  forall x' y', adjacent x y x' y' -> same_colour img0 background x' y' ->
                painted value img x' y'.

(** The invariant of one sweep of [ImageDraw.floodfill] over [edge],
    started on the image [img0] from the seed [(sx, sy)]: only pixels
    of the replaced colour that can be walked to from the seed are
    painted, a pixel that was looked at is painted if it had that
    colour, and a painted pixel is still in [edge], or was painted in
    this sweep, or has all its neighbours done. *)
Record sweep_invariant (img0 : Image) (background value sx sy : Z) (edge : list (Z * Z))
       (st : ImageDraw.sweep) : Prop := {
  sw_size : same_size (ImageDraw.buf st) img0;
  sw_kept : forall x y,
    getpixel (ImageDraw.buf st) x y = getpixel img0 x y
    \/ (painted value (ImageDraw.buf st) x y /\ same_colour img0 background x y);
  sw_sound : forall x y,
    painted value (ImageDraw.buf st) x y ->
    reach (same_colour img0 background) (at_seed sx sy) x y;
  sw_looked : forall x y,
    In (x, y) (ImageDraw.full_edge st) -> same_colour img0 background x y ->
    painted value (ImageDraw.buf st) x y;
  sw_new : forall x y,
    In (x, y) (ImageDraw.new_edge st) -> painted value (ImageDraw.buf st) x y;
  sw_closed : forall x y,
    painted value (ImageDraw.buf st) x y ->
    In (x, y) edge \/ In (x, y) (ImageDraw.new_edge st)
    \/ filled_around img0 background value (ImageDraw.buf st) x y
}.

(** A mask without any foreground pixel. *)
Definition blank (img : Image) : Prop := forall x y, fg img x y = false.

(** ** Preparing the source: [normalize_source_image] *)

Record NormalizationParams : Type := mkNormalizationParams {
  target_dpi : Z;
  upscale_factor : float;
  blur_radius : float
}.

Section Normalize.

(** [img.resize((w, h), resample=LANCZOS)] and the Gaussian blur are
    left abstract. *)
Variable resize : Z -> Z -> Image -> Image.
Variable GaussianBlur : float -> Image -> Image.

(** [normalize_source_image]; [info_dpi] is [img.info.get("dpi")]
    when that is a pair, with its entries read as floats.  The two
    divisors are at least 1, or not a number, so that no division by
    zero is raised. *)
Definition normalize_source_image (img : Image) (info_dpi : option (float * float))
           (params : NormalizationParams) : result (Image * float * float) :=
  if PrimFloat.leb (upscale_factor params) 1 && PrimFloat.leb (blur_radius params) 0
  then Ok (img, 1%float, 0%float)
  else
    let upscale := Py.fmax 1 (upscale_factor params) in
    let upscale :=
      match info_dpi with
      | Some (d0, d1) =>
          if 0 <? target_dpi params
          then
            let src_dpi := Py.fmax (Py.fmax d0 d1) 1 in
            let dpi_scale := (Py.of_int (target_dpi params) / src_dpi)%float in
            Py.fmax upscale dpi_scale
          else upscale
      | None => upscale
      end in
    let w := width img in
    let h := height img in
    if (w =? 0) || (h =? 0) then Ok (img, 1%float, 0%float)
    else
      (rw <- Py.round (Py.of_int w * upscale) ;;
       rh <- Py.round (Py.of_int h * upscale) ;;
       let target_w := Z.max 1 rw in
       let target_h := Z.max 1 rh in
       let same := (target_w =? w) && (target_h =? h) in
       let working := if same then img else resize target_w target_h img in
       let blur :=
         if PrimFloat.ltb 0 (blur_radius params)
         then
           let effective_scale := Py.fmax upscale 1 in
           let radius := (blur_radius params / effective_scale)%float in
           let radius :=
             match info_dpi with
             | Some (d0, d1) =>
                 if (0 <? target_dpi params)
                    && PrimFloat.leb (Py.of_int (target_dpi params)) d0
                    && PrimFloat.leb (Py.of_int (target_dpi params)) d1
                 then 0%float else radius
             | None => radius
             end in
           if PrimFloat.leb 0x1.999999999999ap-5 radius then Some radius else None
         else None in
       let working :=
         match blur with
         | Some radius => GaussianBlur radius working
         | None => working
         end in
       let applied_blur := match blur with Some radius => radius | None => 0%float end in
       let working := if same then working else resize w h working in
       Ok (working, upscale, applied_blur))%result.

End Normalize.

(** A stand-in for the resampling: nearest neighbour. *)
Definition nearest_resize (w h : Z) (img : Image) : Image :=
  new_image w h (mode img)
            (fun x y => getpixel img (x * width img / w) (y * height img / h)).

(** ** The paper mask on its own: [build_paper_mask] *)

Module ImageOps.

(** [ImageOps.invert] on an 8-bit image. *)
Definition invert (img : Image) : Image := point (fun v => 255 - v) (mode img) img.

End ImageOps.

Section PaperMask.

Variable dither : Image -> Image.
Variable GaussianBlur : float -> Image -> Image.
Variable BoxBlur : Z -> Image -> Image.
Variable FIND_EDGES : Image -> Image.
Variable floodfill_available : bool.

(** [ImageOps.autocontrast] is left abstract. *)
Variable autocontrast : Image -> Image.

(** [prepare_grayscale]. *)
Definition prepare_grayscale (gray : Image) (params : BWParams) : Image :=
  let result := autocontrast gray in
  if PrimFloat.ltb 0 (blur params) then GaussianBlur (blur params) result else result.

(** [soften_mask]. *)
Definition soften_mask (mask : Image) (radius : float) : Image :=
  let mask_l := convert_L mask in
  if PrimFloat.leb radius 0 then point ge128 ModeL mask_l
  else point ge128 ModeL (GaussianBlur radius mask_l).

(** [build_paper_mask]. *)
Definition build_paper_mask (gray : Image) (params : BWParams) (invert : bool) : Image :=
  let prepared := prepare_grayscale gray params in
  let prepared := if invert then ImageOps.invert prepared else prepared in
  let masks := build_masks_from_gray dither GaussianBlur BoxBlur FIND_EDGES
                                     floodfill_available prepared params in
  let softened := soften_mask (paper masks) (antialias_radius params) in
  point ge128 Mode1 softened.

End PaperMask.

(** ** The walls of the fill inside [build_masks_from_gray] *)

(** The local [blocked_binary] of the call
    [fill_closed_regions(outline_closed, dilation_radius=fill_radius)]:
    the closed outline grown by the fill radius. *)
Definition walls (dither : Image -> Image) (gray_processed : Image) (params : BWParams)
  : Image :=
  blocked_binary dither
                 (_apply_closing (outline_raw gray_processed params) (dilate_px params))
                 (if 0 <? dilate_px params then dilate_px params else 0).

(** The pixels that are filled or on the walls of the fill. *)
Definition filled_or_wall (dither : Image -> Image) (GaussianBlur : float -> Image -> Image)
           (BoxBlur : Z -> Image -> Image) (FIND_EDGES : Image -> Image)
           (floodfill_available : bool) (gray_processed : Image) (params : BWParams)
  : Image :=
  ImageChops.logical_or
    (filled (build_masks_from_gray dither GaussianBlur BoxBlur FIND_EDGES
                                   floodfill_available gray_processed params))
    (walls dither gray_processed params).

(** * Properties *)

(** ** Unit round trip *)

Example mm_to_px_a4_300 : a4_size_px 300 = Ok (2480, 3508).
Proof. vm_compute. reflexivity. Qed.

Example mm_to_px_half_even : mm_to_px 0x1.9666666666666p+3 2 = Ok 1
                             /\ Py.round 0.5 = Ok 0 /\ Py.round 2.5 = Ok 2
                             /\ Py.round 3.5 = Ok 4 /\ Py.round (-1.5) = Ok (-2).
Proof. vm_compute. repeat split; reflexivity. Qed.

Lemma units_agree (mm : float) (dpi : Z) :
  VytUnits.mm_to_px mm dpi = mm_to_px mm dpi.
Proof. reflexivity. Qed.

Lemma within_dec_sound bound err : within_dec bound err = true -> within bound err.
Proof.
  destruct err as [e|]; simpl; [apply Qle_bool_imp_le | discriminate].
Qed.

(** C6: for dpi in {150, 300, 600} and mm in {0, 1, 10, 210, 297} the
    value [px_to_mm (mm_to_px mm dpi) dpi] exists and differs from [mm]
    by at most 25.4 / dpi millimetres, i.e. by at most one pixel. *)
Theorem mm_px_roundtrip (dpi mm : Z) :
  In dpi [150; 300; 600] -> In mm [0; 1; 10; 210; 297] ->
  within ((127 # 5) / inject_Z dpi) (roundtrip_error mm dpi).
Proof.
  intros Hd Hm. apply within_dec_sound.
  simpl in Hd, Hm.
  repeat match goal with
         | H : _ \/ _ |- _ => destruct H as [H | H]
         | H : False |- _ => destruct H
         end; subst; vm_compute; reflexivity.
Qed.

Lemma mm_px_roundtrip_witness :
  within ((127 # 5) / inject_Z 300) (roundtrip_error 210 300).
Proof.
  apply (mm_px_roundtrip 300 210); simpl; tauto.
Defined.

Example roundtrip_test_passes :
  forallb (fun dpi => forallb (fun mm => roundtrip_test mm dpi) [0; 1; 10; 210; 297])
          [150; 300; 600] = true.
Proof. vm_compute. reflexivity. Qed.

(** ** Images: basic facts *)

Lemma in_zrange n v : In v (zrange n) <-> 0 <= v < n.
Proof.
  unfold zrange. rewrite in_map_iff. split.
  - intros [k [<- Hk]]. apply in_seq in Hk. lia.
  - intros H. exists (Z.to_nat v). split; [lia | apply in_seq; lia].
Qed.

Lemma in_coords w h x y : In (x, y) (coords w h) <-> 0 <= x < w /\ 0 <= y < h.
Proof.
  unfold coords. rewrite in_flat_map. split.
  - intros [y' [Hy Hx]]. apply in_map_iff in Hx. destruct Hx as [x' [E Hx]].
    inversion E; subst. apply in_zrange in Hy. apply in_zrange in Hx. lia.
  - intros [Hx Hy]. exists y. split; [apply in_zrange; lia |].
    apply in_map_iff. exists x. split; [reflexivity | apply in_zrange; lia].
Qed.

Lemma nth_zrange n k d : (k < Z.to_nat n)%nat -> nth k (zrange n) d = Z.of_nat k.
Proof.
  intros H. unfold zrange.
  rewrite nth_indep with (d' := Z.of_nat 0) by (rewrite length_map, length_seq; exact H).
  rewrite map_nth, seq_nth by exact H. reflexivity.
Qed.

Lemma length_zrange n : List.length (zrange n) = Z.to_nat n.
Proof. unfold zrange. now rewrite length_map, length_seq. Qed.

Lemma nth_map_zrange {A} (g : Z -> A) n k d :
  (k < Z.to_nat n)%nat -> nth k (map g (zrange n)) d = g (Z.of_nat k).
Proof.
  intros H.
  rewrite nth_indep with (d' := g 0) by (rewrite length_map, length_zrange; lia).
  rewrite map_nth. f_equal. now apply nth_zrange.
Qed.

Lemma lookup_tabulate w h f x y :
  0 <= x < w -> 0 <= y < h -> lookup (tabulate w h f) x y = f x y.
Proof.
  intros Hx Hy. unfold lookup, tabulate.
  replace ((0 <=? x) && (0 <=? y)) with true
    by (symmetry; apply andb_true_iff; split; apply Z.leb_le; lia).
  rewrite nth_map_zrange by lia.
  rewrite nth_map_zrange by lia.
  now rewrite !Z2Nat.id by lia.
Qed.

Lemma getpixel_new w h m f x y :
  0 <= x < w -> 0 <= y < h -> getpixel (new_image w h m f) x y = f x y.
Proof. intros. unfold new_image. simpl. now apply lookup_tabulate. Qed.

Lemma width_new w h m f : width (new_image w h m f) = w.
Proof. reflexivity. Qed.

Lemma height_new w h m f : height (new_image w h m f) = h.
Proof. reflexivity. Qed.

Lemma mode_new w h m f : mode (new_image w h m f) = m.
Proof. reflexivity. Qed.

(** ** Morphology: windows as neighbourhoods *)

Lemma fold_max_ge (l : list Z) (t : Z) :
  0 < t -> (t <= fold_right Z.max 0 l <-> exists v, In v l /\ t <= v).
Proof.
  intros Ht. induction l as [|a l IH]; simpl.
  - split; [lia | intros [v [[] _]]].
  - split.
    + intros H. destruct (Z_le_gt_dec t a) as [Ha|Ha].
      * exists a. auto.
      * assert (t <= fold_right Z.max 0 l) as H' by lia.
        apply IH in H'. destruct H' as [v [Hv Hle]]. exists v. auto.
    + intros [v [[<-|Hv] Hle]]; [lia |].
      assert (t <= fold_right Z.max 0 l) by (apply IH; eauto). lia.
Qed.

Lemma fold_min_ge (l : list Z) (t : Z) :
  t <= 255 -> (t <= fold_right Z.min 255 l <-> forall v, In v l -> t <= v).
Proof.
  intros Ht. induction l as [|a l IH]; simpl.
  - split; [intros _ v [] | lia].
  - split.
    + intros H v [<-|Hv]; [lia |]. apply IH; [lia | exact Hv].
    + intros H. assert (t <= a) by (apply H; auto).
      assert (t <= fold_right Z.min 255 l) by (apply IH; intros; apply H; auto). lia.
Qed.

Lemma in_offsets (r d : Z) : 0 <= r -> (In d (offsets (2 * r + 1)) <-> - r <= d <= r).
Proof.
  intros Hr. unfold offsets.
  replace ((2 * r + 1) / 2) with r by (apply Z.div_unique with (r := 1); lia).
  rewrite in_map_iff. split.
  - intros [i [<- Hi]]. apply in_zrange in Hi. lia.
  - intros H. exists (d + r). split; [lia | apply in_zrange; lia].
Qed.

Lemma near_sym w h r px py qx qy :
  0 <= px < w -> 0 <= py < h -> near w h r px py qx qy -> near w h r qx qy px py.
Proof. unfold near. lia. Qed.

Lemma near_refl w h r px py :
  0 <= r -> 0 <= px < w -> 0 <= py < h -> near w h r px py px py.
Proof. unfold near. lia. Qed.

Lemma in_window (img : Image) (r x y v : Z) :
  0 <= r -> inside img x y ->
  (In v (window img (2 * r + 1) x y) <->
   exists qx qy, near (width img) (height img) r x y qx qy /\ v = getpixel img qx qy).
Proof.
  intros Hr [Hx Hy]. unfold window. rewrite in_flat_map. split.
  - intros [dy [Hdy Hin]]. apply in_map_iff in Hin. destruct Hin as [dx [<- Hdx]].
    apply in_offsets in Hdx, Hdy; try lia.
    exists (clamp 0 (width img - 1) (x + dx)), (clamp 0 (height img - 1) (y + dy)).
    split; [| reflexivity]. unfold near, clamp. lia.
  - intros [qx [qy [[[Hqx Hqy] [Hax Hay]] ->]]].
    exists (qy - y). split; [apply in_offsets; lia |].
    apply in_map_iff. exists (qx - x). split; [| apply in_offsets; lia].
    unfold expand_pixel, clamp. f_equal; lia.
Qed.

Lemma closeP_mono w h r (P Q : Z -> Z -> Prop) :
  (forall x y, 0 <= x < w -> 0 <= y < h -> P x y -> Q x y) ->
  forall x y, closeP w h r P x y -> closeP w h r Q x y.
Proof.
  intros HPQ x y HC qx qy Hq.
  destruct (HC qx qy Hq) as [sx [sy [Hs HP]]].
  exists sx, sy. split; [exact Hs |]. destruct Hs as [[? ?] _]. now apply HPQ.
Qed.

Lemma closeP_extensive w h r (P : Z -> Z -> Prop) x y :
  0 <= x < w -> 0 <= y < h -> P x y -> closeP w h r P x y.
Proof.
  intros Hx Hy HP qx qy Hq. exists x, y. split; [| exact HP].
  destruct Hq as [[? ?] ?]. apply near_sym; unfold near; try lia.
Qed.

Lemma closeP_idem w h r (P : Z -> Z -> Prop) x y :
  0 <= x < w -> 0 <= y < h ->
  (closeP w h r (closeP w h r P) x y <-> closeP w h r P x y).
Proof.
  intros Hx Hy. split.
  - intros HCC qx qy Hq.
    destruct (HCC qx qy Hq) as [sx [sy [Hs HC]]].
    apply (HC qx qy). destruct Hq as [[? ?] ?]. now apply near_sym.
  - intros HC qx qy Hq. exists x, y. split; [| exact HC].
    now apply near_sym.
Qed.

(** *** What the filters compute inside the canvas *)

Lemma MaxFilter_ge (img : Image) (r t x y : Z) :
  0 <= r -> 0 < t -> inside img x y ->
  (t <= getpixel (MaxFilter (2 * r + 1) img) x y <->
   dilateP (width img) (height img) r (fun qx qy => t <= getpixel img qx qy) x y).
Proof.
  intros Hr Ht Hin. unfold MaxFilter. rewrite getpixel_new by apply Hin.
  rewrite fold_max_ge by exact Ht. split.
  - intros [v [Hv Hle]]. apply in_window in Hv; try assumption.
    destruct Hv as [qx [qy [Hq ->]]]. exists qx, qy. auto.
  - intros [qx [qy [Hq Hle]]]. exists (getpixel img qx qy). split; [| exact Hle].
    apply in_window; try assumption. eauto.
Qed.

Lemma MinFilter_ge (img : Image) (r t x y : Z) :
  0 <= r -> t <= 255 -> inside img x y ->
  (t <= getpixel (MinFilter (2 * r + 1) img) x y <->
   erodeP (width img) (height img) r (fun qx qy => t <= getpixel img qx qy) x y).
Proof.
  intros Hr Ht Hin. unfold MinFilter. rewrite getpixel_new by apply Hin.
  rewrite fold_min_ge by exact Ht. split.
  - intros H qx qy Hq. apply H. apply in_window; try assumption. eauto.
  - intros H v Hv. apply in_window in Hv; try assumption.
    destruct Hv as [qx [qy [Hq ->]]]. now apply H.
Qed.

Lemma width_convert_L img : width (convert_L img) = width img.
Proof. unfold convert_L. now destruct (mode img). Qed.

Lemma height_convert_L img : height (convert_L img) = height img.
Proof. unfold convert_L. now destruct (mode img). Qed.

Lemma closing_size (m : Image) (r : Z) :
  width (_apply_closing m r) = width m /\ height (_apply_closing m r) = height m.
Proof.
  unfold _apply_closing. destruct (r <=? 0); [auto |].
  simpl. now rewrite width_convert_L, height_convert_L.
Qed.

Lemma closing_mode (m : Image) (r : Z) : 1 <= r -> mode (_apply_closing m r) = Mode1.
Proof.
  intros Hr. unfold _apply_closing. destruct (Z.leb_spec r 0); [lia | reflexivity].
Qed.

Lemma closing_pixel (m : Image) (r x y : Z) :
  1 <= r -> inside m x y ->
  getpixel (_apply_closing m r) x y = 255 \/ getpixel (_apply_closing m r) x y = 0.
Proof.
  intros Hr Hin. unfold _apply_closing.
  destruct (Z.leb_spec r 0); [lia |].
  assert (inside (convert_L m) x y) as HinL
      by (unfold inside; rewrite width_convert_L, height_convert_L; apply Hin).
  unfold point. rewrite getpixel_new by apply HinL.
  unfold ge128. destruct (128 <=? _); auto.
Qed.

Lemma MinMax_ge (img : Image) (r x y : Z) :
  0 <= r -> inside img x y ->
  (128 <= getpixel (MinFilter (2 * r + 1) (MaxFilter (2 * r + 1) img)) x y <->
   closeP (width img) (height img) r (fun qx qy => 128 <= getpixel img qx qy) x y).
Proof.
  intros Hr Hin.
  rewrite MinFilter_ge by (try lia; exact Hin).
  change (width (MaxFilter (2 * r + 1) img)) with (width img).
  change (height (MaxFilter (2 * r + 1) img)) with (height img).
  unfold closeP, erodeP.
  split; intros H qx qy Hq; specialize (H qx qy Hq).
  - apply MaxFilter_ge in H; try lia; [exact H | apply Hq].
  - apply MaxFilter_ge; try lia; [apply Hq | exact H].
Qed.

Lemma closing_fg (m : Image) (r x y : Z) :
  1 <= r -> inside m x y ->
  (getpixel (_apply_closing m r) x y = 255 <->
   closeP (width m) (height m) r (solid m) x y).
Proof.
  intros Hr Hin. unfold _apply_closing.
  destruct (Z.leb_spec r 0); [lia |].
  replace (Z.max 3 (2 * r + 1)) with (2 * r + 1) by lia.
  assert (inside (convert_L m) x y) as HinL
      by (unfold inside; rewrite width_convert_L, height_convert_L; apply Hin).
  unfold point. rewrite getpixel_new by apply HinL.
  pose proof (MinMax_ge (convert_L m) r x y ltac:(lia) HinL) as HM.
  rewrite width_convert_L, height_convert_L in HM.
  fold (solid m) in HM. rewrite <- HM.
  unfold ge128.
  destruct (Z.leb_spec 128 (getpixel (MinFilter (2 * r + 1)
                                                (MaxFilter (2 * r + 1) (convert_L m))) x y));
    split; intros; try reflexivity; try assumption; try discriminate; lia.
Qed.

Lemma solid_closing (m : Image) (r x y : Z) :
  1 <= r -> inside m x y ->
  (solid (_apply_closing m r) x y <-> closeP (width m) (height m) r (solid m) x y).
Proof.
  intros Hr Hin. rewrite <- closing_fg by assumption.
  unfold solid at 1.
  pose proof (closing_mode m r Hr) as Hm.
  unfold convert_L. rewrite Hm.
  destruct (closing_size m r) as [Hw Hh].
  rewrite getpixel_new by (rewrite ?Hw, ?Hh; apply Hin).
  destruct (closing_pixel m r x y Hr Hin) as [E|E]; rewrite E; simpl; lia.
Qed.

Example closing_dashed7 :
  to_rows (_apply_closing dashed7 1)
  = [[0; 0; 0; 0; 0; 0; 0];
     [0; 0; 0; 0; 0; 0; 0];
     [0; 0; 0; 0; 0; 0; 0];
     [255; 255; 255; 255; 255; 255; 255];
     [0; 0; 0; 0; 0; 0; 0];
     [0; 0; 0; 0; 0; 0; 0];
     [0; 0; 0; 0; 0; 0; 0]]
  /\ to_rows (_apply_closing (_apply_closing dashed7 1) 1) = to_rows (_apply_closing dashed7 1).
Proof. vm_compute. split; reflexivity. Qed.

(** C7: closing is idempotent: closing a closed mask again at the same
    radius gives the same mask pixel for pixel, for every mask and every
    radius (radius 0 or less leaves the mask as it is). *)
Theorem closing_idempotent (m : Image) (r : Z) :
  same_pixels (_apply_closing (_apply_closing m r) r) (_apply_closing m r)
  /\ mode (_apply_closing (_apply_closing m r) r) = mode (_apply_closing m r).
Proof.
  destruct (Z_le_gt_dec r 0) as [Hr|Hr].
  - unfold _apply_closing. destruct (Z.leb_spec r 0); [| lia].
    split; [| reflexivity]. repeat split; reflexivity.
  - assert (1 <= r) as Hr1 by lia.
    destruct (closing_size m r) as [Hw Hh].
    destruct (closing_size (_apply_closing m r) r) as [Hw2 Hh2].
    split.
    + split; [congruence | split; [congruence |]].
      intros x y Hin.
      assert (inside (_apply_closing m r) x y) as Hin1
          by (unfold inside in *; rewrite <- Hw2, <- Hh2; exact Hin).
      assert (inside m x y) as Hin0
          by (unfold inside in *; rewrite <- Hw, <- Hh; exact Hin1).
      assert (getpixel (_apply_closing (_apply_closing m r) r) x y = 255 <->
              getpixel (_apply_closing m r) x y = 255) as Hiff.
      { rewrite (closing_fg (_apply_closing m r)) by assumption.
        rewrite (closing_fg m) by assumption.
        rewrite Hw, Hh.
        rewrite <- (closeP_idem (width m) (height m) r (solid m) x y) by apply Hin0.
        split; apply closeP_mono; intros qx qy Hqx Hqy HS.
        - apply solid_closing in HS; [exact HS | exact Hr1 | split; assumption].
        - apply solid_closing; [exact Hr1 | split; assumption | exact HS]. }
      destruct (closing_pixel (_apply_closing m r) r x y Hr1 Hin1) as [E1|E1];
        destruct (closing_pixel m r x y Hr1 Hin0) as [E2|E2]; try congruence.
      * apply Hiff in E1. congruence.
      * apply Hiff in E2. congruence.
    + now rewrite (closing_mode (_apply_closing m r) r Hr1), (closing_mode m r Hr1).
Qed.

(** ** Flood fill: both loops end *)

Lemma filter_length_mono {A} (f g : A -> bool) (l : list A) :
  (forall a, In a l -> g a = true -> f a = true) ->
  (List.length (filter g l) <= List.length (filter f l))%nat.
Proof.
  induction l as [|b l IH]; intros H; simpl; [lia |].
  assert (List.length (filter g l) <= List.length (filter f l))%nat as IH'
      by (apply IH; intros; apply H; simpl; auto).
  destruct (g b) eqn:Eg.
  - rewrite (H b (or_introl eq_refl) Eg). simpl. lia.
  - destruct (f b); simpl; lia.
Qed.

Lemma filter_length_strict {A} (f g : A -> bool) (l : list A) (a : A) :
  In a l -> f a = true -> g a = false ->
  (forall b, In b l -> g b = true -> f b = true) ->
  (List.length (filter g l) < List.length (filter f l))%nat.
Proof.
  induction l as [|b l IH]; intros Hin Hf Hg H; simpl; [destruct Hin |].
  assert (List.length (filter g l) <= List.length (filter f l))%nat as Hle
      by (apply filter_length_mono; intros; apply H; simpl; auto).
  destruct Hin as [->|Hin].
  - rewrite Hf, Hg. simpl. lia.
  - assert (List.length (filter g l) < List.length (filter f l))%nat as IH'
        by (apply IH; auto; intros; apply H; simpl; auto).
    destruct (g b) eqn:Eg.
    + rewrite (H b (or_introl eq_refl) Eg). simpl. lia.
    + destruct (f b); simpl; lia.
Qed.

Lemma insideb_iff img x y : insideb img x y = true <-> inside img x y.
Proof.
  unfold insideb, inside. rewrite !andb_true_iff, !Z.leb_le, !Z.ltb_lt. tauto.
Qed.

Lemma count_where_putpixel (P : Z -> bool) (img : Image) (x y v : Z) :
  inside img x y -> P (getpixel img x y) = true -> P v = false ->
  (count_where P (putpixel img x y v) < count_where P img)%nat.
Proof.
  intros Hin HP Hv. unfold count_where.
  change (pixels (putpixel img x y v)) with (pixels img).
  apply filter_length_strict with (a := (x, y)).
  - apply in_coords. exact Hin.
  - exact HP.
  - simpl. now rewrite !Z.eqb_refl.
  - intros [bx by_] _. simpl.
    destruct ((bx =? x) && (by_ =? y)) eqn:E; [congruence | auto].
Qed.

Lemma count_where_le_pixels (P : Z -> bool) (img : Image) :
  (count_where P img <= List.length (pixels img))%nat.
Proof. unfold count_where. apply List.filter_length_le. Qed.

Section FloodTotal.

Variables background value : Z.
Hypothesis fresh : value <> background.

Lemma visit_measure (st : ImageDraw.sweep) (q : Z * Z) :
  let st' := ImageDraw.visit background value st q in
  (ImageDraw.unpainted background (ImageDraw.buf st') + List.length (ImageDraw.new_edge st')
   <= ImageDraw.unpainted background (ImageDraw.buf st) + List.length (ImageDraw.new_edge st))%nat.
Proof.
  destruct q as [s t]. unfold ImageDraw.visit.
  destruct (mem s t (ImageDraw.full_edge st) || (s <? 0) || (t <? 0)); [simpl; lia |].
  destruct (insideb (ImageDraw.buf st) s t) eqn:Hin; simpl; [| lia].
  destruct (ImageDraw.is_background background (getpixel (ImageDraw.buf st) s t)) eqn:Hbg;
    simpl; [| lia].
  assert (ImageDraw.unpainted background (putpixel (ImageDraw.buf st) s t value)
          < ImageDraw.unpainted background (ImageDraw.buf st))%nat; [| lia].
  unfold ImageDraw.unpainted. apply count_where_putpixel.
  - now apply insideb_iff.
  - exact Hbg.
  - unfold ImageDraw.is_background. apply Z.leb_gt. lia.
Qed.

Lemma fold_visit_measure (qs : list (Z * Z)) (st : ImageDraw.sweep) :
  let st' := fold_left (ImageDraw.visit background value) qs st in
  (ImageDraw.unpainted background (ImageDraw.buf st') + List.length (ImageDraw.new_edge st')
   <= ImageDraw.unpainted background (ImageDraw.buf st) + List.length (ImageDraw.new_edge st))%nat.
Proof.
  revert st. induction qs as [|q qs IH]; intros st; simpl; [lia |].
  specialize (IH (ImageDraw.visit background value st q)). simpl in IH.
  pose proof (visit_measure st q) as H. simpl in H. lia.
Qed.

Lemma visit_around_measure (st : ImageDraw.sweep) (p : Z * Z) :
  let st' := ImageDraw.visit_around background value st p in
  (ImageDraw.unpainted background (ImageDraw.buf st') + List.length (ImageDraw.new_edge st')
   <= ImageDraw.unpainted background (ImageDraw.buf st) + List.length (ImageDraw.new_edge st))%nat.
Proof.
  destruct p as [x y]. unfold ImageDraw.visit_around. apply fold_visit_measure.
Qed.

Lemma fold_around_measure (edge : list (Z * Z)) (st : ImageDraw.sweep) :
  let st' := fold_left (ImageDraw.visit_around background value) edge st in
  (ImageDraw.unpainted background (ImageDraw.buf st') + List.length (ImageDraw.new_edge st')
   <= ImageDraw.unpainted background (ImageDraw.buf st) + List.length (ImageDraw.new_edge st))%nat.
Proof.
  revert st. induction edge as [|p edge IH]; intros st; [simpl; lia |].
  cbn [fold_left].
  specialize (IH (ImageDraw.visit_around background value st p)). cbv zeta in IH |- *.
  pose proof (visit_around_measure st p) as H. cbv zeta in H. lia.
Qed.

(** The sweeps end within the given fuel. *)
Lemma sweeps_total (fuel : nat) (img : Image) (edge full : list (Z * Z)) :
  (ImageDraw.unpainted background img < fuel)%nat ->
  exists painted, ImageDraw.sweeps fuel background value img edge full = Some painted.
Proof.
  revert img edge full. induction fuel as [|fuel IH]; intros img edge full Hlt; [lia |].
  destruct edge as [|e edge]; [simpl; eauto |].
  cbn [ImageDraw.sweeps].
  pose proof (fold_around_measure (e :: edge) (ImageDraw.mkSweep img [] full)) as H.
  cbv zeta in H. cbn [ImageDraw.buf ImageDraw.new_edge List.length] in H.
  set (st := fold_left (ImageDraw.visit_around background value) (e :: edge)
                       (ImageDraw.mkSweep img [] full)) in *.
  destruct (ImageDraw.new_edge st) as [|n ns] eqn:En.
  - destruct fuel; simpl; eauto.
  - apply IH. simpl in H. lia.
Qed.

End FloodTotal.

(** [ImageDraw.floodfill] always comes back from its loop. *)
Lemma floodfill_total (img : Image) (x y value : Z) :
  insideb img x y = true -> value <> getpixel img x y ->
  exists painted,
    ImageDraw.sweeps (S (List.length (pixels img))) (getpixel img x y) value
                     (putpixel img x y value) [(x, y)] [] = Some painted
    /\ ImageDraw.floodfill img x y value = painted.
Proof.
  intros Hin Hne.
  destruct (sweeps_total (getpixel img x y) value Hne (S (List.length (pixels img)))
                         (putpixel img x y value) [(x, y)] []) as [painted Hp].
  - pose proof (count_where_le_pixels
                  (ImageDraw.is_background (getpixel img x y)) (putpixel img x y value)) as H.
    change (pixels (putpixel img x y value)) with (pixels img) in H.
    unfold ImageDraw.unpainted. lia.
  - exists painted. split; [exact Hp |].
    unfold ImageDraw.floodfill. rewrite Hin. cbn [negb].
    unfold ImageDraw.is_background at 1.
    destruct (Z.leb_spec (Z.abs (value - getpixel img x y)) 0); [lia |].
    now rewrite Hp.
Qed.

Section BfsTotal.

Variable blocked : Image.

Lemma enqueue_measure (st : Bfs.state) (p : Z * Z) :
  Bfs.same_canvas blocked st ->
  Bfs.same_canvas blocked (Bfs.enqueue blocked st p)
  /\ (Bfs.pending (Bfs.enqueue blocked st p) <= Bfs.pending st)%nat.
Proof.
  intros [Hw Hh]. destruct p as [x y]. unfold Bfs.enqueue.
  destruct (insideb blocked x y) eqn:Hin; cbn [andb]; [| split; [split; assumption | lia]].
  destruct (getpixel blocked x y =? 0); cbn [andb]; [| split; [split; assumption | lia]].
  destruct (getpixel (Bfs.outside st) x y =? 0) eqn:Hout; [| split; [split; assumption | lia]].
  split; [split; assumption |].
  unfold Bfs.pending. cbn [Bfs.queue Bfs.outside]. rewrite length_app. cbn [List.length].
  assert (count_where Bfs.unmarked (putpixel (Bfs.outside st) x y 255)
          < count_where Bfs.unmarked (Bfs.outside st))%nat; [| lia].
  apply count_where_putpixel.
  - apply insideb_iff in Hin. unfold inside in *. now rewrite Hw, Hh.
  - exact Hout.
  - reflexivity.
Qed.

Lemma fold_enqueue_measure {A} (f : A -> list (Z * Z)) (l : list A) (st : Bfs.state) :
  Bfs.same_canvas blocked st ->
  let st' := fold_left (fun st a => fold_left (Bfs.enqueue blocked) (f a) st) l st in
  Bfs.same_canvas blocked st' /\ (Bfs.pending st' <= Bfs.pending st)%nat.
Proof.
  assert (forall ps st, Bfs.same_canvas blocked st ->
            Bfs.same_canvas blocked (fold_left (Bfs.enqueue blocked) ps st)
            /\ (Bfs.pending (fold_left (Bfs.enqueue blocked) ps st) <= Bfs.pending st)%nat) as Hps.
  { induction ps as [|p ps IH]; intros s Hs; cbn [fold_left]; [split; [exact Hs | lia] |].
    destruct (enqueue_measure s p Hs) as [Hc Hle].
    destruct (IH _ Hc) as [Hc' Hle']. split; [exact Hc' | lia]. }
  revert st. induction l as [|a l IH]; intros st Hs; cbn [fold_left]; [split; [exact Hs | lia] |].
  destruct (Hps (f a) st Hs) as [Hc Hle].
  destruct (IH _ Hc) as [Hc' Hle']. cbv zeta in *. split; [exact Hc' | lia].
Qed.

Lemma seed_measure (st : Bfs.state) :
  Bfs.same_canvas blocked st ->
  Bfs.same_canvas blocked (Bfs.seed blocked st)
  /\ (Bfs.pending (Bfs.seed blocked st) <= Bfs.pending st)%nat.
Proof.
  intros Hs. unfold Bfs.seed.
  pose proof (fold_enqueue_measure
                (fun x => [(x, 0); (x, height blocked - 1)]) (zrange (width blocked)) st Hs)
    as [Hc1 Hle1].
  cbn [fold_left] in Hc1, Hle1.
  pose proof (fold_enqueue_measure
                (fun y => [(0, y); (width blocked - 1, y)]) (zrange (height blocked)) _ Hc1)
    as [Hc2 Hle2].
  cbn [fold_left] in Hc2, Hle2.
  split; [exact Hc2 | lia].
Qed.

(** The queue drains within the given fuel. *)
Lemma drain_total (fuel : nat) (st : Bfs.state) :
  Bfs.same_canvas blocked st -> (Bfs.pending st < fuel)%nat ->
  exists out, Bfs.drain fuel blocked st = Some out.
Proof.
  revert st. induction fuel as [|fuel IH]; intros st Hs Hlt; [lia |].
  destruct st as [out q]. destruct q as [|[x y] rest]; [simpl; eauto |].
  cbn [Bfs.drain Bfs.queue Bfs.outside].
  pose proof (fold_enqueue_measure
                (fun d : Z * Z => [(x + fst d, y + snd d)]) Bfs.neighbours
                (Bfs.mkState out rest) Hs) as [Hc Hle].
  cbn [fold_left] in Hc, Hle.
  apply IH; [exact Hc |].
  unfold Bfs.pending in Hlt, Hle. cbn [Bfs.queue Bfs.outside List.length] in Hlt, Hle.
  unfold Bfs.pending. lia.
Qed.

End BfsTotal.

(** The fallback always comes back from its loop. *)
Lemma fill_python_total (blocked : Image) :
  exists out,
    Bfs.drain (S (List.length (Bfs.queue (Bfs.seed blocked
                   (Bfs.mkState (Image_new Mode1 (width blocked) (height blocked) 0) [])))
                  + List.length (pixels blocked)))
              blocked
              (Bfs.seed blocked (Bfs.mkState (Image_new Mode1 (width blocked) (height blocked) 0) []))
    = Some out.
Proof.
  set (st0 := Bfs.mkState (Image_new Mode1 (width blocked) (height blocked) 0) []).
  assert (Bfs.same_canvas blocked st0) as H0 by (split; reflexivity).
  destruct (seed_measure blocked st0 H0) as [[Hw Hh] _].
  apply drain_total; [split; assumption |].
  unfold Bfs.pending.
  pose proof (count_where_le_pixels Bfs.unmarked (Bfs.outside (Bfs.seed blocked st0))) as H.
  unfold pixels in *. rewrite Hw, Hh in H. lia.
Qed.

(** ** Pixel facts about the Pillow operations *)

Lemma getpixel_new_outside w h m f x y :
  ~ (0 <= x < w /\ 0 <= y < h) -> getpixel (new_image w h m f) x y = 0.
Proof.
  intros Hout. unfold new_image. cbn [getpixel]. unfold lookup, tabulate.
  destruct (Z.leb_spec 0 x); cbn [andb]; [| reflexivity].
  destruct (Z.leb_spec 0 y); [| reflexivity].
  destruct (Z_lt_ge_dec y h) as [Hy|Hy].
  - rewrite nth_map_zrange by lia.
    apply nth_overflow. rewrite length_map, length_zrange. lia.
  - rewrite (nth_overflow _ []) by (rewrite length_map, length_zrange; lia).
    now destruct (Z.to_nat x).
Qed.

Lemma inside_dec img x y : {inside img x y} + {~ inside img x y}.
Proof.
  unfold inside.
  destruct (Z_le_dec 0 x), (Z_lt_dec x (width img)),
           (Z_le_dec 0 y), (Z_lt_dec y (height img)); (left; lia) || (right; lia).
Qed.

Lemma fg_new_inside w h m f x y : fg (new_image w h m f) x y = true -> 0 <= x < w /\ 0 <= y < h.
Proof.
  intros H. destruct (inside_dec (new_image w h m f) x y) as [Hin|Hout]; [exact Hin |].
  unfold fg in H. rewrite getpixel_new_outside in H by exact Hout. discriminate.
Qed.

Lemma inside_chop f a b x y :
  inside (ImageChops.chop f a b) x y <-> inside a x y /\ inside b x y.
Proof. unfold inside, ImageChops.chop. cbn [width height new_image]. lia. Qed.

Lemma fg_logical_and a b x y :
  inside (ImageChops.logical_and a b) x y ->
  fg (ImageChops.logical_and a b) x y = fg a x y && fg b x y.
Proof.
  intros Hin. unfold fg at 1, ImageChops.logical_and, ImageChops.chop.
  rewrite getpixel_new by apply Hin. unfold fg.
  now destruct (negb (getpixel a x y =? 0) && negb (getpixel b x y =? 0)).
Qed.

Lemma fg_logical_or a b x y :
  inside (ImageChops.logical_or a b) x y ->
  fg (ImageChops.logical_or a b) x y = fg a x y || fg b x y.
Proof.
  intros Hin. unfold fg at 1, ImageChops.logical_or, ImageChops.chop.
  rewrite getpixel_new by apply Hin. unfold fg.
  now destruct (negb (getpixel a x y =? 0) || negb (getpixel b x y =? 0)).
Qed.

Lemma fg_logical_and_true a b x y :
  fg (ImageChops.logical_and a b) x y = true ->
  inside (ImageChops.logical_and a b) x y /\ fg a x y = true /\ fg b x y = true.
Proof.
  intros H.
  assert (inside (ImageChops.logical_and a b) x y) as Hin by (apply fg_new_inside in H; exact H).
  split; [exact Hin |]. rewrite fg_logical_and in H by exact Hin.
  now apply andb_true_iff.
Qed.

Lemma logical_and_binary a b x y :
  getpixel (ImageChops.logical_and a b) x y = 255
  \/ getpixel (ImageChops.logical_and a b) x y = 0.
Proof.
  destruct (inside_dec (ImageChops.logical_and a b) x y) as [Hin|Hout].
  - unfold ImageChops.logical_and, ImageChops.chop. rewrite getpixel_new by apply Hin.
    destruct (negb (getpixel a x y =? 0) && negb (getpixel b x y =? 0)); auto.
  - right. apply getpixel_new_outside. exact Hout.
Qed.

Lemma point_ge128_binary img x y :
  getpixel (point ge128 Mode1 img) x y = 255 \/ getpixel (point ge128 Mode1 img) x y = 0.
Proof.
  destruct (inside_dec img x y) as [Hin|Hout].
  - unfold point. rewrite getpixel_new by apply Hin.
    unfold ge128. destruct (128 <=? getpixel img x y); auto.
  - right. apply getpixel_new_outside. exact Hout.
Qed.

(** Inverting a 0/255 mask swaps foreground and background. *)
Lemma fg_invert_binary img x y :
  inside img x y ->
  getpixel img x y = 255 \/ getpixel img x y = 0 ->
  fg (ImageChops.invert img) x y = negb (fg img x y).
Proof.
  intros Hin Hb. unfold fg, ImageChops.invert. rewrite getpixel_new by apply Hin.
  destruct Hb as [-> | ->]; reflexivity.
Qed.

Lemma fg_invert_true img x y :
  fg (ImageChops.invert img) x y = true -> inside img x y.
Proof. intros H. apply fg_new_inside in H. exact H. Qed.

(** ** Sizes

    Every operation of the pipeline keeps the size of the canvas, as
    long as the Pillow filters that are left abstract do. *)

Lemma same_size_refl (a : Image) : same_size a a.
Proof. split; reflexivity. Qed.

Lemma same_size_trans (a b c : Image) : same_size a b -> same_size b c -> same_size a c.
Proof. unfold same_size. intros [? ?] [? ?]. split; congruence. Qed.

Lemma size_point f m img : same_size (point f m img) img.
Proof. split; reflexivity. Qed.

Lemma size_convert_L img : same_size (convert_L img) img.
Proof. split; [apply width_convert_L | apply height_convert_L]. Qed.

Lemma size_MaxFilter k img : same_size (MaxFilter k img) img.
Proof. split; reflexivity. Qed.

Lemma size_MinFilter k img : same_size (MinFilter k img) img.
Proof. split; reflexivity. Qed.

Lemma size_invert img : same_size (ImageChops.invert img) img.
Proof. split; reflexivity. Qed.

Lemma size_putpixel img x y v : same_size (putpixel img x y v) img.
Proof. split; reflexivity. Qed.

Lemma size_chop f a b g :
  same_size a g -> same_size b g -> same_size (ImageChops.chop f a b) g.
Proof.
  unfold same_size, ImageChops.chop. cbn [width height new_image].
  intros [-> ->] [-> ->]. lia.
Qed.

Lemma size_closing m r : same_size (_apply_closing m r) m.
Proof. exact (closing_size m r). Qed.

Lemma size_visit background value st q :
  same_size (ImageDraw.buf (ImageDraw.visit background value st q)) (ImageDraw.buf st).
Proof.
  destruct q as [s t]. unfold ImageDraw.visit.
  destruct (mem s t (ImageDraw.full_edge st) || (s <? 0) || (t <? 0));
    [apply same_size_refl |].
  destruct (negb (insideb (ImageDraw.buf st) s t)); [apply same_size_refl |].
  destruct (ImageDraw.is_background background (getpixel (ImageDraw.buf st) s t));
    cbn [ImageDraw.buf]; [apply size_putpixel | apply same_size_refl].
Qed.

Lemma size_fold_left {A} (step : ImageDraw.sweep -> A -> ImageDraw.sweep) (l : list A)
      (st : ImageDraw.sweep) :
  (forall s a, same_size (ImageDraw.buf (step s a)) (ImageDraw.buf s)) ->
  same_size (ImageDraw.buf (fold_left step l st)) (ImageDraw.buf st).
Proof.
  intros Hstep. revert st. induction l as [|a l IH]; intros st; cbn [fold_left];
    [apply same_size_refl |].
  eapply same_size_trans; [apply IH | apply Hstep].
Qed.

Lemma size_visit_around background value st p :
  same_size (ImageDraw.buf (ImageDraw.visit_around background value st p)) (ImageDraw.buf st).
Proof.
  destruct p as [x y]. unfold ImageDraw.visit_around.
  apply size_fold_left. intros s a. apply size_visit.
Qed.

Lemma size_sweeps fuel background value img edge full out :
  ImageDraw.sweeps fuel background value img edge full = Some out -> same_size out img.
Proof.
  revert img edge full. induction fuel as [|fuel IH]; intros img edge full;
    destruct edge as [|e edge]; cbn [ImageDraw.sweeps]; try discriminate;
    try (intros E; inversion E; apply same_size_refl).
  intros E. apply IH in E. eapply same_size_trans; [exact E |].
  apply (size_fold_left (ImageDraw.visit_around background value) (e :: edge)
                        (ImageDraw.mkSweep img [] full)).
  intros s a. apply size_visit_around.
Qed.

Lemma size_floodfill img x y value : same_size (ImageDraw.floodfill img x y value) img.
Proof.
  unfold ImageDraw.floodfill.
  destruct (negb (insideb img x y)); [apply same_size_refl |].
  destruct (ImageDraw.is_background (getpixel img x y) value); [apply same_size_refl |].
  destruct (ImageDraw.sweeps _ _ _ _ _ _) as [painted|] eqn:E; [| apply same_size_refl].
  apply size_sweeps in E. eapply same_size_trans; [exact E | apply size_putpixel].
Qed.

Lemma size_drain fuel blocked st out :
  Bfs.same_canvas blocked st -> Bfs.drain fuel blocked st = Some out -> same_size out blocked.
Proof.
  revert st. induction fuel as [|fuel IH]; intros [o q] Hs;
    destruct q as [|[x y] rest]; cbn [Bfs.drain Bfs.queue Bfs.outside]; try discriminate;
    try (intros E; inversion E; subst; exact Hs).
  apply IH.
  pose proof (fold_enqueue_measure blocked
                (fun d : Z * Z => [(x + fst d, y + snd d)]) Bfs.neighbours
                (Bfs.mkState o rest) Hs) as [Hc _].
  exact Hc.
Qed.

Lemma size_fill_python blocked : same_size (_fill_closed_regions_python blocked) blocked.
Proof.
  unfold _fill_closed_regions_python.
  destruct ((width blocked =? 0) || (height blocked =? 0)); [split; reflexivity |].
  destruct (Bfs.drain _ _ _) as [out|] eqn:E; [| split; reflexivity].
  apply size_drain in E.
  - apply size_chop; [eapply same_size_trans; [apply size_invert | exact E] | apply size_invert].
  - apply seed_measure. split; reflexivity.
Qed.

Section PipelineSizes.

Variable dither : Image -> Image.
Variable GaussianBlur : float -> Image -> Image.
Variable BoxBlur : Z -> Image -> Image.
Variable FIND_EDGES : Image -> Image.
Variable floodfill_available : bool.

Hypothesis dither_size : forall img, same_size (dither img) img.
Hypothesis GaussianBlur_size : forall r img, same_size (GaussianBlur r img) img.
Hypothesis BoxBlur_size : forall r img, same_size (BoxBlur r img) img.
Hypothesis FIND_EDGES_size : forall img, same_size (FIND_EDGES img) img.

Lemma size_convert_1 img : same_size (convert_1 dither img) img.
Proof.
  unfold convert_1. destruct (mode img); [apply same_size_refl | apply dither_size].
Qed.

Lemma size_blocked_binary o r : same_size (blocked_binary dither o r) o.
Proof.
  unfold blocked_binary.
  eapply same_size_trans; [apply size_point |].
  assert (same_size (match mode o with Mode1 => o | ModeL => convert_1 dither o end) o) as Ho
      by (destruct (mode o); [apply same_size_refl | apply size_convert_1]).
  destruct (0 <? r).
  - eapply same_size_trans; [apply size_MaxFilter |].
    eapply same_size_trans; [apply size_convert_L | exact Ho].
  - eapply same_size_trans; [apply size_convert_L | exact Ho].
Qed.

Lemma size_fill_closed_regions o r :
  same_size (fill_closed_regions dither floodfill_available o r) o.
Proof.
  unfold fill_closed_regions.
  pose proof (size_blocked_binary o r) as Hb.
  destruct ((width (blocked_binary dither o r) =? 0) || (height (blocked_binary dither o r) =? 0)).
  - eapply same_size_trans; [| exact Hb]. split; reflexivity.
  - destruct floodfill_available.
    + apply size_chop.
      * eapply same_size_trans; [apply size_invert |].
        eapply same_size_trans; [apply size_point |].
        eapply same_size_trans; [apply size_floodfill |].
        eapply same_size_trans; [apply size_convert_L | exact Hb].
      * eapply same_size_trans; [apply size_invert | exact Hb].
    + eapply same_size_trans; [apply size_fill_python | exact Hb].
Qed.

Lemma size_extract_outline m r : same_size (extract_outline dither m r) m.
Proof.
  unfold extract_outline, eroded_bin. apply size_chop; [apply size_convert_1 |].
  eapply same_size_trans; [apply size_invert |].
  eapply same_size_trans; [apply size_point |].
  eapply same_size_trans; [apply size_MinFilter |].
  eapply same_size_trans; [apply size_convert_L | apply size_convert_1].
Qed.

Lemma size_smooth_binary_edges m r : same_size (smooth_binary_edges dither GaussianBlur m r) m.
Proof.
  unfold smooth_binary_edges. destruct (PrimFloat.leb r 0); [apply size_convert_1 |].
  eapply same_size_trans; [apply size_point |].
  eapply same_size_trans; [apply GaussianBlur_size | apply size_convert_L].
Qed.

Lemma size_connect_detail_gaps m j s :
  same_size (connect_detail_gaps dither GaussianBlur m j s) m.
Proof.
  unfold connect_detail_gaps.
  assert (same_size (if 0 <? j
                     then ImageChops.logical_or (convert_1 dither m)
                                                (_apply_closing (convert_1 dither m) j)
                     else convert_1 dither m) m) as Hj.
  { destruct (0 <? j); [| apply size_convert_1].
    apply size_chop; [apply size_convert_1 |].
    eapply same_size_trans; [apply size_closing | apply size_convert_1]. }
  destruct (PrimFloat.ltb 0 s); [| exact Hj].
  eapply same_size_trans; [apply size_smooth_binary_edges | exact Hj].
Qed.

Lemma size_detect_relative_dark_regions gray pc t_bg t_detail :
  same_size pc gray ->
  same_size (detect_relative_dark_regions dither BoxBlur FIND_EDGES floodfill_available
                                          gray pc t_bg t_detail) gray.
Proof.
  intros Hpc. unfold detect_relative_dark_regions.
  set (pc1 := match mode pc with Mode1 => pc | ModeL => convert_1 dither pc end).
  assert (same_size pc1 gray) as Hpc1.
  { unfold pc1. destruct (mode pc); [exact Hpc |].
    eapply same_size_trans; [apply size_convert_1 | exact Hpc]. }
  destruct (getbbox_is_None pc1); [split; reflexivity |].
  eapply same_size_trans; [apply size_closing |].
  assert (forall f, same_size (point f Mode1 gray) gray) as Hpt by (intros; apply size_point).
  set (rel := ImageChops.logical_and (ImageChops.logical_and _ _) pc1).
  assert (same_size rel gray) as Hrel.
  { unfold rel. apply size_chop; [| exact Hpc1]. apply size_chop; [| apply Hpt].
    eapply same_size_trans; [apply size_point |].
    apply size_chop; [apply BoxBlur_size | apply size_MinFilter]. }
  set (edge_mask := ImageChops.logical_and _ pc1).
  assert (same_size edge_mask gray) as Hedge.
  { unfold edge_mask. apply size_chop; [| exact Hpc1].
    eapply same_size_trans; [apply size_point | apply FIND_EDGES_size]. }
  destruct (negb (getbbox_is_None edge_mask)); [| exact Hrel].
  apply size_chop; [exact Hrel |].
  eapply same_size_trans; [apply size_fill_closed_regions |].
  eapply same_size_trans; [apply size_closing | exact Hedge].
Qed.

(** The four masks of the bundle are co-registered with the input. *)
Lemma bundle_sizes (gray : Image) (params : BWParams) :
  let r := build_masks_from_gray dither GaussianBlur BoxBlur FIND_EDGES
                                 floodfill_available gray params in
  same_size (paper r) gray /\ same_size (filled r) gray
  /\ same_size (holes r) gray /\ same_size (outline r) gray.
Proof.
  intros r. unfold r, build_masks_from_gray. cbn [paper filled holes outline].
  set (raw := outline_raw gray params).
  assert (same_size raw gray) as Hraw by apply size_point.
  set (closed := _apply_closing raw (dilate_px params)).
  assert (same_size closed gray) as Hclosed
      by (eapply same_size_trans; [apply size_closing | exact Hraw]).
  set (fill := fill_closed_regions dither floodfill_available closed _).
  assert (same_size fill gray) as Hfill
      by (eapply same_size_trans; [apply size_fill_closed_regions | exact Hclosed]).
  set (t_bg := Z.max 0 (Z.min 255 (threshold_bg params))).
  set (t_detail := Z.max 0 (Z.min t_bg (threshold_detail params))).
  set (rel := detect_relative_dark_regions dither BoxBlur FIND_EDGES floodfill_available
                                           gray fill t_bg t_detail).
  assert (same_size rel gray) as Hrel by (apply size_detect_relative_dark_regions; exact Hfill).
  set (seed0 := ImageChops.logical_and (point _ Mode1 gray) fill).
  assert (same_size seed0 gray) as Hseed0
      by (apply size_chop; [apply size_point | exact Hfill]).
  set (seed := if negb (getbbox_is_None rel) then ImageChops.logical_or seed0 rel else seed0).
  assert (same_size seed gray) as Hseed
      by (unfold seed; destruct (negb (getbbox_is_None rel));
          [apply size_chop; assumption | exact Hseed0]).
  set (refined := _apply_closing seed _).
  assert (same_size refined gray) as Hrefined
      by (eapply same_size_trans; [apply size_closing | exact Hseed]).
  set (bridge := Z.max (dilate_px params) (detail_join_px params)).
  set (detail_filled := fill_closed_regions dither floodfill_available _ bridge).
  assert (same_size detail_filled gray) as Hdetail.
  { eapply same_size_trans; [apply size_fill_closed_regions |].
    eapply same_size_trans; [apply size_closing |].
    eapply same_size_trans; [apply size_extract_outline | exact Hrefined]. }
  set (joined := connect_detail_gaps dither GaussianBlur _ _ _).
  assert (same_size joined gray) as Hjoined.
  { eapply same_size_trans; [apply size_connect_detail_gaps |].
    apply size_chop; assumption. }
  assert (same_size (ImageChops.logical_and joined fill) gray) as Hholes
      by (apply size_chop; assumption).
  repeat split; try apply Hfill; try apply Hholes.
  - apply size_chop; [exact Hfill | eapply same_size_trans; [apply size_invert | exact Hholes]].
  - apply size_chop; [exact Hfill | eapply same_size_trans; [apply size_invert | exact Hholes]].
  - apply (size_chop _ raw closed gray Hraw Hclosed).
  - apply (size_chop _ raw closed gray Hraw Hclosed).
Qed.

End PipelineSizes.

(** With filters that keep the size, the invariant of the bundle holds
    at every pixel of the input canvas. *)
Lemma bundle_invariant_on_canvas
      (dither : Image -> Image) (GaussianBlur : float -> Image -> Image)
      (BoxBlur : Z -> Image -> Image) (FIND_EDGES : Image -> Image)
      (floodfill_available : bool) (gray : Image) (params : BWParams) (x y : Z) :
  (forall img, same_size (dither img) img) ->
  (forall r img, same_size (GaussianBlur r img) img) ->
  (forall r img, same_size (BoxBlur r img) img) ->
  (forall img, same_size (FIND_EDGES img) img) ->
  inside gray x y ->
  let r := build_masks_from_gray dither GaussianBlur BoxBlur FIND_EDGES
                                 floodfill_available gray params in
  fg (paper r) x y = fg (filled r) x y && negb (fg (holes r) x y)
  /\ implb (fg (holes r) x y) (fg (filled r) x y) = true.
Proof.
  intros Hd Hg Hb He Hin r.
  destruct (bundle_sizes dither GaussianBlur BoxBlur FIND_EDGES floodfill_available
                         Hd Hg Hb He gray params) as [[Hw Hh] _].
  fold r in Hw, Hh.
  assert (inside (paper r) x y) as Hp by (unfold inside in *; now rewrite Hw, Hh).
  unfold r, build_masks_from_gray in *. cbn [paper filled holes] in *.
  split.
  - rewrite fg_logical_and by exact Hp.
    apply inside_chop in Hp. destruct Hp as [_ Hp].
    rewrite fg_invert_binary; [reflexivity | exact Hp | apply logical_and_binary].
  - match goal with
    | |- implb (fg ?h x y) _ = true => destruct (fg h x y) eqn:E; [| reflexivity]
    end.
    apply fg_logical_and_true in E. cbn [implb]. tauto.
Qed.

(** ** Outline containment *)

(** C10: every foreground pixel of the outline returned by
    [extract_outline] is a foreground pixel of the binarised input and
    is not a foreground pixel of the eroded mask, for every mask and
    every radius. *)
Theorem outline_within_mask (dither : Image -> Image) (mask : Image) (radius x y : Z) :
  fg (extract_outline dither mask radius) x y = true ->
  fg (convert_1 dither mask) x y = true /\ fg (eroded_bin dither mask radius) x y = false.
Proof.
  unfold extract_outline. intros H.
  apply fg_logical_and_true in H. destruct H as [_ [Hm He]].
  split; [exact Hm |].
  pose proof (fg_invert_true _ _ _ He) as Hin.
  rewrite fg_invert_binary in He; [| exact Hin | apply point_ge128_binary].
  now apply negb_true_iff.
Qed.

(** A radius below 1 is taken as 1. *)
Lemma outline_radius_coerced (dither : Image -> Image) (mask : Image) (radius : Z) :
  radius < 1 -> extract_outline dither mask radius = extract_outline dither mask 1.
Proof.
  intros H. unfold extract_outline, eroded_bin.
  destruct (Z.ltb_spec radius 1); [reflexivity | lia].
Qed.

Example outline_dot5 :
  to_rows (extract_outline (fun i => i) dot5 0)
  = [[0; 0; 0; 0; 0];
     [0; 255; 255; 255; 0];
     [0; 255; 0; 255; 0];
     [0; 255; 255; 255; 0];
     [0; 0; 0; 0; 0]].
Proof. vm_compute. reflexivity. Qed.

Lemma outline_within_mask_witness :
  fg (convert_1 (fun i => i) dot5) 1 1 = true
  /\ fg (eroded_bin (fun i => i) dot5 0) 1 1 = false.
Proof.
  apply (outline_within_mask (fun i => i) dot5 0 1 1). vm_compute. reflexivity.
Defined.

(** ** The mask bundle *)

(** C3: in the bundle returned by [build_masks_from_gray], a pixel is
    paper exactly when it is filled and not a hole, and every hole pixel
    is a filled pixel. *)
Theorem mask_bundle_invariant
        (dither : Image -> Image) (GaussianBlur : float -> Image -> Image)
        (BoxBlur : Z -> Image -> Image) (FIND_EDGES : Image -> Image)
        (floodfill_available : bool) (gray : Image) (params : BWParams) :
  let r := build_masks_from_gray dither GaussianBlur BoxBlur FIND_EDGES
                                 floodfill_available gray params in
  (forall x y, inside (paper r) x y ->
               fg (paper r) x y = fg (filled r) x y && negb (fg (holes r) x y))
  /\ (forall x y, fg (holes r) x y = true -> fg (filled r) x y = true).
Proof.
  intros r. unfold r, build_masks_from_gray. cbn [paper filled holes].
  split.
  - intros x y Hin. rewrite fg_logical_and by exact Hin.
    apply inside_chop in Hin. destruct Hin as [_ Hin].
    rewrite fg_invert_binary; [reflexivity | exact Hin | apply logical_and_binary].
  - intros x y H. apply fg_logical_and_true in H. tauto.
Qed.

Example bundle_ring5 :
  let r := build_masks_from_gray (fun i => i) (fun _ i => i) (fun _ i => i) (fun i => i)
                                 true gray_ring5 params0 in
  to_rows (filled r) = [[0; 0; 0; 0; 0]; [0; 0; 0; 0; 0]; [0; 0; 255; 0; 0];
                        [0; 0; 0; 0; 0]; [0; 0; 0; 0; 0]]
  /\ to_rows (paper r) = to_rows (filled r)
  /\ count_fg (holes r) = 0%nat.
Proof. vm_compute. repeat split; reflexivity. Qed.

Lemma mask_bundle_invariant_witness :
  let r := build_masks_from_gray (fun i => i) white_blur (fun _ i => i) (fun i => i)
                                 true gray_ring5 params0 in
  fg (paper r) 2 2 = fg (filled r) 2 2 && negb (fg (holes r) 2 2)
  /\ fg (filled r) 2 2 = true.
Proof.
  intros r.
  destruct (mask_bundle_invariant (fun i => i) white_blur (fun _ i => i) (fun i => i)
                                  true gray_ring5 params0) as [Hp Hh].
  split.
  - apply Hp. apply insideb_iff. vm_compute. reflexivity.
  - apply Hh. vm_compute. reflexivity.
Defined.

(** ** Threshold monotonicity *)

Lemma count_fg_mono (a b : Image) :
  width a = width b -> height a = height b ->
  (forall x y, inside a x y -> fg a x y = true -> fg b x y = true) ->
  (count_fg a <= count_fg b)%nat.
Proof.
  intros Hw Hh H. unfold count_fg, pixels. rewrite <- Hw, <- Hh.
  apply filter_length_mono. intros [x y] Hin. apply in_coords in Hin. now apply H.
Qed.

Lemma solid_mode1 (img : Image) (x y : Z) :
  mode img = Mode1 -> inside img x y -> (solid img x y <-> fg img x y = true).
Proof.
  intros Hm Hin. unfold solid, convert_L, fg. rewrite Hm.
  rewrite getpixel_new by apply Hin.
  destruct (getpixel img x y =? 0); simpl; split; intros; try lia; try discriminate; reflexivity.
Qed.

(** Closing is increasing: a larger mask has a larger closing. *)
Lemma closing_mono (a b : Image) (r : Z) :
  mode a = Mode1 -> mode b = Mode1 ->
  width a = width b -> height a = height b ->
  (forall x y, inside a x y -> fg a x y = true -> fg b x y = true) ->
  forall x y, inside a x y ->
              fg (_apply_closing a r) x y = true -> fg (_apply_closing b r) x y = true.
Proof.
  intros Ha Hb Hw Hh Hab x y Hin.
  assert (inside b x y) as Hinb by (unfold inside in *; now rewrite <- Hw, <- Hh).
  destruct (Z_le_gt_dec r 0) as [Hr|Hr].
  - unfold _apply_closing. destruct (Z.leb_spec r 0); [| lia]. now apply Hab.
  - assert (1 <= r) as Hr1 by lia. intros Hfa.
    assert (getpixel (_apply_closing a r) x y = 255) as Ea.
    { destruct (closing_pixel a r x y Hr1 Hin) as [E|E]; [exact E |].
      unfold fg in Hfa. rewrite E in Hfa. discriminate. }
    apply closing_fg in Ea; try assumption.
    assert (getpixel (_apply_closing b r) x y = 255) as Eb.
    { apply closing_fg; try assumption. rewrite <- Hw, <- Hh.
      revert Ea. apply closeP_mono. intros qx qy Hqx Hqy HS.
      assert (inside a qx qy) as Hqa by (split; assumption).
      assert (inside b qx qy) as Hqb by (unfold inside in *; now rewrite <- Hw, <- Hh).
      apply solid_mode1; try assumption. apply Hab; [exact Hqa |].
      now apply solid_mode1 in HS. }
    unfold fg. now rewrite Eb.
Qed.

Lemma fg_outline_raw (gray : Image) (p : BWParams) (x y : Z) :
  inside gray x y ->
  fg (outline_raw gray p) x y = (getpixel gray x y <? Z.max 0 (Z.min 255 (threshold_bg p))).
Proof.
  intros Hin. unfold fg, outline_raw, point. rewrite getpixel_new by apply Hin.
  now destruct (getpixel gray x y <? Z.max 0 (Z.min 255 (threshold_bg p))).
Qed.

Lemma outline_raw_mono (gray : Image) (p : BWParams) (t1 t2 x y : Z) :
  t1 <= t2 -> inside gray x y ->
  fg (outline_raw gray (set_threshold_bg p t1)) x y = true ->
  fg (outline_raw gray (set_threshold_bg p t2)) x y = true.
Proof.
  intros Ht Hin. rewrite !fg_outline_raw by exact Hin. cbn [threshold_bg set_threshold_bg].
  rewrite !Z.ltb_lt. lia.
Qed.

(** For a fixed grayscale input and fixed remaining parameters,
    raising the background threshold never lowers the number of
    foreground pixels of the outline mask of the bundle (the pixels
    darker than the threshold, joined with their closing). *)
Theorem outline_count_monotone
        (dither : Image -> Image) (GaussianBlur : float -> Image -> Image)
        (BoxBlur : Z -> Image -> Image) (FIND_EDGES : Image -> Image)
        (floodfill_available : bool) (gray : Image) (p : BWParams) (t1 t2 : Z) :
  t1 <= t2 ->
  (count_fg (outline (build_masks_from_gray dither GaussianBlur BoxBlur FIND_EDGES
                        floodfill_available gray (set_threshold_bg p t1)))
   <= count_fg (outline (build_masks_from_gray dither GaussianBlur BoxBlur FIND_EDGES
                           floodfill_available gray (set_threshold_bg p t2))))%nat.
Proof.
  intros Ht. unfold build_masks_from_gray. cbn [outline dilate_px set_threshold_bg].
  set (raw1 := outline_raw gray (set_threshold_bg p t1)).
  set (raw2 := outline_raw gray (set_threshold_bg p t2)).
  destruct (closing_size raw1 (dilate_px p)) as [Hw1 Hh1].
  destruct (closing_size raw2 (dilate_px p)) as [Hw2 Hh2].
  apply count_fg_mono.
  - unfold ImageChops.logical_or, ImageChops.chop. cbn [width new_image].
    rewrite Hw1, Hw2. reflexivity.
  - unfold ImageChops.logical_or, ImageChops.chop. cbn [height new_image].
    rewrite Hh1, Hh2. reflexivity.
  - intros x y Hin Hfg.
    assert (inside raw1 x y /\ inside (_apply_closing raw1 (dilate_px p)) x y) as [Hr1 Hc1]
        by (apply inside_chop in Hin; exact Hin).
    assert (inside (ImageChops.logical_or raw2 (_apply_closing raw2 (dilate_px p))) x y) as Hin2.
    { apply inside_chop. unfold inside in *. rewrite Hw2, Hh2. split; exact Hr1. }
    rewrite fg_logical_or in Hfg by exact Hin.
    rewrite fg_logical_or by exact Hin2.
    apply orb_true_iff in Hfg. apply orb_true_iff.
    destruct Hfg as [Hraw|Hclosed].
    + left. exact (outline_raw_mono gray p t1 t2 x y Ht Hr1 Hraw).
    + right. revert Hclosed.
      apply closing_mono; try reflexivity; try exact Hr1.
      intros qx qy Hq. exact (outline_raw_mono gray p t1 t2 qx qy Ht Hq).
Qed.

Lemma outline_count_monotone_witness :
  (count_fg (outline (build_masks_from_gray (fun i => i) (fun _ i => i) (fun _ i => i)
                        (fun i => i) true gray_ring5 (set_threshold_bg params0 50)))
   <= count_fg (outline (build_masks_from_gray (fun i => i) (fun _ i => i) (fun _ i => i)
                           (fun i => i) true gray_ring5 (set_threshold_bg params0 150))))%nat.
Proof.
  apply (outline_count_monotone (fun i => i) (fun _ i => i) (fun _ i => i) (fun i => i)
                                true gray_ring5 params0 50 150).
  lia.
Defined.

(** Raising the threshold from 50 to 150 on [gray_ring5] turns the
    enclosed centre pixel into a wall: [filled] drops from one pixel to
    none. *)
Lemma filled_count_not_monotone : ~ filled_count_monotone.
Proof.
  intros H.
  specialize (H (fun i => i) (fun _ i => i) (fun _ i => i) (fun i => i) true
                gray_ring5 params0 50 150 ltac:(lia)).
  vm_compute in H. lia.
Qed.

(** ** The two fill paths *)

Example fill_circle7 :
  to_rows (fill_fast circle7 0)
  = [[0; 0; 0; 0; 0; 0; 0];
     [0; 0; 0; 0; 0; 0; 0];
     [0; 0; 255; 255; 255; 0; 0];
     [0; 0; 255; 255; 255; 0; 0];
     [0; 0; 255; 255; 255; 0; 0];
     [0; 0; 0; 0; 0; 0; 0];
     [0; 0; 0; 0; 0; 0; 0]].
Proof. vm_compute. reflexivity. Qed.

(** On the five outline shapes, drawn clear of the canvas border, both
    paths give the same pixels. *)
Example fill_paths_agree_on_shapes :
  forall shape, In shape [circle7; nested9; open_c7; fragments7; full5] ->
  to_rows (fill_fast shape 0) = to_rows (fill_fallback shape 0).
Proof.
  intros shape Hs. simpl in Hs.
  repeat match goal with
         | H : _ \/ _ |- _ => destruct H as [H | H]
         | H : False |- _ => destruct H
         end; subst; vm_compute; reflexivity.
Qed.

(** With the walls of [circle7] dilated by one pixel the free corners
    of the canvas are cut off from each other: the fast path, seeded at
    [(0, 0)] only, reports the three other corners as interior. *)
Example fill_circle7_dilated :
  to_rows (fill_fast circle7 1)
  = [[0; 0; 0; 0; 0; 0; 255];
     [0; 0; 0; 0; 0; 0; 0];
     [0; 0; 0; 0; 0; 0; 0];
     [0; 0; 0; 255; 0; 0; 0];
     [0; 0; 0; 0; 0; 0; 0];
     [0; 0; 0; 0; 0; 0; 0];
     [255; 0; 0; 0; 0; 0; 255]]
  /\ to_rows (fill_fallback circle7 1)
  = [[0; 0; 0; 0; 0; 0; 0];
     [0; 0; 0; 0; 0; 0; 0];
     [0; 0; 0; 0; 0; 0; 0];
     [0; 0; 0; 255; 0; 0; 0];
     [0; 0; 0; 0; 0; 0; 0];
     [0; 0; 0; 0; 0; 0; 0];
     [0; 0; 0; 0; 0; 0; 0]].
Proof. vm_compute. split; reflexivity. Qed.

(** C2: on [wall3] the flood fill seeded at [(0, 0)] never reaches the
    right-hand column, which the fast path therefore reports as
    interior, while the fallback, seeded along the whole border, reports
    no interior at all; on [corner2] the seed is itself a wall pixel and
    the fast path reports every free pixel as interior. *)
Theorem fill_paths_differ :
  to_rows (fill_fast wall3 0) = [[0; 0; 255]; [0; 0; 255]; [0; 0; 255]]
  /\ to_rows (fill_fallback wall3 0) = [[0; 0; 0]; [0; 0; 0]; [0; 0; 0]]
  /\ to_rows (fill_fast corner2 0) = [[0; 255]; [255; 255]]
  /\ to_rows (fill_fallback corner2 0) = [[0; 0]; [0; 0]]
  /\ ~ fill_paths_agree.
Proof.
  split; [vm_compute; reflexivity |].
  split; [vm_compute; reflexivity |].
  split; [vm_compute; reflexivity |].
  split; [vm_compute; reflexivity |].
  intros H. destruct (H (fun i => i) wall3 0) as [_ [_ Hpx]].
  specialize (Hpx 2 0 ltac:(apply insideb_iff; vm_compute; reflexivity)).
  vm_compute in Hpx. discriminate Hpx.
Qed.

(** ** The auto-flip decision *)

Example scenario_measures :
  _border_and_center_means (framed 220 40) border_fraction_default = Ok (220, 40)%float
  /\ _compute_mask_ratio (partly_white 85) = 0x1.b333333333333p-1%float
  /\ _compute_mask_ratio (partly_white 50) = 0.5%float.
Proof. vm_compute. repeat split; reflexivity. Qed.

(** C1, as amended: with invert mode "auto" the decision is keep when
    the paper ratio is at most 0.5; otherwise it is flip exactly when
    the interior mean exceeds the border mean by more than the
    tolerance, i.e. when [border_mean + tolerance < center_mean]. *)
Theorem should_flip_auto_decision (gray : Image) (masks : MaskResult) (tolerance : float) :
  (PrimFloat.leb (_compute_mask_ratio (paper masks)) 0.5 = true ->
   _should_flip_auto gray masks "auto" tolerance = Ok false)
  /\ (PrimFloat.leb (_compute_mask_ratio (paper masks)) 0.5 = false ->
      forall border_mean center_mean,
        _border_and_center_means gray border_fraction_default = Ok (border_mean, center_mean) ->
        _should_flip_auto gray masks "auto" tolerance
        = Ok (PrimFloat.ltb (border_mean + tolerance) center_mean)).
Proof.
  unfold _should_flip_auto. cbn [lower String.eqb].
  change (String.eqb (lower "auto") "flip") with false.
  change (String.eqb (lower "auto") "keep") with false.
  cbv iota. split.
  - intros ->. reflexivity.
  - intros -> b c ->. reflexivity.
Qed.

Lemma should_flip_auto_decision_witness :
  _should_flip_auto (framed 40 220) (bundle_of (partly_white 50)) "auto" 5 = Ok false
  /\ _should_flip_auto (framed 40 220) (bundle_of (partly_white 85)) "auto" 5
     = Ok (PrimFloat.ltb (40 + 5) 220).
Proof.
  split.
  - apply (proj1 (should_flip_auto_decision (framed 40 220) (bundle_of (partly_white 50)) 5)).
    vm_compute. reflexivity.
  - apply (proj2 (should_flip_auto_decision (framed 40 220) (bundle_of (partly_white 85)) 5)).
    + vm_compute. reflexivity.
    + vm_compute. reflexivity.
Defined.

(** Border mean 220, centre mean 40, paper ratio 0.85: the decision of
    the code is keep, and it is flip for the mirrored picture. *)
Lemma bright_border_is_kept :
  _should_flip_auto (framed 220 40) (bundle_of (partly_white 85)) "auto" 5 = Ok false
  /\ _should_flip_auto (framed 40 220) (bundle_of (partly_white 85)) "auto" 5 = Ok true
  /\ ~ flips_when_border_brighter.
Proof.
  split; [vm_compute; reflexivity |]. split; [vm_compute; reflexivity |].
  intros H.
  assert (PrimFloat.leb (_compute_mask_ratio (paper (bundle_of (partly_white 85)))) 0.5 = false)
    as Hratio by (vm_compute; reflexivity).
  assert (_border_and_center_means (framed 220 40) border_fraction_default
          = Ok (220%float, 40%float)) as Hmeans by (vm_compute; reflexivity).
  pose proof (H (framed 220 40) (bundle_of (partly_white 85)) 5%float _ _ Hratio Hmeans) as E.
  vm_compute in E. discriminate E.
Qed.

(** ** Scale-adaptive radii *)

Section ScaleRadiusFacts.

Variable pow : float -> float -> result float.

(** C8: [scale_radius] computes the specified formula: the rounded
    scaled power, clamped to the optional ceiling and then floored at
    1 when the base is positive, and 0 when the base is not positive. *)
Theorem scale_radius_formula (base : Z) (scaleFactor exponent : float) (ceiling : option Z) :
  scale_radius pow base scaleFactor exponent ceiling
  = ScaleRadius pow base scaleFactor exponent ceiling.
Proof.
  unfold scale_radius, ScaleRadius, rounded_power, clamped.
  destruct (Z.leb_spec base 0) as [Hb|Hb]; destruct (Z.ltb_spec 0 base) as [Hp|Hp];
    try lia; [reflexivity |].
  destruct (pow (Py.fmax scaleFactor 1) exponent) as [p|e]; [| reflexivity].
  cbn [bind].
  destruct (Py.round (Py.of_int base * p)) as [v|e]; reflexivity.
Qed.

Lemma scale_radius_nonpositive (base : Z) (s e : float) (c : option Z) :
  base <= 0 -> scale_radius pow base s e c = Ok 0.
Proof.
  intros H. unfold scale_radius. destruct (Z.leb_spec base 0); [reflexivity | lia].
Qed.

Lemma scale_radius_floor (base : Z) (s e : float) (c : option Z) (v : Z) :
  0 < base -> scale_radius pow base s e c = Ok v -> 1 <= v.
Proof.
  intros Hb. unfold scale_radius. destruct (Z.leb_spec base 0); [lia |].
  destruct (pow (Py.fmax s 1) e) as [p|x]; cbn [bind]; [| discriminate].
  destruct (Py.round (Py.of_int base * p)) as [r|x]; cbn [bind]; [| discriminate].
  intros E. inversion E. lia.
Qed.

Lemma scale_radius_ceiling (base : Z) (s e : float) (c v : Z) :
  scale_radius pow base s e (Some c) = Ok v -> v <= Z.max 1 c.
Proof.
  unfold scale_radius. destruct (Z.leb_spec base 0); [intros E; inversion E; lia |].
  destruct (pow (Py.fmax s 1) e) as [p|x]; cbn [bind]; [| discriminate].
  destruct (Py.round (Py.of_int base * p)) as [r|x]; cbn [bind]; [| discriminate].
  intros E. inversion E. lia.
Qed.

End ScaleRadiusFacts.

Example scale_radius_runs :
  scale_radius pow01 3 4 1 None = Ok 12
  /\ scale_radius pow01 3 4 1 (Some 5) = Ok 5
  /\ scale_radius pow01 3 0x1p-1 1 None = Ok 3
  /\ scale_radius pow01 3 4 1 (Some 0) = Ok 1
  /\ scale_radius pow01 0 4 1 None = Ok 0
  /\ scale_radius pow01 (-2) 4 1 (Some 5) = Ok 0.
Proof. vm_compute. repeat split; reflexivity. Qed.

(** ** Page geometry of [make_papercut_panel.py] *)

Module PanelFacts.

Import Panel.

(** A degenerate layout is reported by [tile_size_px], and so by
    [panel_size_px], which [build_white_on_gray_panel] asks for before
    it builds any mask. *)
Lemma tile_size_px_rejects_degenerate (l : PanelLayout) :
  degenerate l ->
  tile_size_px l = Raise (ValueError "Margins are too large for A4 at this DPI")
  /\ panel_size_px l = Raise (ValueError "Margins are too large for A4 at this DPI").
Proof.
  intros [pw [ph [m [Hp [Hm Hd]]]]].
  assert (tile_size_px l = Raise (ValueError "Margins are too large for A4 at this DPI")) as Ht.
  { unfold tile_size_px. rewrite Hp. cbn [bind]. rewrite Hm. cbn [bind].
    destruct (Z.leb_spec (pw - 2 * m) 0); [reflexivity |].
    destruct (Z.leb_spec (ph - 2 * m) 0); [reflexivity | lia]. }
  split; [exact Ht |]. unfold panel_size_px. now rewrite Ht.
Qed.

Example tile_size_wide_margins :
  tile_size_px wide_margins = Raise (ValueError "Margins are too large for A4 at this DPI")
  /\ tile_size_px (mkPanelLayout 300 3 4 10) = Ok (2244, 3272).
Proof. vm_compute. split; reflexivity. Qed.

End PanelFacts.

(** ** Tiling of the alternate pipeline *)

Module TileFacts.

Import Tile.

Example parse_grid_runs :
  _parse_grid "3x4" = Ok (3, 4) /\ _parse_grid "3 X 4" = Ok (3, 4)
  /\ _parse_grid "12" = Raise (ValueError "not enough values to unpack (expected 2, got 1)").
Proof. vm_compute. repeat split; reflexivity. Qed.

(** Whatever the margins, [to_tiles] raises nothing of its own: once
    the conversions and the grid are read, every tile is written with
    the computed view box, positive or not. *)
Lemma to_tiles_checks_nothing (cfg : config) (margins_px overlap_px cols rows a4_w a4_h : Z) :
  VytUnits.mm_to_px (margins_mm cfg) (dpi cfg) = Ok margins_px ->
  VytUnits.mm_to_px (overlap_mm cfg) (dpi cfg) = Ok overlap_px ->
  _parse_grid (grid cfg) = Ok (cols, rows) ->
  VytUnits.mm_to_px (fst A4_MM) (dpi cfg) = Ok a4_w ->
  VytUnits.mm_to_px (snd A4_MM) (dpi cfg) = Ok a4_h ->
  exists tiles,
    to_tiles cfg = Ok tiles
    /\ Forall (fun t => tile_w_vb t = a4_w - 2 * margins_px + 2 * overlap_px
                        /\ tile_h_vb t = a4_h - 2 * margins_px + 2 * overlap_px) tiles.
Proof.
  intros Hm Ho Hg Hw Hh. unfold to_tiles.
  rewrite Hm. cbn [bind]. rewrite Ho. cbn [bind]. rewrite Hg. cbn [bind].
  rewrite Hw. cbn [bind]. rewrite Hh. cbn [bind].
  eexists. split; [reflexivity |].
  apply Forall_forall. intros t Hin.
  apply in_flat_map in Hin. destruct Hin as [r [_ Hin]].
  apply in_map_iff in Hin. destruct Hin as [c [<- _]].
  split; reflexivity.
Qed.

(** C9: with margins of 150 mm at 300 dpi the inner tile is
    2480 - 2 * 1772 = -1064 pixels wide and 3508 - 2 * 1772 = -36
    pixels high, yet [to_tiles] raises nothing and writes all twelve
    tiles, each with that view box; the layout of
    [make_papercut_panel.py] rejects the same margins. *)
Theorem to_tiles_accepts_degenerate :
  (exists tiles,
      to_tiles wide_margins = Ok tiles
      /\ List.length tiles = 12%nat
      /\ Forall (fun t => tile_w_vb t = -1064 /\ tile_h_vb t = -36) tiles)
  /\ Panel.tile_size_px (Panel.mkPanelLayout 300 3 4 150)
     = Raise (ValueError "Margins are too large for A4 at this DPI").
Proof.
  split; [| vm_compute; reflexivity].
  eexists. split; [vm_compute; reflexivity |].
  split; [reflexivity |].
  repeat constructor.
Qed.

End TileFacts.

(** ** The bridge-width enforcer: [vyt/core/bridge.py] *)

(** [0 < max(1.0, x)] for every float [x], NaN included. *)
Lemma fmax_one_positive (x : float) : PrimFloat.ltb 0 (Py.fmax 1 x) = true.
Proof.
  unfold Py.fmax. destruct (PrimFloat.ltb 1 x) eqn:E; [| reflexivity].
  rewrite ltb_spec in *.
  change (Prim2SF 1) with (S754_finite false 4503599627370496 (-52)) in E.
  change (Prim2SF 0) with (S754_zero false).
  destruct (Prim2SF x) as [s|s| |s m e]; try destruct s; try discriminate E; reflexivity.
Qed.

Lemma fold_max_elem (l : list Z) (v : Z) : In v l -> v <= fold_right Z.max 0 l.
Proof.
  induction l as [|a l IH]; simpl; [intros [] |].
  intros [->|H]; [lia |]. specialize (IH H). lia.
Qed.

Lemma fold_max_bound (l : list Z) (b : Z) :
  0 <= b -> (forall v, In v l -> v <= b) -> fold_right Z.max 0 l <= b.
Proof.
  intros Hb. induction l as [|a l IH]; simpl; intros H; [lia |].
  assert (a <= b) by (apply H; auto).
  assert (fold_right Z.max 0 l <= b) by (apply IH; intros; apply H; auto). lia.
Qed.

Module BridgeFacts.

Import Bridge.

Section EnforceFacts.

(** What is assumed of OpenCV. *)
Variable distanceTransform : Image -> Z -> Z -> float.
Variable ellipse : Z -> Image.

Hypothesis distance_of_zero :
  forall binary x y,
    inside binary x y -> getpixel binary x y = 0 ->
    distanceTransform binary x y = 0%float.

Hypothesis ellipse_centre :
  forall k, 0 < k ->
            width (ellipse k) = k /\ height (ellipse k) = k
            /\ fg (ellipse k) (k / 2) (k / 2) = true.

Lemma binarize_bit (mask : Image) (x y : Z) :
  getpixel (binarize mask) x y = 0 \/ getpixel (binarize mask) x y = 1.
Proof.
  destruct (inside_dec mask x y) as [Hin|Hout].
  - unfold binarize, point. rewrite getpixel_new by apply Hin.
    destruct (127 <? getpixel mask x y); auto.
  - left. apply getpixel_new_outside. exact Hout.
Qed.

Lemma dilate_upper (src kernel : Image) (x y : Z) :
  (forall sx sy, getpixel src sx sy <= 1) -> getpixel (dilate src kernel) x y <= 1.
Proof.
  intros Hb. destruct (inside_dec src x y) as [Hin|Hout].
  - unfold dilate. rewrite getpixel_new by apply Hin.
    apply fold_max_bound; [lia |].
    intros v Hv. apply in_map_iff in Hv. destruct Hv as [c [<- _]].
    cbv zeta. destruct (fg kernel (fst c) (snd c) && insideb src _ _); [apply Hb | lia].
  - unfold dilate. rewrite getpixel_new_outside by exact Hout. lia.
Qed.

Lemma dilate_lower (src : Image) (k x y : Z) :
  0 < k -> inside src x y ->
  getpixel src x y <= getpixel (dilate src (ellipse k)) x y.
Proof.
  intros Hk Hin. destruct (ellipse_centre k Hk) as [Hw [Hh Hc]].
  unfold dilate. rewrite getpixel_new by apply Hin.
  apply fold_max_elem. apply in_map_iff. exists (k / 2, k / 2). split.
  - cbn [fst snd]. rewrite Hw, Hh, Hc.
    replace (x + k / 2 - k / 2) with x by lia.
    replace (y + k / 2 - k / 2) with y by lia.
    apply insideb_iff in Hin. now rewrite Hin.
  - unfold pixels. rewrite Hw, Hh. apply in_coords.
    assert (0 <= k / 2 < k) by (split; [apply Z.div_pos | apply Z.div_lt_upper_bound]; lia).
    lia.
Qed.

(** A background pixel is always counted as thin. *)
Lemma background_is_thin (mask : Image) (min_bridge_px x y : Z) :
  inside mask x y -> getpixel (binarize mask) x y = 0 ->
  getpixel (thin_regions distanceTransform (binarize mask) min_bridge_px) x y = 1.
Proof.
  intros Hin Hz. unfold thin_regions. rewrite getpixel_new by apply Hin.
  rewrite distance_of_zero by (assumption || exact Hin).
  now rewrite fmax_one_positive.
Qed.

(** Wherever the mask has a background pixel at all, the result of
    [reinforce] is the dilation of the whole mask. *)
Lemma reinforce_is_dilation (mask : Image) (min_bridge_px k x y : Z) :
  0 < k -> inside mask x y ->
  getpixel (reinforce (binarize mask) (ellipse k)
                      (thin_regions distanceTransform (binarize mask) min_bridge_px)) x y
  = getpixel (dilate (binarize mask) (ellipse k)) x y.
Proof.
  intros Hk Hin. unfold reinforce. rewrite getpixel_new by apply Hin.
  destruct (Z.ltb_spec 0 (getpixel (dilate (thin_regions distanceTransform (binarize mask) min_bridge_px)
                                           (ellipse k)) x y)) as [Hroi|Hroi];
    [reflexivity |].
  destruct (binarize_bit mask x y) as [Hz|Ho].
  - pose proof (background_is_thin mask min_bridge_px x y Hin Hz) as Ht.
    pose proof (dilate_lower (thin_regions distanceTransform (binarize mask) min_bridge_px) k x y Hk Hin).
    lia.
  - pose proof (dilate_lower (binarize mask) k x y Hk Hin).
    pose proof (dilate_upper (binarize mask) (ellipse k) x y) as Hu.
    assert (forall sx sy, getpixel (binarize mask) sx sy <= 1) as Hb
        by (intros sx sy; destruct (binarize_bit mask sx sy); lia).
    specialize (Hu Hb). lia.
Qed.

(** X18: for every mask with at least one background pixel,
    [enforce] writes the dilation of the whole mask by the structuring
    element: every foreground region grows, thin or not. *)
Lemma enforce_dilates_whole_mask (mask : Image) (cfg : config) (bx by_ : Z)
      (min_bridge_px radius : Z) :
  bridge_px cfg = Ok (min_bridge_px, radius) ->
  inside mask bx by_ -> getpixel mask bx by_ <= 127 ->
  exists out,
    enforce distanceTransform ellipse (Some mask) cfg = Ok (Reinforced out)
    /\ forall x y, inside mask x y ->
                   getpixel out x y
                   = getpixel (dilate (binarize mask) (ellipse (radius * 2 + 1))) x y * 255.
Proof.
  intros Hpx Hin Hbg.
  assert (0 < radius * 2 + 1) as Hk.
  { unfold bridge_px in Hpx.
    destruct (VytUnits.mm_to_px _ _) as [p|e]; cbn [bind] in Hpx; [| discriminate].
    destruct (Py.round _) as [r|e]; cbn [bind] in Hpx; [| discriminate].
    inversion Hpx. lia. }
  unfold enforce. rewrite Hpx. cbn [bind].
  assert (getbbox_is_None (thin_regions distanceTransform (binarize mask) min_bridge_px) = false) as Hany.
  { apply not_true_is_false. intros Hall. unfold getbbox_is_None in Hall.
    rewrite forallb_forall in Hall.
    specialize (Hall (bx, by_) ltac:(apply in_coords; exact Hin)). cbn [fst snd] in Hall.
    rewrite background_is_thin in Hall; [discriminate | exact Hin |].
    unfold binarize, point. rewrite getpixel_new by apply Hin.
    destruct (Z.ltb_spec 127 (getpixel mask bx by_)); [lia | reflexivity]. }
  rewrite Hany. eexists. split; [reflexivity |].
  intros x y Hxy. unfold point at 1. rewrite getpixel_new by apply Hxy.
  now rewrite reinforce_is_dilation.
Qed.

End EnforceFacts.

Lemma fold_min_elem (s : Z) (rest : list Z) (v : Z) :
  In v (s :: rest) -> fold_right Z.min s rest <= v.
Proof.
  induction rest as [|a rest IH]; simpl.
  - intros [->|[]]. lia.
  - intros [->|[->|H]].
    + assert (fold_right Z.min v rest <= v) by (apply IH; simpl; auto). lia.
    + lia.
    + assert (fold_right Z.min s rest <= v) by (apply IH; simpl; auto). lia.
Qed.

Lemma fold_min_lower (s : Z) (rest : list Z) (b : Z) :
  (forall v, In v (s :: rest) -> b <= v) -> b <= fold_right Z.min s rest.
Proof.
  induction rest as [|a rest IH]; simpl; intros H.
  - apply H. auto.
  - assert (b <= a) by (apply H; auto).
    assert (b <= fold_right Z.min s rest) by (apply IH; simpl; intros v [->|Hv]; apply H; auto).
    lia.
Qed.

(** The two assumptions made on OpenCV can be met. *)
Lemma euclidean_distance_of_zero (binary : Image) (x y : Z) :
  inside binary x y -> getpixel binary x y = 0 -> euclidean_distance binary x y = 0%float.
Proof.
  intros Hin Hz. unfold euclidean_distance.
  set (zeros := filter (fun q => getpixel binary (fst q) (snd q) =? 0) (pixels binary)).
  set (square := fun q : Z * Z => (fst q - x) * (fst q - x) + (snd q - y) * (snd q - y)).
  assert (In 0 (map square zeros)) as H0.
  { apply in_map_iff. exists (x, y). split; [unfold square; cbn [fst snd]; lia |].
    apply filter_In. split; [apply in_coords; exact Hin | cbn [fst snd]; now rewrite Hz]. }
  assert (forall v, In v (map square zeros) -> 0 <= v) as Hpos.
  { intros v Hv. apply in_map_iff in Hv. destruct Hv as [q [<- _]]. unfold square.
    apply Z.add_nonneg_nonneg; apply Z.square_nonneg. }
  destruct (map square zeros) as [|s rest]; [destruct H0 |].
  replace (fold_right Z.min s rest) with 0; [reflexivity |].
  pose proof (fold_min_elem s rest 0 H0). pose proof (fold_min_lower s rest 0 Hpos). lia.
Qed.

Lemma rect_element_centre (k : Z) :
  0 < k ->
  width (rect_element k) = k /\ height (rect_element k) = k
  /\ fg (rect_element k) (k / 2) (k / 2) = true.
Proof.
  intros Hk. split; [reflexivity |]. split; [reflexivity |].
  assert (0 <= k / 2 < k) by (split; [apply Z.div_pos | apply Z.div_lt_upper_bound]; lia).
  unfold fg, rect_element, Image_new. now rewrite getpixel_new by lia.
Qed.

(** With the exact distance and a square element, [enforce] dilates
    the whole of [block7]. *)
Lemma enforce_dilates_block7 :
  exists out,
    enforce euclidean_distance rect_element (Some block7) coarse = Ok (Reinforced out)
    /\ forall x y, inside block7 x y ->
                   getpixel out x y
                   = getpixel (dilate (binarize block7) (rect_element (1 * 2 + 1))) x y * 255.
Proof.
  apply (enforce_dilates_whole_mask euclidean_distance rect_element
                                    euclidean_distance_of_zero rect_element_centre
                                    block7 coarse 0 0 1 1).
  - vm_compute. reflexivity.
  - apply insideb_iff. vm_compute. reflexivity.
  - vm_compute. discriminate.
Defined.

Example ellipse_3 : to_rows (ellipse_element 3) = [[0; 1; 0]; [1; 1; 1]; [0; 1; 0]].
Proof. vm_compute. reflexivity. Qed.

Example ellipse_5 :
  to_rows (ellipse_element 5)
  = [[0; 0; 1; 0; 0]; [1; 1; 1; 1; 1]; [1; 1; 1; 1; 1]; [1; 1; 1; 1; 1]; [0; 0; 1; 0; 0]].
Proof. vm_compute. reflexivity. Qed.

Example coarse_px : bridge_px coarse = Ok (1, 1).
Proof. vm_compute. reflexivity. Qed.

(** At 300 dpi the default 1.2 mm is 14 pixels and the structuring
    element has radius 7. *)
Example default_px_300 : bridge_px (mkConfig 300 None) = Ok (14, 7).
Proof. vm_compute. reflexivity. Qed.

Example block7_not_thin :
  forall x y, In (x, y) (pixels block7) -> fg block7 x y = true ->
  PrimFloat.ltb (euclidean_distance (binarize block7) x y) 1 = false.
Proof.
  intros x y Hin. revert x y Hin.
  assert (forallb (fun p => implb (fg block7 (fst p) (snd p))
                                  (negb (PrimFloat.ltb
                                           (euclidean_distance (binarize block7) (fst p) (snd p))
                                           1)))
                  (pixels block7) = true) as H by (vm_compute; reflexivity).
  rewrite forallb_forall in H. intros x y Hin Hfg.
  specialize (H (x, y) Hin). cbn [fst snd] in H. rewrite Hfg in H.
  now apply negb_true_iff in H.
Qed.

(** C4: on [block7], whose only foreground region is three pixels
    wide, with a minimum bridge of one pixel, no foreground pixel is
    thin, yet [enforce] grows the block by the structuring element on
    every side. *)
Theorem enforce_fattens_wide_block :
  exists out,
    enforce euclidean_distance ellipse_element (Some block7) coarse = Ok (Reinforced out)
    /\ to_rows out = [[0; 0; 0; 0; 0; 0; 0];
                      [0; 0; 255; 255; 255; 0; 0];
                      [0; 255; 255; 255; 255; 255; 0];
                      [0; 255; 255; 255; 255; 255; 0];
                      [0; 255; 255; 255; 255; 255; 0];
                      [0; 0; 255; 255; 255; 0; 0];
                      [0; 0; 0; 0; 0; 0; 0]]
    /\ to_rows out <> to_rows block7.
Proof.
  eexists. split; [vm_compute; reflexivity |].
  split; [vm_compute; reflexivity |].
  vm_compute. discriminate.
Qed.

End BridgeFacts.

(** * Further properties *)

(** ** Grids of tiles *)

Lemma seq_from (n m : nat) : seq n m = map (fun k => (n + k)%nat) (seq 0 m).
Proof.
  induction n as [|n IH].
  - cbn [Nat.add]. now rewrite map_id.
  - rewrite <- seq_shift, IH, map_map. reflexivity.
Qed.

Lemma zrange_add (a b : Z) :
  0 <= a -> 0 <= b -> zrange (a + b) = zrange a ++ map (fun c => a + c) (zrange b).
Proof.
  intros Ha Hb. unfold zrange.
  rewrite Z2Nat.inj_add by lia. rewrite seq_app, map_app. f_equal.
  cbn [Nat.add]. rewrite seq_from, !map_map.
  apply map_ext. intros k. lia.
Qed.

Lemma map_flat_map {A B C} (g : B -> C) (f : A -> list B) (l : list A) :
  map g (flat_map f l) = flat_map (fun a => map g (f a)) l.
Proof.
  induction l as [|a l IH]; [reflexivity |].
  cbn [flat_map]. now rewrite map_app, IH.
Qed.

(** Numbering a [rows] by [cols] grid row by row counts from 0 to
    [rows * cols - 1]. *)
Lemma zrange_grid (rows cols : Z) :
  0 <= rows -> 0 <= cols ->
  flat_map (fun r => map (fun c => r * cols + c) (zrange cols)) (zrange rows)
  = zrange (rows * cols).
Proof.
  intros Hr Hc. revert rows Hr. apply (natlike_ind (fun rows =>
    flat_map (fun r => map (fun c => r * cols + c) (zrange cols)) (zrange rows)
    = zrange (rows * cols))); [reflexivity |].
  intros r Hr IH. unfold Z.succ.
  rewrite (zrange_add r 1) by lia.
  rewrite flat_map_app, IH.
  replace ((r + 1) * cols) with (r * cols + cols) by lia.
  rewrite (zrange_add (r * cols) cols) by nia.
  f_equal. change (zrange 1) with [0]. cbn [map flat_map].
  rewrite app_nil_r. apply map_ext. intros c. lia.
Qed.

Lemma grid_as_range {A} (F : Z -> Z -> A) (rows cols : Z) :
  0 <= rows -> 0 <= cols ->
  flat_map (fun r => map (F r) (zrange cols)) (zrange rows)
  = map (fun k => F (k / cols) (k mod cols)) (zrange (rows * cols)).
Proof.
  intros Hr Hc. rewrite <- zrange_grid by assumption.
  rewrite map_flat_map.
  clear Hr. induction (zrange rows) as [|r l IH]; [reflexivity |].
  cbn [flat_map]. rewrite IH. f_equal.
  rewrite map_map. apply map_ext_in. intros c Hin. apply in_zrange in Hin.
  f_equal.
  - apply Z.div_unique with (r := c); lia.
  - apply Z.mod_unique with (q := r); lia.
Qed.

Lemma nth_grid {A} (F : Z -> Z -> A) (rows cols row col : Z) (d : A) :
  0 <= row < rows -> 0 <= col < cols ->
  nth (Z.to_nat (row * cols + col))
      (flat_map (fun r => map (F r) (zrange cols)) (zrange rows)) d
  = F row col.
Proof.
  intros Hr Hc. rewrite grid_as_range by lia.
  rewrite nth_map_zrange by nia.
  rewrite Z2Nat.id by nia. f_equal.
  - symmetry. apply Z.div_unique with (r := col); lia.
  - symmetry. apply Z.mod_unique with (q := row); lia.
Qed.

Lemma length_grid {A} (F : Z -> Z -> A) (rows cols : Z) :
  0 <= rows -> 0 <= cols ->
  List.length (flat_map (fun r => map (F r) (zrange cols)) (zrange rows))
  = Z.to_nat (rows * cols).
Proof.
  intros Hr Hc. rewrite grid_as_range by assumption.
  now rewrite length_map, length_zrange.
Qed.

Module TileGrid.

Import Tile.

Lemma to_tiles_inv (cfg : config) (tiles : list tile) :
  to_tiles cfg = Ok tiles ->
  exists margins_px overlap_px cols rows a4_w a4_h,
    VytUnits.mm_to_px (margins_mm cfg) (dpi cfg) = Ok margins_px
    /\ VytUnits.mm_to_px (overlap_mm cfg) (dpi cfg) = Ok overlap_px
    /\ _parse_grid (grid cfg) = Ok (cols, rows)
    /\ VytUnits.mm_to_px (fst A4_MM) (dpi cfg) = Ok a4_w
    /\ VytUnits.mm_to_px (snd A4_MM) (dpi cfg) = Ok a4_h
    /\ tiles
       = flat_map
           (fun row =>
              map (fun col =>
                     mkTile row col
                            (col * (a4_w - 2 * margins_px + 2 * overlap_px - 2 * overlap_px))
                            (row * (a4_h - 2 * margins_px + 2 * overlap_px - 2 * overlap_px))
                            (a4_w - 2 * margins_px + 2 * overlap_px)
                            (a4_h - 2 * margins_px + 2 * overlap_px)
                            (row * cols + col + 1))
                  (zrange cols))
           (zrange rows).
Proof.
  unfold to_tiles. intros H.
  destruct (VytUnits.mm_to_px (margins_mm cfg) (dpi cfg)) as [m|e]; cbn [bind] in H;
    [| discriminate].
  destruct (VytUnits.mm_to_px (overlap_mm cfg) (dpi cfg)) as [o|e]; cbn [bind] in H;
    [| discriminate].
  destruct (_parse_grid (grid cfg)) as [[c r]|e]; cbn [bind] in H; [| discriminate].
  destruct (VytUnits.mm_to_px (fst A4_MM) (dpi cfg)) as [w|e]; cbn [bind] in H;
    [| discriminate].
  destruct (VytUnits.mm_to_px (snd A4_MM) (dpi cfg)) as [h|e]; cbn [bind] in H;
    [| discriminate].
  inversion H. exists m, o, c, r, w, h. repeat split; reflexivity.
Qed.

(** X1: the pages written by [to_tiles] are numbered 1, 2, ...,
    rows * cols, in the order in which they are written. *)
Theorem to_tiles_page_numbers (cfg : config) (tiles : list tile) (cols rows : Z) :
  to_tiles cfg = Ok tiles ->
  _parse_grid (grid cfg) = Ok (cols, rows) ->
  0 <= cols -> 0 <= rows ->
  map page_number tiles = map (fun k => k + 1) (zrange (rows * cols)).
Proof.
  intros Ht Hg Hc Hr.
  destruct (to_tiles_inv cfg tiles Ht) as [m [o [c [r [w [h [_ [_ [Hg' [_ [_ ->]]]]]]]]]]].
  rewrite Hg in Hg'. inversion Hg'; subst c r.
  rewrite <- zrange_grid by assumption.
  rewrite !map_flat_map. apply flat_map_ext. intros row.
  rewrite !map_map. reflexivity.
Qed.

Lemma to_tiles_page_numbers_witness :
  map page_number
      (match to_tiles (mkConfig 300 10 5 "3x4") with Ok tiles => tiles | Raise _ => [] end)
  = map (fun k => k + 1) (zrange (4 * 3)).
Proof.
  apply (to_tiles_page_numbers (mkConfig 300 10 5 "3x4") _ 3 4).
  - vm_compute. reflexivity.
  - vm_compute. reflexivity.
  - lia.
  - lia.
Defined.

(** X2: neighbouring tiles of [to_tiles] share a band of exactly
    twice the overlap: the right edge of a tile lies [2 * overlap_px]
    beyond the left edge of the tile to its right, and likewise from a
    tile to the tile below. *)
Theorem to_tiles_overlap (cfg : config) (tiles : list tile) (overlap_px : Z) (t1 t2 : tile) :
  to_tiles cfg = Ok tiles ->
  VytUnits.mm_to_px (overlap_mm cfg) (dpi cfg) = Ok overlap_px ->
  In t1 tiles -> In t2 tiles ->
  (col t2 = col t1 + 1 -> offset_x t1 + tile_w_vb t1 - offset_x t2 = 2 * overlap_px)
  /\ (row t2 = row t1 + 1 -> offset_y t1 + tile_h_vb t1 - offset_y t2 = 2 * overlap_px).
Proof.
  intros Ht Ho H1 H2.
  destruct (to_tiles_inv cfg tiles Ht) as [m [o [c [r [w [h [_ [Ho' [_ [_ [_ ->]]]]]]]]]]].
  rewrite Ho in Ho'. inversion Ho'; subst o.
  apply in_flat_map in H1. destruct H1 as [r1 [_ H1]].
  apply in_map_iff in H1. destruct H1 as [c1 [<- _]].
  apply in_flat_map in H2. destruct H2 as [r2 [_ H2]].
  apply in_map_iff in H2. destruct H2 as [c2 [<- _]].
  cbn [row col offset_x offset_y tile_w_vb tile_h_vb].
  split; intros ->; ring.
Qed.

Lemma to_tiles_overlap_witness :
  let t1 := mkTile 0 0 0 0 2362 3390 1 in
  let t2 := mkTile 0 1 2244 0 2362 3390 2 in
  offset_x t1 + tile_w_vb t1 - offset_x t2 = 2 * 59.
Proof.
  intros t1 t2.
  refine (proj1 (to_tiles_overlap (mkConfig 300 10 5 "3x4") _ 59 t1 t2 _ _ _ _) _).
  - vm_compute. reflexivity.
  - vm_compute. reflexivity.
  - vm_compute. auto.
  - vm_compute. auto.
  - reflexivity.
Defined.

Lemma digits_all_digits (s : string) (acc : Z) :
  all_digits s = true -> exists v, digits acc s = Some v /\ (0 <= acc -> 0 <= v).
Proof.
  revert acc. induction s as [|c s IH]; intros acc H; cbn [digits all_digits] in *.
  - exists acc. auto.
  - destruct (digit c) as [d|] eqn:Hd; [| discriminate].
    destruct (IH (10 * acc + d) H) as [v [Hv Hpos]]. exists v. split; [exact Hv |].
    intros Hacc. apply Hpos.
    unfold digit in Hd.
    destruct ((48 <=? nat_of_ascii c)%nat && (nat_of_ascii c <=? 57)%nat) eqn:E;
      [| discriminate].
    apply andb_true_iff in E. destruct E as [E1 E2].
    apply Nat.leb_le in E1. inversion Hd. lia.
Qed.

Lemma digit_not_letter (c : ascii) (d : Z) :
  digit c = Some d ->
  Ascii.eqb c "x" = false /\ Ascii.eqb c "-" = false /\ Ascii.eqb c "+" = false.
Proof.
  unfold digit. intros H.
  destruct ((48 <=? nat_of_ascii c)%nat && (nat_of_ascii c <=? 57)%nat) eqn:E;
    [| discriminate].
  apply andb_true_iff in E. destruct E as [E1 E2].
  apply Nat.leb_le in E1. apply Nat.leb_le in E2.
  repeat split; apply Ascii.eqb_neq; intros ->; cbn in E1, E2; lia.
Qed.

Lemma split_x_digits (c r : string) :
  all_digits c = true -> split_x (c ++ String "x" r) = Some (c, r).
Proof.
  induction c as [|a c IH]; intros H; cbn [append split_x all_digits] in *.
  - reflexivity.
  - destruct (digit a) as [d|] eqn:Hd; [| discriminate].
    destruct (digit_not_letter a d Hd) as [-> _]. now rewrite IH.
Qed.

Lemma digit_byte (c : ascii) (d : Z) :
  digit c = Some d ->
  48 <= Z.of_nat (nat_of_ascii c) <= 57 /\ d = Z.of_nat (nat_of_ascii c) - 48.
Proof.
  unfold digit. intros H.
  destruct ((48 <=? nat_of_ascii c)%nat && (nat_of_ascii c <=? 57)%nat) eqn:E;
    [| discriminate].
  apply andb_true_iff in E. destruct E as [E1 E2].
  apply Nat.leb_le in E1. apply Nat.leb_le in E2.
  split; [lia | congruence].
Qed.

Lemma code_points_digit (c : ascii) (s : string) (d : Z) :
  digit c = Some d ->
  map to_ascii (code_points (String c s))
  = Z.of_nat (nat_of_ascii c) :: map to_ascii (code_points s).
Proof.
  intros Hd. destruct (digit_byte c d Hd) as [Hb _].
  cbn [code_points]. cbv zeta.
  destruct (Z.ltb_spec (Z.of_nat (nat_of_ascii c)) 128); [| lia].
  cbn [map]. unfold to_ascii at 1.
  destruct (Z.ltb_spec (Z.of_nat (nat_of_ascii c)) 127); [reflexivity | lia].
Qed.

(** On a run of ASCII digits the scan of [int] reads the decimal
    value and counts the characters. *)
Lemma scan_all_digits (s : string) (acc count : Z) :
  all_digits s = true ->
  exists v,
    digits acc s = Some v
    /\ scan_digits acc count false (map to_ascii (code_points s))
       = Some (v, count + Z.of_nat (String.length s), []).
Proof.
  revert acc count. induction s as [|c s IH]; intros acc count H.
  - exists acc. split; [reflexivity |]. cbn. f_equal. f_equal. f_equal. lia.
  - cbn [all_digits] in H. destruct (digit c) as [d|] eqn:Hd; [| discriminate].
    destruct (digit_byte c d Hd) as [Hb Ed].
    destruct (IH (10 * acc + d) (count + 1) H) as [v [Hv Hs]].
    exists v. split; [cbn [digits]; now rewrite Hd |].
    rewrite (code_points_digit c s d Hd). cbn [scan_digits].
    destruct (Z.eqb_spec (Z.of_nat (nat_of_ascii c)) 95); [lia |].
    destruct (Z.leb_spec 48 (Z.of_nat (nat_of_ascii c))); [| lia].
    destruct (Z.leb_spec (Z.of_nat (nat_of_ascii c)) 57); [| lia].
    cbn [andb]. rewrite <- Ed, Hs. f_equal. f_equal. f_equal.
    cbn [String.length]. lia.
Qed.

Lemma int_digits (s : string) :
  all_digits s = true -> s <> EmptyString ->
  Z.of_nat (String.length s) <= 4300 ->
  exists v, digits 0 s = Some v /\ 0 <= v /\ int s = Ok v.
Proof.
  intros H Hne Hlen. destruct (digits_all_digits s 0 H) as [v [Hv Hpos]].
  exists v. split; [exact Hv |]. split; [apply Hpos; lia |].
  destruct (scan_all_digits s 0 0 H) as [v' [Hv' Hscan]].
  assert (v' = v) by congruence. subst v'.
  destruct s as [|c s]; [congruence |].
  pose proof H as H'. cbn [all_digits] in H'.
  destruct (digit c) as [d|] eqn:Hd; [| discriminate].
  destruct (digit_byte c d Hd) as [Hb _].
  rewrite (code_points_digit c s d Hd) in Hscan.
  unfold int. cbv zeta. rewrite (code_points_digit c s d Hd).
  set (n := Z.of_nat (nat_of_ascii c)) in *.
  assert (Py_ISSPACE n = false) as Hsp.
  { unfold Py_ISSPACE. destruct (Z.eqb_spec n 32); [lia |].
    destruct (Z.leb_spec 9 n); destruct (Z.leb_spec n 13); try reflexivity; lia. }
  cbn [skip_spaces]. rewrite Hsp.
  assert ((n =? 45) = false) as E45 by (apply Z.eqb_neq; lia).
  assert ((n =? 43) = false) as E43 by (apply Z.eqb_neq; lia).
  assert ((n =? 95) = false) as E95 by (apply Z.eqb_neq; lia).
  rewrite E45, E43. cbn [orb]. rewrite E95, Hscan.
  unfold max_str_digits.
  destruct (Z.ltb_spec 4300 (0 + Z.of_nat (String.length (String c s)))); [lia |].
  destruct (Z.eqb_spec (0 + Z.of_nat (String.length (String c s))) 0) as [E0|_];
    [cbn [String.length] in E0; lia |].
  reflexivity.
Qed.

(** X3: a grid written as two decimal numerals of at most 4300
    digits each around an "x", in either case and with any spaces
    between them, is parsed by [_parse_grid] to the two numbers, columns
    first; both are non-negative. *)
Theorem parse_grid_numerals (s cols_str rows_str : string) :
  remove_spaces (lower s) = (cols_str ++ String "x" rows_str)%string ->
  all_digits cols_str = true -> cols_str <> EmptyString ->
  Z.of_nat (String.length cols_str) <= 4300 ->
  all_digits rows_str = true -> rows_str <> EmptyString ->
  Z.of_nat (String.length rows_str) <= 4300 ->
  exists c r,
    digits 0 cols_str = Some c /\ digits 0 rows_str = Some r
    /\ 0 <= c /\ 0 <= r
    /\ _parse_grid s = Ok (c, r).
Proof.
  intros Hs Hc Hcn Hcl Hr Hrn Hrl.
  destruct (int_digits cols_str Hc Hcn Hcl) as [c [Hdc [Hc0 Hic]]].
  destruct (int_digits rows_str Hr Hrn Hrl) as [r [Hdr [Hr0 Hir]]].
  exists c, r. repeat split; try assumption.
  unfold _parse_grid. rewrite Hs, split_x_digits by assumption.
  rewrite Hic. cbn [bind]. rewrite Hir. reflexivity.
Qed.

Lemma parse_grid_numerals_witness :
  exists c r,
    digits 0 "12" = Some c /\ digits 0 "07" = Some r /\ 0 <= c /\ 0 <= r
    /\ _parse_grid " 12 X 07" = Ok (c, r).
Proof.
  apply (parse_grid_numerals " 12 X 07" "12" "07").
  - vm_compute. reflexivity.
  - reflexivity.
  - discriminate.
  - cbn. lia.
  - reflexivity.
  - discriminate.
  - cbn. lia.
Defined.

(** [int] as CPython reads a string: white space around the numeral,
    single underscores between digits, a sign, Unicode decimal digits
    and Unicode white space are accepted; a numeral of more than 4300
    digits is refused, before what follows it is looked at. *)
Example int_runs :
  map int [" 3 "%string; "1_0"%string; "+3"%string; "-0"%string; "٣"%string;
           "３４"%string; "3　"%string]
  = [Ok 3; Ok 10; Ok 3; Ok 0; Ok 3; Ok 34; Ok 3]
  /\ map int ["_1"%string; "1_"%string; "1__0"%string; "- 3"%string; EmptyString;
              "+"%string; "0x10"%string; "²"%string; "1 2"%string]
     = repeat (Raise (ValueError "invalid literal for int() with base 10")) 9
  /\ int (Nat.iter 4300 (String "0") EmptyString) = Ok 0
  /\ int (Nat.iter 4301 (String "1") EmptyString)
     = Raise (ValueError "Exceeds the limit (4300 digits) for integer string conversion")
  /\ int (Nat.iter 4301 (String "1") "a"%string)
     = Raise (ValueError "Exceeds the limit (4300 digits) for integer string conversion")
  /\ _parse_grid "٣x٤" = Ok (3, 4)
  /\ _parse_grid "3x4x5" = Raise (ValueError "invalid literal for int() with base 10").
Proof. vm_compute. repeat split; reflexivity. Qed.

End TileGrid.

(** ** Cutting the panel into tiles *)

Lemma tile_size_positive (layout : Panel.PanelLayout) (tw th : Z) :
  Panel.tile_size_px layout = Ok (tw, th) -> 0 < tw /\ 0 < th.
Proof.
  unfold Panel.tile_size_px.
  destruct (Panel.page_size_px layout) as [[pw ph]|e]; cbn [bind]; [| discriminate].
  destruct (mm_to_px (Panel.margin_mm layout) (Panel.dpi layout)) as [m|e]; cbn [bind];
    [| discriminate].
  destruct (Z.leb_spec (pw - 2 * m) 0); cbn [orb]; [discriminate |].
  destruct (Z.leb_spec (ph - 2 * m) 0); [discriminate |].
  intros E.
  replace tw with (pw - 2 * m) by congruence.
  replace th with (ph - 2 * m) by congruence. lia.
Qed.

(** X4: [slice_panel_into_tiles] returns rows * cols tiles, row by
    row; the tile of grid cell (row, col) has the positive inner tile
    size, and its pixel (i, j) is the panel's pixel
    (col * tw + i, row * th + j), or 0 where that lies outside the
    panel. *)
Theorem slice_panel_tiles (panel : Image) (layout : Panel.PanelLayout) (tiles : list Image)
        (tw th row col : Z) :
  slice_panel_into_tiles panel layout = Ok tiles ->
  Panel.tile_size_px layout = Ok (tw, th) ->
  0 <= row < Panel.rows layout -> 0 <= col < Panel.cols layout ->
  List.length tiles = Z.to_nat (Panel.rows layout * Panel.cols layout)
  /\ 0 < tw /\ 0 < th
  /\ let t := nth (Z.to_nat (row * Panel.cols layout + col)) tiles panel in
     width t = tw /\ height t = th
     /\ forall i j, 0 <= i < tw -> 0 <= j < th ->
          getpixel t i j
          = if insideb panel (col * tw + i) (row * th + j)
            then getpixel panel (col * tw + i) (row * th + j) else 0.
Proof.
  intros Hs Ht Hr Hc. unfold slice_panel_into_tiles in Hs.
  rewrite Ht in Hs. cbn [bind] in Hs. inversion Hs as [Htiles]. clear Hs.
  destruct (tile_size_positive layout tw th Ht) as [Htw Hth].
  split; [apply length_grid; lia |].
  split; [exact Htw |]. split; [exact Hth |].
  cbv zeta. rewrite nth_grid by assumption.
  unfold crop. cbn [width height new_image].
  split; [lia |]. split; [lia |].
  intros i j Hi Hj.
  change (getpixel (new_image ?w ?h ?m ?f)) with (getpixel (new_image w h m f)).
  rewrite getpixel_new by lia.
  replace (i + col * tw) with (col * tw + i) by lia.
  replace (j + row * th) with (row * th + j) by lia.
  reflexivity.
Qed.

Lemma slice_panel_tiles_witness :
  let layout := Panel.mkPanelLayout 10 2 2 100 in
  let panel := new_image 10 78 ModeL (fun x y => x + 100 * y) in
  match slice_panel_into_tiles panel layout with
  | Ok tiles => getpixel (nth 3 tiles panel) 2 7 = 7 + 100 * 46
  | Raise _ => False
  end.
Proof.
  intros layout panel.
  destruct (slice_panel_into_tiles panel layout) as [tiles|e] eqn:Hs.
  - assert (Panel.tile_size_px layout = Ok (5, 39)) as Ht by (vm_compute; reflexivity).
    destruct (slice_panel_tiles panel layout tiles 5 39 1 1 Hs Ht) as [_ [_ [_ [_ [_ H]]]]].
    + cbn. lia.
    + cbn. lia.
    + refine (eq_trans (H 2 7 _ _) _); [lia | lia | vm_compute; reflexivity].
  - vm_compute in Hs. discriminate.
Defined.

(** ** Radii of the export pass *)

Section ScaledParamsFacts.

Variable pow : float -> float -> result float.

Lemma scale_radius_range (base : Z) (s e : float) (c : option Z) (v : Z) :
  scale_radius pow base s e c = Ok v ->
  (base <= 0 -> v = 0)
  /\ (0 < base -> 1 <= v /\ match c with Some cap => v <= Z.max 1 cap | None => True end).
Proof.
  intros H. split.
  - intros Hb. rewrite scale_radius_nonpositive in H by assumption. now inversion H.
  - intros Hb. split; [eapply scale_radius_floor; eassumption |].
    destruct c as [cap|]; [| exact I].
    eapply scale_radius_ceiling; eassumption.
Qed.

(** X5: the parameters of the export pass keep both thresholds, the
    blur and the antialias radius; a radius that was not positive
    becomes 0, and a positive dilation radius (detail-join radius) ends
    between 1 pixel and the pixel count of 2.0 mm (1.4 mm) at the
    layout's resolution, or 1 if that count is smaller. *)
Theorem scaled_params_bounds (layout : Panel.PanelLayout) (bw_params p : BWParams)
        (scale_used : float) :
  scaled_params pow layout bw_params scale_used = Ok p ->
  threshold_bg p = threshold_bg bw_params
  /\ threshold_detail p = threshold_detail bw_params
  /\ blur p = blur bw_params
  /\ antialias_radius p = antialias_radius bw_params
  /\ (dilate_px bw_params <= 0 -> dilate_px p = 0)
  /\ (0 < dilate_px bw_params ->
      exists cap, mm_to_px 2 (Panel.dpi layout) = Ok cap
                  /\ 1 <= dilate_px p <= Z.max 1 cap)
  /\ (detail_join_px bw_params <= 0 -> detail_join_px p = 0)
  /\ (0 < detail_join_px bw_params ->
      exists cap, mm_to_px 0x1.6666666666666p+0 (Panel.dpi layout) = Ok cap
                  /\ 1 <= detail_join_px p <= Z.max 1 cap).
Proof.
  unfold scaled_params. intros H.
  destruct (Z.ltb_spec 0 (dilate_px bw_params)) as [Hd|Hd].
  - destruct (mm_to_px 2 (Panel.dpi layout)) as [cd|e]; cbn [bind] in H; [| discriminate].
    destruct (Z.ltb_spec 0 (Z.max 1 cd)) as [_|Hx]; [| lia].
    destruct (scale_radius pow (dilate_px bw_params) _ _ (Some (Z.max 1 cd))) as [sd|e] eqn:Esd;
      [| destruct (Z.ltb_spec 0 (detail_join_px bw_params));
         [ destruct (mm_to_px _ (Panel.dpi layout)); cbn [bind] in H; discriminate
         | cbn [bind] in H; discriminate ] ].
    destruct (scale_radius_range _ _ _ _ _ Esd) as [_ Hrd]. specialize (Hrd Hd).
    destruct (Z.ltb_spec 0 (detail_join_px bw_params)) as [Hj|Hj].
    + destruct (mm_to_px _ (Panel.dpi layout)) as [cj|e]; cbn [bind] in H; [| discriminate].
      destruct (Z.ltb_spec 0 (Z.max 1 cj)) as [_|Hx]; [| lia].
      destruct (scale_radius pow (detail_join_px bw_params) _ _ _) as [sj|e] eqn:Esj;
        cbn [bind] in H; [| discriminate].
      destruct (scale_radius_range _ _ _ _ _ Esj) as [_ Hrj]. specialize (Hrj Hj).
      inversion H. cbn.
      repeat split; try reflexivity; try lia.
      * intros _. exists cd. split; [reflexivity | lia].
      * intros _. exists cj. split; [reflexivity | lia].
    + cbn [bind] in H. change (0 <? 0) with false in H. cbv iota in H.
      destruct (scale_radius pow (detail_join_px bw_params) _ _ _) as [sj|e] eqn:Esj;
        cbn [bind] in H; [| discriminate].
      destruct (scale_radius_range _ _ _ _ _ Esj) as [Hrj _]. specialize (Hrj Hj).
      inversion H. cbn.
      repeat split; try reflexivity; try lia.
      intros _. exists cd. split; [reflexivity | lia].
  - cbn [bind] in H.
    destruct (Z.ltb_spec 0 (detail_join_px bw_params)) as [Hj|Hj].
    + destruct (mm_to_px _ (Panel.dpi layout)) as [cj|e]; cbn [bind] in H; [| discriminate].
      change (0 <? 0) with false in H. cbv iota in H.
      destruct (scale_radius pow (dilate_px bw_params) _ _ None) as [sd|e] eqn:Esd;
        cbn [bind] in H; [| discriminate].
      destruct (scale_radius_range _ _ _ _ _ Esd) as [Hrd _]. specialize (Hrd Hd).
      destruct (Z.ltb_spec 0 (Z.max 1 cj)) as [_|Hx]; [| lia].
      destruct (scale_radius pow (detail_join_px bw_params) _ _ _) as [sj|e] eqn:Esj;
        cbn [bind] in H; [| discriminate].
      destruct (scale_radius_range _ _ _ _ _ Esj) as [_ Hrj]. specialize (Hrj Hj).
      inversion H. cbn.
      repeat split; try reflexivity; try lia.
      intros _. exists cj. split; [reflexivity | lia].
    + cbn [bind] in H. change (0 <? 0) with false in H. cbv iota in H.
      destruct (scale_radius pow (dilate_px bw_params) _ _ None) as [sd|e] eqn:Esd;
        cbn [bind] in H; [| discriminate].
      destruct (scale_radius_range _ _ _ _ _ Esd) as [Hrd _]. specialize (Hrd Hd).
      destruct (scale_radius pow (detail_join_px bw_params) _ _ _) as [sj|e] eqn:Esj;
        cbn [bind] in H; [| discriminate].
      destruct (scale_radius_range _ _ _ _ _ Esj) as [Hrj _]. specialize (Hrj Hj).
      inversion H. cbn.
      repeat split; try reflexivity; lia.
Qed.

End ScaledParamsFacts.

Lemma scaled_params_bounds_witness :
  exists p, scaled_params pow_unit (Panel.mkPanelLayout 300 3 4 10) params3 0x1p-1 = Ok p
            /\ (0 < dilate_px params3 ->
                exists cap, mm_to_px 2 300 = Ok cap /\ 1 <= dilate_px p <= Z.max 1 cap).
Proof.
  destruct (scaled_params pow_unit (Panel.mkPanelLayout 300 3 4 10) params3 0x1p-1)
    as [p|e] eqn:E.
  - exists p. split; [reflexivity |].
    exact (proj1 (proj2 (proj2 (proj2 (proj2 (proj2
             (scaled_params_bounds pow_unit _ _ _ _ E))))))).
  - vm_compute in E. discriminate.
Defined.

(** ** Closing and outlines, pixel by pixel *)

(** X7: closing never removes a pixel: a pixel of the canvas that is
    solid in the mask (at least 128 once converted to gray) is solid in
    the closed mask, for every radius. *)
Theorem closing_extensive (m : Image) (r x y : Z) :
  inside m x y -> solid m x y -> solid (_apply_closing m r) x y.
Proof.
  intros Hin Hs. destruct (Z_le_gt_dec r 0) as [Hr|Hr].
  - unfold _apply_closing. destruct (Z.leb_spec r 0); [exact Hs | lia].
  - apply solid_closing; [lia | exact Hin |].
    apply closeP_extensive; [apply Hin | apply Hin | exact Hs].
Qed.

Lemma closing_extensive_witness :
  inside dashed7 1 3 /\ solid (_apply_closing dashed7 1) 1 3.
Proof.
  assert (inside dashed7 1 3) as Hin by (vm_compute; repeat split; discriminate).
  split; [exact Hin |].
  apply (closing_extensive dashed7 1 1 3 Hin).
  vm_compute. discriminate.
Defined.

Lemma fold_min_lt (l : list Z) (t : Z) :
  t <= 255 -> (fold_right Z.min 255 l < t <-> exists v, In v l /\ v < t).
Proof.
  intros Ht. induction l as [|a l IH]; cbn [fold_right In].
  - split; [lia | intros [v [[] _]]].
  - split.
    + intros H. destruct (Z_lt_ge_dec a t) as [Ha|Ha].
      * exists a. auto.
      * assert (fold_right Z.min 255 l < t) as H' by lia.
        apply IH in H'. destruct H' as [v [Hv Hlt]]. exists v. auto.
    + intros [v [[<-|Hv] Hlt]]; [lia |].
      assert (fold_right Z.min 255 l < t) by (apply IH; eauto). lia.
Qed.

Lemma MinFilter_lt (img : Image) (r t x y : Z) :
  0 <= r -> t <= 255 -> inside img x y ->
  (getpixel (MinFilter (2 * r + 1) img) x y < t <->
   exists qx qy, near (width img) (height img) r x y qx qy /\ getpixel img qx qy < t).
Proof.
  intros Hr Ht Hin. unfold MinFilter. rewrite getpixel_new by apply Hin.
  rewrite fold_min_lt by exact Ht. split.
  - intros [v [Hv Hlt]]. apply in_window in Hv; try assumption.
    destruct Hv as [qx [qy [Hq ->]]]. eauto.
  - intros [qx [qy [Hq Hlt]]]. exists (getpixel img qx qy). split; [| exact Hlt].
    apply in_window; try assumption. eauto.
Qed.

Lemma convert_L_mode1_pixel (img : Image) (x y : Z) :
  mode img = Mode1 -> inside img x y ->
  getpixel (convert_L img) x y = if fg img x y then 255 else 0.
Proof.
  intros Hm Hin. unfold convert_L, fg. rewrite Hm.
  rewrite getpixel_new by apply Hin.
  now destruct (getpixel img x y =? 0).
Qed.

Lemma inside_convert_L (img : Image) (x y : Z) : inside (convert_L img) x y <-> inside img x y.
Proof. unfold inside. now rewrite width_convert_L, height_convert_L. Qed.

(** The erosion inside [extract_outline], on a bilevel mask. *)
Lemma fg_eroded_bin (dither : Image -> Image) (mask : Image) (radius x y : Z) :
  mode mask = Mode1 -> inside mask x y ->
  (fg (eroded_bin dither mask radius) x y = false <->
   exists qx qy, near (width mask) (height mask) (Z.max 1 radius) x y qx qy
                 /\ fg mask qx qy = false).
Proof.
  intros Hm Hin. unfold eroded_bin, convert_1. rewrite Hm.
  replace (if radius <? 1 then 1 else radius) with (Z.max 1 radius)
    by (destruct (Z.ltb_spec radius 1); lia).
  set (r := Z.max 1 radius).
  replace (Z.max 3 (2 * r + 1)) with (2 * r + 1) by lia.
  assert (inside (convert_L mask) x y) as HinL by now apply inside_convert_L.
  unfold point, fg at 1.
  change (width (MinFilter (2 * r + 1) (convert_L mask))) with (width (convert_L mask)).
  change (height (MinFilter (2 * r + 1) (convert_L mask))) with (height (convert_L mask)).
  rewrite getpixel_new by apply HinL.
  pose proof (MinFilter_lt (convert_L mask) r 128 x y ltac:(lia) ltac:(lia) HinL) as HM.
  rewrite width_convert_L, height_convert_L in HM.
  assert ((exists qx qy, near (width mask) (height mask) r x y qx qy
                         /\ getpixel (convert_L mask) qx qy < 128)
          <-> (exists qx qy, near (width mask) (height mask) r x y qx qy
                             /\ fg mask qx qy = false)) as Hq.
  { split; intros [qx [qy [Hn Hp]]]; exists qx, qy; (split; [exact Hn |]);
      rewrite convert_L_mode1_pixel in * by (try assumption; apply Hn);
      destruct (fg mask qx qy); try reflexivity; try lia; discriminate. }
  rewrite <- Hq, <- HM. unfold ge128.
  destruct (Z.leb_spec 128 (getpixel (MinFilter (2 * r + 1) (convert_L mask)) x y));
    [change (255 =? 0) with false | change (0 =? 0) with true]; cbn [negb];
    split; intros; first [reflexivity | lia | congruence].
Qed.

(** X8: on a bilevel mask, the outline returned by [extract_outline]
    is exactly the inner boundary: a pixel of the canvas belongs to it
    if and only if it belongs to the mask and some pixel of the canvas
    within Chebyshev distance max(1, radius) does not. *)
Theorem outline_is_inner_boundary (dither : Image -> Image) (mask : Image) (radius x y : Z) :
  mode mask = Mode1 -> inside mask x y ->
  (fg (extract_outline dither mask radius) x y = true <->
   fg mask x y = true
   /\ exists qx qy, near (width mask) (height mask) (Z.max 1 radius) x y qx qy
                    /\ fg mask qx qy = false).
Proof.
  intros Hm Hin.
  rewrite <- (fg_eroded_bin dither mask radius x y Hm Hin).
  assert (inside (eroded_bin dither mask radius) x y) as Hine.
  { unfold eroded_bin, convert_1. rewrite Hm. unfold inside. cbn [point width height new_image].
    change (width (MinFilter ?k ?i)) with (width i).
    change (height (MinFilter ?k ?i)) with (height i).
    rewrite width_convert_L, height_convert_L. exact Hin. }
  unfold extract_outline.
  rewrite fg_logical_and.
  - rewrite fg_invert_binary by (try exact Hine; apply point_ge128_binary).
    unfold convert_1 at 1. rewrite Hm.
    rewrite andb_true_iff, negb_true_iff. reflexivity.
  - apply inside_chop. split.
    + unfold convert_1. rewrite Hm. exact Hin.
    + exact Hine.
Qed.

Lemma outline_is_inner_boundary_witness :
  fg (extract_outline (fun i => i) dot5 1) 1 1 = true
  /\ fg (extract_outline (fun i => i) dot5 1) 2 2 = false.
Proof.
  assert (mode dot5 = Mode1) as Hm by reflexivity.
  split.
  - apply (outline_is_inner_boundary (fun i => i) dot5 1 1 1 Hm).
    + vm_compute. repeat split; discriminate.
    + split; [reflexivity |]. exists 0, 0. split; [| reflexivity].
      vm_compute. repeat split; discriminate.
  - destruct (fg (extract_outline (fun i => i) dot5 1) 2 2) eqn:E; [| reflexivity].
    apply (outline_is_inner_boundary (fun i => i) dot5 1 2 2 Hm) in E.
    + destruct E as [_ [qx [qy [[[Hx Hy] [Hdx Hdy]] Hf]]]].
      change (Z.max 1 1) with 1 in Hdx, Hdy.
      assert (In qx [1; 2; 3]) as Hqx by (cbn [In]; lia).
      assert (In qy [1; 2; 3]) as Hqy by (cbn [In]; lia).
      cbn [In] in Hqx, Hqy.
      destruct Hqx as [<-|[<-|[<-|[]]]]; destruct Hqy as [<-|[<-|[<-|[]]]];
        vm_compute in Hf; discriminate.
    + vm_compute. repeat split; discriminate.
Defined.

(** ** The walls and the filled interior *)

Lemma fg_Image_new_zero (m : Mode) (w h x y : Z) : fg (Image_new m w h 0) x y = false.
Proof.
  unfold fg, Image_new.
  destruct (Z_lt_ge_dec x 0); [rewrite getpixel_new_outside by lia; reflexivity |].
  destruct (Z_lt_ge_dec x w); [| rewrite getpixel_new_outside by lia; reflexivity].
  destruct (Z_lt_ge_dec y 0); [rewrite getpixel_new_outside by lia; reflexivity |].
  destruct (Z_lt_ge_dec y h); [| rewrite getpixel_new_outside by lia; reflexivity].
  rewrite getpixel_new by lia. reflexivity.
Qed.

Lemma getpixel_point (f : Z -> Z) (m : Mode) (img : Image) (x y : Z) :
  inside img x y -> getpixel (point f m img) x y = f (getpixel img x y).
Proof. intros Hin. unfold point. now rewrite getpixel_new by apply Hin. Qed.

Lemma point_gt0_binary (img : Image) (x y : Z) :
  getpixel (point gt0 Mode1 img) x y = 255 \/ getpixel (point gt0 Mode1 img) x y = 0.
Proof.
  destruct (inside_dec img x y) as [Hin|Hout].
  - unfold point. rewrite getpixel_new by apply Hin. unfold gt0.
    destruct (0 <? getpixel img x y); auto.
  - right. unfold point. now rewrite getpixel_new_outside.
Qed.

Lemma fg_point_gt0 (img : Image) (x y : Z) :
  inside img x y -> fg (point gt0 Mode1 img) x y = (0 <? getpixel img x y).
Proof.
  intros Hin. unfold fg, point. rewrite getpixel_new by apply Hin. unfold gt0.
  now destruct (0 <? getpixel img x y).
Qed.

Section FillFacts.

Variable dither : Image -> Image.
Variable floodfill_available : bool.

Lemma inside_blocked_binary (o : Image) (r x y : Z) :
  mode o = Mode1 -> (inside (blocked_binary dither o r) x y <-> inside o x y).
Proof.
  intros Hm. unfold blocked_binary. rewrite Hm. unfold inside.
  cbn [point width height new_image].
  destruct (0 <? r).
  - change (width (MaxFilter ?k ?i)) with (width i).
    change (height (MaxFilter ?k ?i)) with (height i).
    now rewrite width_convert_L, height_convert_L.
  - now rewrite width_convert_L, height_convert_L.
Qed.

(** The walls of the fill are the outline grown by the radius. *)
Lemma fg_blocked_binary (o : Image) (r x y : Z) :
  mode o = Mode1 -> inside o x y ->
  (fg (blocked_binary dither o r) x y = true <->
   exists qx qy, near (width o) (height o) (Z.max 0 r) x y qx qy /\ fg o qx qy = true).
Proof.
  intros Hm Hin.
  assert (inside (convert_L o) x y) as HinL by now apply inside_convert_L.
  unfold blocked_binary. rewrite Hm.
  destruct (Z.ltb_spec 0 r) as [Hr|Hr].
  - replace (Z.max 3 (2 * r + 1)) with (2 * r + 1) by lia.
    replace (Z.max 0 r) with r by lia.
    rewrite fg_point_gt0 by exact HinL.
    pose proof (MaxFilter_ge (convert_L o) r 1 x y ltac:(lia) ltac:(lia) HinL) as HM.
    rewrite width_convert_L, height_convert_L in HM.
    rewrite Z.ltb_lt.
    assert (0 < getpixel (MaxFilter (2 * r + 1) (convert_L o)) x y
            <-> 1 <= getpixel (MaxFilter (2 * r + 1) (convert_L o)) x y) as -> by lia.
    rewrite HM. unfold dilateP.
    split; intros [qx [qy [Hn Hp]]]; exists qx, qy; (split; [exact Hn |]);
      rewrite convert_L_mode1_pixel in * by (try assumption; apply Hn);
      destruct (fg o qx qy); try reflexivity; try lia; discriminate.
  - replace (Z.max 0 r) with 0 by lia.
    rewrite fg_point_gt0 by exact HinL.
    rewrite convert_L_mode1_pixel by assumption.
    split.
    + intros H. exists x, y. split; [apply near_refl; try lia; apply Hin |].
      destruct (fg o x y); [reflexivity | discriminate].
    + intros [qx [qy [[_ [Hx Hy]] Hf]]].
      assert (qx = x) by lia. assert (qy = y) by lia. subst. now rewrite Hf.
Qed.

Lemma fill_avoids_blocked (o : Image) (r x y : Z) :
  fg (fill_closed_regions dither floodfill_available o r) x y = true ->
  inside (blocked_binary dither o r) x y /\ fg (blocked_binary dither o r) x y = false.
Proof.
  unfold fill_closed_regions. cbv zeta.
  set (blocked := blocked_binary dither o r).
  assert (forall s, fg (ImageChops.logical_and s (ImageChops.invert blocked)) x y = true ->
                    inside blocked x y /\ fg blocked x y = false) as Hand.
  { intros s H. apply fg_logical_and_true in H. destruct H as [_ [_ H]].
    pose proof (fg_invert_true _ _ _ H) as Hin. split; [exact Hin |].
    rewrite fg_invert_binary in H; [| exact Hin |].
    - now apply negb_true_iff.
    - unfold blocked, blocked_binary. apply point_gt0_binary. }
  destruct ((width blocked =? 0) || (height blocked =? 0)) eqn:E.
  - rewrite fg_Image_new_zero. discriminate.
  - destruct floodfill_available; [apply Hand |].
    unfold _fill_closed_regions_python. rewrite E.
    destruct (Bfs.drain _ _ _); [apply Hand |].
    rewrite fg_Image_new_zero. discriminate.
Qed.

(** X9: [fill_closed_regions] keeps clear of the outline it is given:
    a pixel of the returned interior lies on the canvas, is not a pixel
    of the (bilevel) outline, and has no outline pixel within Chebyshev
    distance max(0, dilation_radius); this holds on the flood-fill path
    and on the fallback path alike. *)
Theorem fill_avoids_outline (o : Image) (r x y : Z) :
  mode o = Mode1 ->
  fg (fill_closed_regions dither floodfill_available o r) x y = true ->
  inside o x y
  /\ forall qx qy, near (width o) (height o) (Z.max 0 r) x y qx qy -> fg o qx qy = false.
Proof.
  intros Hm H. apply fill_avoids_blocked in H. destruct H as [Hin Hb].
  apply (inside_blocked_binary o r x y Hm) in Hin.
  split; [exact Hin |]. intros qx qy Hn.
  destruct (fg o qx qy) eqn:Hf; [| reflexivity].
  assert (fg (blocked_binary dither o r) x y = true) as Hb'
      by (apply fg_blocked_binary; eauto).
  congruence.
Qed.

End FillFacts.

Lemma fill_avoids_outline_witness :
  inside circle7 3 3
  /\ forall qx qy, near (width circle7) (height circle7) (Z.max 0 0) 3 3 qx qy ->
                   fg circle7 qx qy = false.
Proof.
  apply (fill_avoids_outline (fun i => i) true circle7 0 3 3).
  - reflexivity.
  - vm_compute. reflexivity.
Defined.

(** ** What the bridge enforcer may change *)

Module BridgeOutcome.

Import Bridge.

Lemma fold_max_nonneg (l : list Z) : 0 <= fold_right Z.max 0 l.
Proof. induction l as [|a l IH]; cbn [fold_right]; lia. Qed.

Lemma dilate_nonneg (src kernel : Image) (x y : Z) : 0 <= getpixel (dilate src kernel) x y.
Proof.
  destruct (inside_dec src x y) as [Hin|Hout]; unfold dilate.
  - rewrite getpixel_new by apply Hin. apply fold_max_nonneg.
  - rewrite getpixel_new_outside by exact Hout. lia.
Qed.

Lemma bridge_px_positive (cfg : config) (min_bridge_px radius : Z) :
  bridge_px cfg = Ok (min_bridge_px, radius) -> 1 <= min_bridge_px /\ 1 <= radius.
Proof.
  unfold bridge_px. intros H.
  destruct (VytUnits.mm_to_px _ _) as [p|e]; cbn [bind] in H; [| discriminate].
  destruct (Py.round _) as [r|e]; cbn [bind] in H; [| discriminate].
  assert (min_bridge_px = Z.max 1 p) by congruence.
  assert (radius = Z.max 1 r) by congruence. lia.
Qed.

Section Outcome.

Variable distanceTransform : Image -> Z -> Z -> float.
Variable ellipse : Z -> Image.

Hypothesis distance_of_zero :
  forall binary x y,
    inside binary x y -> getpixel binary x y = 0 ->
    distanceTransform binary x y = 0%float.

Hypothesis ellipse_centre :
  forall k, 0 < k ->
            width (ellipse k) = k /\ height (ellipse k) = k
            /\ fg (ellipse k) (k / 2) (k / 2) = true.

(** X10: [enforce] only ever adds to a mask.  When it hands the
    input back untouched, the mask has no pixel at or below 127; when
    it writes a new mask, every pixel of it is 0 or 255 and every pixel
    that was above 127 is 255. *)
Theorem enforce_only_adds (mask : Image) (cfg : config) (min_bridge_px radius : Z) :
  bridge_px cfg = Ok (min_bridge_px, radius) ->
  match enforce distanceTransform ellipse (Some mask) cfg with
  | Ok Unchanged => forall x y, inside mask x y -> 127 < getpixel mask x y
  | Ok (Reinforced out) =>
      forall x y, inside mask x y ->
                  (getpixel out x y = 0 \/ getpixel out x y = 255)
                  /\ (127 < getpixel mask x y -> getpixel out x y = 255)
  | Raise _ => False
  end.
Proof.
  intros Hpx. destruct (bridge_px_positive cfg min_bridge_px radius Hpx) as [_ Hr].
  assert (0 < radius * 2 + 1) as Hk by lia.
  unfold enforce. rewrite Hpx. cbn [bind].
  destruct (getbbox_is_None (thin_regions distanceTransform (binarize mask) min_bridge_px))
    eqn:Hany.
  - intros x y Hin. unfold getbbox_is_None in Hany. rewrite forallb_forall in Hany.
    specialize (Hany (x, y) ltac:(apply in_coords; exact Hin)). cbn [fst snd] in Hany.
    destruct (Z.ltb_spec 127 (getpixel mask x y)) as [Hgt|Hle]; [exact Hgt |].
    rewrite (BridgeFacts.background_is_thin distanceTransform distance_of_zero) in Hany;
      [discriminate | exact Hin |].
    unfold binarize, point. rewrite getpixel_new by apply Hin.
    destruct (Z.ltb_spec 127 (getpixel mask x y)); [lia | reflexivity].
  - intros x y Hin. rewrite !getpixel_point by exact Hin.
    unfold reinforce. rewrite getpixel_new by apply Hin.
    assert (forall sx sy, getpixel (binarize mask) sx sy <= 1) as Hb
        by (intros sx sy; destruct (BridgeFacts.binarize_bit mask sx sy); lia).
    pose proof (BridgeFacts.dilate_upper (binarize mask) (ellipse (radius * 2 + 1)) x y Hb) as Hu.
    pose proof (dilate_nonneg (binarize mask) (ellipse (radius * 2 + 1)) x y) as Hn.
    pose proof (BridgeFacts.dilate_lower ellipse ellipse_centre (binarize mask)
                                         (radius * 2 + 1) x y Hk Hin) as Hl.
    assert (127 < getpixel mask x y -> getpixel (binarize mask) x y = 1) as Hfgd.
    { intros Hgt. unfold binarize, point. rewrite getpixel_new by apply Hin.
      destruct (Z.ltb_spec 127 (getpixel mask x y)); [reflexivity | lia]. }
    destruct (0 <? getpixel (dilate (thin_regions distanceTransform (binarize mask) min_bridge_px)
                                    (ellipse (radius * 2 + 1))) x y).
    + split; [lia |]. intros Hgt. specialize (Hfgd Hgt). lia.
    + destruct (BridgeFacts.binarize_bit mask x y) as [E|E]; rewrite E.
      * split; [lia |]. intros Hgt. specialize (Hfgd Hgt). lia.
      * split; [lia |]. intros _. lia.
Qed.

End Outcome.

Lemma enforce_only_adds_witness :
  match enforce euclidean_distance rect_element (Some block7) coarse with
  | Ok Unchanged => forall x y, inside block7 x y -> 127 < getpixel block7 x y
  | Ok (Reinforced out) =>
      forall x y, inside block7 x y ->
                  (getpixel out x y = 0 \/ getpixel out x y = 255)
                  /\ (127 < getpixel block7 x y -> getpixel out x y = 255)
  | Raise _ => False
  end.
Proof.
  apply (enforce_only_adds euclidean_distance rect_element
                           BridgeFacts.euclidean_distance_of_zero
                           BridgeFacts.rect_element_centre block7 coarse 1 1).
  vm_compute. reflexivity.
Defined.

End BridgeOutcome.

(** ** What the breadth-first fallback fills *)

Lemma getpixel_putpixel (img : Image) (x y v x' y' : Z) :
  getpixel (putpixel img x y v) x' y'
  = if (x' =? x) && (y' =? y) then v else getpixel img x' y'.
Proof. reflexivity. Qed.

Lemma adjacent_cases (x y x' y' : Z) :
  adjacent x y x' y' <->
  In (x', y') [(x + -1, y + 0); (x + 1, y + 0); (x + 0, y + -1); (x + 0, y + 1)].
Proof.
  unfold adjacent. cbn [In]. split.
  - intros H.
    assert ((x' = x + -1 /\ y' = y + 0) \/ (x' = x + 1 /\ y' = y + 0)
            \/ (x' = x + 0 /\ y' = y + -1) \/ (x' = x + 0 /\ y' = y + 1)) as C by lia.
    destruct C as [[-> ->] | [[-> ->] | [[-> ->] | [-> ->]]]]; auto.
  - intros [E|[E|[E|[E|[]]]]]; inversion E; lia.
Qed.

Lemma fold_left_flat {A B C} (g : A -> C -> A) (f : B -> list C) (l : list B) (a : A) :
  fold_left (fun a b => fold_left g (f b) a) l a = fold_left g (flat_map f l) a.
Proof.
  revert a. induction l as [|b l IH]; intros a; cbn [fold_left flat_map]; [reflexivity |].
  now rewrite fold_left_app, IH.
Qed.

Section BfsReach.

Variable blocked : Image.

Lemma seed_as_fold (st : Bfs.state) :
  Bfs.seed blocked st = fold_left (Bfs.enqueue blocked) (border_points blocked) st.
Proof.
  unfold Bfs.seed, border_points. rewrite fold_left_app, <- !fold_left_flat. reflexivity.
Qed.

Lemma in_border_points (x y : Z) :
  In (x, y) (border_points blocked) -> on_border blocked x y.
Proof.
  unfold border_points, on_border. rewrite in_app_iff, !in_flat_map.
  intros [[a [_ H]]|[a [_ H]]]; cbn [In] in H;
    destruct H as [E|[E|[]]]; inversion E; auto.
Qed.

Lemma border_points_complete (x y : Z) :
  inside blocked x y -> on_border blocked x y -> In (x, y) (border_points blocked).
Proof.
  unfold border_points, on_border. intros [Hx Hy] H. rewrite in_app_iff, !in_flat_map.
  destruct H as [-> | [-> | [-> | ->]]].
  - right. exists y. split; [now apply in_zrange | cbn [In]; auto].
  - right. exists y. split; [now apply in_zrange | cbn [In]; auto].
  - left. exists x. split; [now apply in_zrange | cbn [In]; auto].
  - left. exists x. split; [now apply in_zrange | cbn [In]; auto].
Qed.

Lemma enqueue_cases (st : Bfs.state) (x y : Z) :
  (free blocked x y /\ ~ marked (Bfs.outside st) x y
   /\ Bfs.enqueue blocked st (x, y)
      = Bfs.mkState (putpixel (Bfs.outside st) x y 255) (Bfs.queue st ++ [(x, y)]))
  \/ ((~ free blocked x y \/ marked (Bfs.outside st) x y)
      /\ Bfs.enqueue blocked st (x, y) = st).
Proof.
  unfold Bfs.enqueue, free, marked.
  destruct (insideb blocked x y) eqn:Hin; cbn [andb].
  - apply insideb_iff in Hin.
    destruct (Z.eqb_spec (getpixel blocked x y) 0) as [Hb|Hb]; cbn [andb].
    + destruct (Z.eqb_spec (getpixel (Bfs.outside st) x y) 0) as [Ho|Ho].
      * left. repeat split; try assumption; try apply Hin. intros H. now apply H.
      * right. auto.
    + right. split; [left; intros [_ H]; contradiction | reflexivity].
  - right. split; [| reflexivity]. left. intros [H _]. apply insideb_iff in H. congruence.
Qed.

Lemma enqueue_invariant (pend : list (Z * Z)) (st : Bfs.state) (x y : Z) :
  bfs_invariant blocked pend st ->
  (free blocked x y -> reach (free blocked) (on_border blocked) x y) ->
  bfs_invariant blocked pend (Bfs.enqueue blocked st (x, y))
  /\ (forall a b, marked (Bfs.outside st) a b ->
                  marked (Bfs.outside (Bfs.enqueue blocked st (x, y))) a b)
  /\ (free blocked x y -> marked (Bfs.outside (Bfs.enqueue blocked st (x, y))) x y).
Proof.
  intros [Hsound Hbin Hq Hcl] Hj.
  destruct (enqueue_cases st x y) as [[Hfree [Hun ->]]|[Hno ->]].
  - cbn [Bfs.outside Bfs.queue].
    assert (forall a b, marked (Bfs.outside st) a b ->
                        marked (putpixel (Bfs.outside st) x y 255) a b) as Hmono.
    { intros a b Hm. unfold marked in *. rewrite getpixel_putpixel.
      destruct ((a =? x) && (b =? y)); [discriminate | exact Hm]. }
    assert (marked (putpixel (Bfs.outside st) x y 255) x y) as Hnew.
    { unfold marked. rewrite getpixel_putpixel, !Z.eqb_refl. discriminate. }
    assert (forall a b, marked (putpixel (Bfs.outside st) x y 255) a b ->
                        (a = x /\ b = y) \/ marked (Bfs.outside st) a b) as Hold.
    { intros a b Hm. unfold marked in *. rewrite getpixel_putpixel in Hm.
      destruct (Z.eqb_spec a x); destruct (Z.eqb_spec b y); cbn [andb] in Hm; auto. }
    split; [| split; [exact Hmono | intros _; exact Hnew]].
    constructor; cbn [Bfs.outside Bfs.queue].
    + intros a b Hm. destruct (Hold a b Hm) as [[-> ->]|Hm']; [now apply Hj | now apply Hsound].
    + intros a b. rewrite getpixel_putpixel.
      destruct ((a =? x) && (b =? y)); [now left | apply Hbin].
    + intros a b Hin. apply in_app_iff in Hin. destruct Hin as [Hin|[E|[]]].
      * apply Hmono. now apply Hq.
      * inversion E; subst. exact Hnew.
    + intros a b Hm. destruct (Hold a b Hm) as [[-> ->]|Hm'].
      * right. left. apply in_app_iff. right. now left.
      * destruct (Hcl a b Hm') as [H|[H|H]]; [now left | |].
        -- right. left. apply in_app_iff. now left.
        -- right. right. intros a' b' Ha Hf. apply Hmono. now apply H.
  - split; [now constructor |]. split; [auto |].
    intros Hf. destruct Hno as [Hno|Hm]; [contradiction | exact Hm].
Qed.

Lemma fold_enqueue_invariant (pend l : list (Z * Z)) (st : Bfs.state) :
  bfs_invariant blocked pend st ->
  (forall x y, In (x, y) l -> free blocked x y ->
               reach (free blocked) (on_border blocked) x y) ->
  bfs_invariant blocked pend (fold_left (Bfs.enqueue blocked) l st)
  /\ (forall a b, marked (Bfs.outside st) a b ->
                  marked (Bfs.outside (fold_left (Bfs.enqueue blocked) l st)) a b)
  /\ (forall x y, In (x, y) l -> free blocked x y ->
                  marked (Bfs.outside (fold_left (Bfs.enqueue blocked) l st)) x y).
Proof.
  revert st. induction l as [|[x y] l IH]; intros st Hinv Hj; cbn [fold_left].
  - split; [exact Hinv |]. split; [auto | intros ? ? []].
  - destruct (enqueue_invariant pend st x y Hinv) as [Hinv' [Hmono Hnew]].
    { apply Hj. now left. }
    destruct (IH (Bfs.enqueue blocked st (x, y)) Hinv') as [Hinv'' [Hmono' Hnew']].
    { intros a b Hin. apply Hj. now right. }
    split; [exact Hinv'' |]. split; [auto |].
    intros a b [E|Hin] Hf; [| now apply Hnew'].
    inversion E; subst. apply Hmono'. now apply Hnew.
Qed.

Lemma pop_invariant (o : Image) (x y : Z) (rest : list (Z * Z)) :
  bfs_invariant blocked [] (Bfs.mkState o ((x, y) :: rest)) ->
  let st' := fold_left (fun st d => Bfs.enqueue blocked st (x + fst d, y + snd d))
                       Bfs.neighbours (Bfs.mkState o rest) in
  bfs_invariant blocked [] st'
  /\ (forall a b, marked o a b -> marked (Bfs.outside st') a b).
Proof.
  intros [Hsound Hbin Hq Hcl]. cbn [Bfs.outside Bfs.queue] in *.
  change (fold_left (fun st d => Bfs.enqueue blocked st (x + fst d, y + snd d))
                    Bfs.neighbours (Bfs.mkState o rest))
    with (fold_left (Bfs.enqueue blocked)
                    [(x + -1, y + 0); (x + 1, y + 0); (x + 0, y + -1); (x + 0, y + 1)]
                    (Bfs.mkState o rest)).
  assert (reach (free blocked) (on_border blocked) x y) as Hxy
      by (apply Hsound, Hq; now left).
  destruct (fold_enqueue_invariant
              [(x, y)] [(x + -1, y + 0); (x + 1, y + 0); (x + 0, y + -1); (x + 0, y + 1)]
              (Bfs.mkState o rest)) as [[Hs' Hb' Hq' Hc'] [Hmono Hnew]].
  - constructor; cbn [Bfs.outside Bfs.queue]; try assumption.
    + intros a b Hin. apply Hq. now right.
    + intros a b Hm. destruct (Hcl a b Hm) as [[]|[[E|Hin]|H]]; auto.
      left. left. exact E.
  - intros a b Hin Hf. apply adjacent_cases in Hin.
    eapply reach_step; eassumption.
  - cbv zeta. split; [| exact Hmono].
    constructor; try assumption.
    intros a b Hm. destruct (Hc' a b Hm) as [[E|[]]|[H|H]]; auto.
    inversion E; subst. right. right.
    intros a' b' Ha Hf. apply Hnew; [| exact Hf]. now apply adjacent_cases.
Qed.

Lemma drain_marks (fuel : nat) (st : Bfs.state) (out : Image) :
  Bfs.drain fuel blocked st = Some out ->
  bfs_invariant blocked [] st ->
  (forall x y, free blocked x y -> on_border blocked x y -> marked (Bfs.outside st) x y) ->
  (forall x y, marked out x y <-> reach (free blocked) (on_border blocked) x y)
  /\ (forall x y, getpixel out x y = 255 \/ getpixel out x y = 0).
Proof.
  assert (forall o, bfs_invariant blocked [] (Bfs.mkState o []) ->
            (forall x y, free blocked x y -> on_border blocked x y -> marked o x y) ->
            (forall x y, marked o x y <-> reach (free blocked) (on_border blocked) x y)
            /\ (forall x y, getpixel o x y = 255 \/ getpixel o x y = 0)) as Hdone.
  { intros o [Hsound Hbin Hq Hcl] Hseed. cbn [Bfs.outside Bfs.queue] in *.
    split; [| exact Hbin]. intros x y. split; [apply Hsound |].
    induction 1 as [x y Hb Hf|x y x' y' _ IH Ha Hf].
    - now apply Hseed.
    - destruct (Hcl x y IH) as [[]|[[]|H]]. now apply H. }
  revert st. induction fuel as [|fuel IH]; intros [o q];
    destruct q as [|[x y] rest]; cbn [Bfs.drain Bfs.queue Bfs.outside]; try discriminate.
  - intros E Hinv Hseed. inversion E; subst. now apply Hdone.
  - intros E Hinv Hseed. inversion E; subst. now apply Hdone.
  - intros E Hinv Hseed.
    destruct (pop_invariant o x y rest Hinv) as [Hinv' Hmono]. cbv zeta in Hinv', Hmono.
    apply (IH _ E Hinv'). intros a b Hf Hb. apply Hmono. now apply Hseed.
Qed.

(** The interior returned by the fallback, for walls stored as 0 and
    255: the free pixels from which the border cannot be walked to. *)
Lemma fill_python_interior (x y : Z) :
  (forall a b, getpixel blocked a b = 255 \/ getpixel blocked a b = 0) ->
  (fg (_fill_closed_regions_python blocked) x y = true <->
   free blocked x y /\ ~ reach (free blocked) (on_border blocked) x y).
Proof.
  intros Hwalls. unfold _fill_closed_regions_python.
  destruct ((width blocked =? 0) || (height blocked =? 0)) eqn:Hz.
  - rewrite fg_Image_new_zero. split; [discriminate |].
    intros [[[Hx Hy] _] _]. apply orb_true_iff in Hz. destruct Hz as [Hz|Hz];
      apply Z.eqb_eq in Hz; lia.
  - destruct (fill_python_total blocked) as [out Hout]. rewrite Hout.
    set (st0 := Bfs.mkState (Image_new Mode1 (width blocked) (height blocked) 0) []) in *.
    assert (bfs_invariant blocked [] st0) as Hinv0.
    { constructor; cbn [st0 Bfs.outside Bfs.queue].
      - intros a b Hm. exfalso. apply Hm.
        pose proof (fg_Image_new_zero Mode1 (width blocked) (height blocked) a b) as Hf.
        unfold fg in Hf. apply negb_false_iff in Hf. now apply Z.eqb_eq.
      - intros a b. right.
        pose proof (fg_Image_new_zero Mode1 (width blocked) (height blocked) a b) as Hf.
        unfold fg in Hf. apply negb_false_iff in Hf. now apply Z.eqb_eq.
      - intros a b [].
      - intros a b Hm. exfalso. apply Hm.
        pose proof (fg_Image_new_zero Mode1 (width blocked) (height blocked) a b) as Hf.
        unfold fg in Hf. apply negb_false_iff in Hf. now apply Z.eqb_eq. }
    assert (Bfs.same_canvas blocked st0) as Hc0 by (split; reflexivity).
    pose proof (seed_measure blocked st0 Hc0) as [Hc1 _].
    pose proof (size_drain _ _ _ _ Hc1 Hout) as [Hw Hh].
    rewrite seed_as_fold in Hout.
    destruct (fold_enqueue_invariant [] (border_points blocked) st0 Hinv0)
      as [Hinv1 [_ Hseed]].
    { intros a b Hin Hf. apply reach_seed; [now apply in_border_points | exact Hf]. }
    destruct (drain_marks _ _ _ Hout Hinv1) as [Hmarks Hbin].
    { intros a b Hf Hb. apply Hseed; [| exact Hf].
      apply border_points_complete; [apply Hf | exact Hb]. }
    assert (inside out x y <-> inside blocked x y) as Hio
        by (unfold inside; now rewrite Hw, Hh).
    split.
    + intros H. apply fg_logical_and_true in H. destruct H as [_ [Ho Hb]].
      pose proof (fg_invert_true _ _ _ Ho) as Hino.
      pose proof (fg_invert_true _ _ _ Hb) as Hinb.
      rewrite fg_invert_binary in Ho by (try exact Hino; apply Hbin).
      rewrite fg_invert_binary in Hb by (try exact Hinb; apply Hwalls).
      apply negb_true_iff in Ho, Hb. unfold fg in Ho, Hb.
      apply negb_false_iff, Z.eqb_eq in Ho, Hb.
      split; [split; assumption |].
      intros Hr. apply Hmarks in Hr. now apply Hr.
    + intros [[Hinb Hb] Hnr].
      assert (inside out x y) as Hino by now apply Hio.
      rewrite fg_logical_and.
      * rewrite !fg_invert_binary by (try assumption; try apply Hbin; apply Hwalls).
        unfold fg. rewrite Hb. cbn [Z.eqb negb andb].
        destruct (Z.eqb_spec (getpixel out x y) 0) as [E|E]; [reflexivity |].
        exfalso. apply Hnr. now apply Hmarks.
      * apply inside_chop. split; exact Hino || exact Hinb.
Qed.

End BfsReach.

(** ** What Pillow's flood fill paints *)

Lemma mem_In (s t : Z) (l : list (Z * Z)) : mem s t l = true <-> In (s, t) l.
Proof.
  unfold mem. rewrite existsb_exists. split.
  - intros [[a b] [Hin H]]. cbn [fst snd] in H. apply andb_true_iff in H.
    destruct H as [Ha Hb]. apply Z.eqb_eq in Ha, Hb. now subst.
  - intros Hin. exists (s, t). cbn [fst snd]. now rewrite !Z.eqb_refl.
Qed.

Lemma adjacent_around (x y x' y' : Z) :
  adjacent x y x' y' <-> In (x', y') [(x + 1, y); (x - 1, y); (x, y + 1); (x, y - 1)].
Proof.
  unfold adjacent. cbn [In]. split.
  - intros H.
    assert ((x' = x + 1 /\ y' = y) \/ (x' = x - 1 /\ y' = y)
            \/ (x' = x /\ y' = y + 1) \/ (x' = x /\ y' = y - 1)) as C by lia.
    destruct C as [[-> ->] | [[-> ->] | [[-> ->] | [-> ->]]]]; auto.
  - intros [E|[E|[E|[E|[]]]]]; inversion E; lia.
Qed.

Lemma reach_ok (ok seed : Z -> Z -> Prop) (x y : Z) : reach ok seed x y -> ok x y.
Proof. now destruct 1. Qed.

Lemma reach_seeded (ok seed : Z -> Z -> Prop) (x y : Z) :
  reach ok seed x y -> exists sx sy, seed sx sy /\ ok sx sy.
Proof. induction 1; eauto. Qed.

Lemma reach_change (ok ok' seed seed' : Z -> Z -> Prop) (x y : Z) :
  (forall a b, ok a b -> ok' a b) ->
  (forall a b, seed a b -> ok a b -> reach ok' seed' a b) ->
  reach ok seed x y -> reach ok' seed' x y.
Proof.
  intros Hok Hseed. induction 1 as [x y Hs Ho|x y x' y' _ IH Ha Ho].
  - now apply Hseed.
  - eapply reach_step; [exact IH | exact Ha | now apply Hok].
Qed.

Section FloodReach.

Variable img0 : Image.
Variables background value sx sy : Z.

Hypothesis fresh : value <> background.

Lemma painted_putpixel (img : Image) (s t a b : Z) :
  painted value (putpixel img s t value) a b <-> (a = s /\ b = t) \/ painted value img a b.
Proof.
  unfold painted. rewrite getpixel_putpixel.
  destruct (Z.eqb_spec a s); destruct (Z.eqb_spec b t); cbn [andb]; split; intros H;
    auto; destruct H as [[? ?]|H]; auto; contradiction.
Qed.

Lemma visit_invariant (edge : list (Z * Z)) (st : ImageDraw.sweep) (s t : Z) :
  sweep_invariant img0 background value sx sy edge st ->
  (exists px py, painted value (ImageDraw.buf st) px py /\ adjacent px py s t) ->
  let st' := ImageDraw.visit background value st (s, t) in
  sweep_invariant img0 background value sx sy edge st'
  /\ (forall a b, painted value (ImageDraw.buf st) a b -> painted value (ImageDraw.buf st') a b)
  /\ (same_colour img0 background s t -> painted value (ImageDraw.buf st') s t).
Proof.
  intros Hinv [px [py [Hp Hadj]]]. pose proof Hinv as [Hsize Hkept Hsound Hlooked Hnew Hcl].
  cbv zeta. unfold ImageDraw.visit.
  destruct (mem s t (ImageDraw.full_edge st)) eqn:Hmem; cbn [orb].
  { split; [exact Hinv |]. split; [auto |]. apply Hlooked. now apply mem_In. }
  destruct (Z.ltb_spec s 0) as [Hs|Hs]; cbn [orb].
  { split; [exact Hinv |]. split; [auto |]. intros [[? ?] _]. lia. }
  destruct (Z.ltb_spec t 0) as [Ht|Ht].
  { split; [exact Hinv |]. split; [auto |]. intros [[? ?] _]. lia. }
  destruct (insideb (ImageDraw.buf st) s t) eqn:Hin; cbn [negb].
  2:{ split; [exact Hinv |]. split; [auto |]. intros [Hi _].
      assert (inside (ImageDraw.buf st) s t) as Hi'
          by (destruct Hsize as [Hw Hh]; unfold inside in *; now rewrite Hw, Hh).
      apply insideb_iff in Hi'. congruence. }
  apply insideb_iff in Hin.
  assert (inside img0 s t) as Hin0
      by (destruct Hsize as [Hw Hh]; unfold inside in *; now rewrite <- Hw, <- Hh).
  unfold ImageDraw.is_background.
  destruct (Z.leb_spec (Z.abs (getpixel (ImageDraw.buf st) s t - background)) 0) as [Hbg|Hbg].
  - assert (getpixel (ImageDraw.buf st) s t = background) as Ebg by lia.
    assert (same_colour img0 background s t) as Hsame.
    { split; [exact Hin0 |]. destruct (Hkept s t) as [E|[Hpt _]]; [congruence |].
      unfold painted in Hpt. congruence. }
    split; [| split].
    + constructor; cbn [ImageDraw.buf ImageDraw.new_edge ImageDraw.full_edge].
      * eapply same_size_trans; [apply size_putpixel | exact Hsize].
      * intros a b. destruct (Z.eq_dec a s) as [->|Ha]; [destruct (Z.eq_dec b t) as [->|Hb] |].
        -- right. split; [apply painted_putpixel; auto | exact Hsame].
        -- rewrite getpixel_putpixel.
           destruct (Z.eqb_spec b t); [contradiction |]. rewrite andb_false_r.
           destruct (Hkept s b) as [E|[Hpt Hsm]]; [now left |].
           right. split; [apply painted_putpixel; auto | exact Hsm].
        -- rewrite getpixel_putpixel.
           destruct (Z.eqb_spec a s); [contradiction |]. cbn [andb].
           destruct (Hkept a b) as [E|[Hpt Hsm]]; [now left |].
           right. split; [apply painted_putpixel; auto | exact Hsm].
      * intros a b Hpt. apply painted_putpixel in Hpt. destruct Hpt as [[-> ->]|Hpt].
        -- eapply reach_step; [apply Hsound; exact Hp | exact Hadj | exact Hsame].
        -- now apply Hsound.
      * intros a b [E|Hl] Hsm; apply painted_putpixel.
        -- inversion E; auto.
        -- right. now apply Hlooked.
      * intros a b [E|Hn]; apply painted_putpixel.
        -- inversion E; auto.
        -- right. now apply Hnew.
      * intros a b Hpt. apply painted_putpixel in Hpt. destruct Hpt as [[-> ->]|Hpt].
        -- right. left. now left.
        -- destruct (Hcl a b Hpt) as [H|[H|H]]; [now left | right; left; now right |].
           right. right. intros a' b' Ha' Hs'. apply painted_putpixel. right. now apply H.
    + intros a b Hpt. apply painted_putpixel. now right.
    + intros _. apply painted_putpixel. auto.
  - assert (getpixel (ImageDraw.buf st) s t <> background) as Nbg by lia.
    assert (same_colour img0 background s t -> painted value (ImageDraw.buf st) s t) as Hst.
    { intros [_ Hc]. destruct (Hkept s t) as [E|[Hpt _]]; [congruence | exact Hpt]. }
    split; [| split; [auto | exact Hst]].
    constructor; cbn [ImageDraw.buf ImageDraw.new_edge ImageDraw.full_edge]; try assumption.
    intros a b [E|Hl] Hsm; [| now apply Hlooked].
    inversion E; subst. now apply Hst.
Qed.

Lemma fold_visit_invariant (edge l : list (Z * Z)) (st : ImageDraw.sweep) :
  sweep_invariant img0 background value sx sy edge st ->
  (forall s t, In (s, t) l ->
               exists px py, painted value (ImageDraw.buf st) px py /\ adjacent px py s t) ->
  let st' := fold_left (ImageDraw.visit background value) l st in
  sweep_invariant img0 background value sx sy edge st'
  /\ (forall a b, painted value (ImageDraw.buf st) a b -> painted value (ImageDraw.buf st') a b)
  /\ (forall s t, In (s, t) l -> same_colour img0 background s t ->
                  painted value (ImageDraw.buf st') s t).
Proof.
  revert st. induction l as [|[s t] l IH]; intros st Hinv Hj; cbn [fold_left]; cbv zeta.
  - split; [exact Hinv |]. split; [auto | intros ? ? []].
  - destruct (visit_invariant edge st s t Hinv) as [Hinv' [Hmono Hdone]].
    { apply Hj. now left. }
    cbv zeta in Hinv', Hmono, Hdone.
    destruct (IH (ImageDraw.visit background value st (s, t)) Hinv') as [Hinv'' [Hmono' Hdone']].
    { intros a b Hin. destruct (Hj a b) as [px [py [Hp Ha]]]; [now right |].
      exists px, py. split; [now apply Hmono | exact Ha]. }
    cbv zeta in Hinv'', Hmono', Hdone'.
    split; [exact Hinv'' |]. split; [auto |].
    intros a b [E|Hin] Hsm; [| now apply Hdone'].
    inversion E; subst. apply Hmono'. now apply Hdone.
Qed.

Lemma visit_around_invariant (edge : list (Z * Z)) (st : ImageDraw.sweep) (x y : Z) :
  sweep_invariant img0 background value sx sy edge st ->
  painted value (ImageDraw.buf st) x y ->
  let st' := ImageDraw.visit_around background value st (x, y) in
  sweep_invariant img0 background value sx sy edge st'
  /\ (forall a b, painted value (ImageDraw.buf st) a b -> painted value (ImageDraw.buf st') a b)
  /\ filled_around img0 background value (ImageDraw.buf st') x y.
Proof.
  intros Hinv Hp. cbv zeta. unfold ImageDraw.visit_around.
  destruct (fold_visit_invariant edge [(x + 1, y); (x - 1, y); (x, y + 1); (x, y - 1)] st Hinv)
    as [Hinv' [Hmono Hdone]].
  { intros s t Hin. exists x, y. split; [exact Hp | now apply adjacent_around]. }
  cbv zeta in Hinv', Hmono, Hdone.
  split; [exact Hinv' |]. split; [exact Hmono |].
  intros a b Ha Hsm. apply Hdone; [now apply adjacent_around | exact Hsm].
Qed.

Lemma fold_around_invariant (edge l : list (Z * Z)) (st : ImageDraw.sweep) :
  sweep_invariant img0 background value sx sy edge st ->
  (forall x y, In (x, y) l -> painted value (ImageDraw.buf st) x y) ->
  let st' := fold_left (ImageDraw.visit_around background value) l st in
  sweep_invariant img0 background value sx sy edge st'
  /\ (forall a b, painted value (ImageDraw.buf st) a b -> painted value (ImageDraw.buf st') a b)
  /\ (forall x y, In (x, y) l -> filled_around img0 background value (ImageDraw.buf st') x y).
Proof.
  revert st. induction l as [|[x y] l IH]; intros st Hinv Hp; cbn [fold_left]; cbv zeta.
  - split; [exact Hinv |]. split; [auto | intros ? ? []].
  - destruct (visit_around_invariant edge st x y Hinv) as [Hinv' [Hmono Hdone]].
    { apply Hp. now left. }
    cbv zeta in Hinv', Hmono, Hdone.
    destruct (IH (ImageDraw.visit_around background value st (x, y)) Hinv')
      as [Hinv'' [Hmono' Hdone']].
    { intros a b Hin. apply Hmono. apply Hp. now right. }
    cbv zeta in Hinv'', Hmono', Hdone'.
    split; [exact Hinv'' |]. split; [auto |].
    intros a b [E|Hin]; [| now apply Hdone'].
    inversion E; subst. intros a' b' Ha Hsm. apply Hmono'. now apply Hdone.
Qed.

Lemma sweeps_paint (fuel : nat) (img : Image) (edge full : list (Z * Z)) (out : Image) :
  ImageDraw.sweeps fuel background value img edge full = Some out ->
  sweep_invariant img0 background value sx sy edge (ImageDraw.mkSweep img [] full) ->
  (forall x y, In (x, y) edge -> painted value img x y) ->
  (forall x y, painted value out x y ->
               reach (same_colour img0 background) (at_seed sx sy) x y
               /\ filled_around img0 background value out x y)
  /\ (forall x y, painted value img x y -> painted value out x y)
  /\ (forall x y, getpixel out x y = getpixel img0 x y \/ painted value out x y).
Proof.
  assert (forall img full,
            sweep_invariant img0 background value sx sy [] (ImageDraw.mkSweep img [] full) ->
            (forall x y, painted value img x y ->
                         reach (same_colour img0 background) (at_seed sx sy) x y
                         /\ filled_around img0 background value img x y)
            /\ (forall x y, painted value img x y -> painted value img x y)
            /\ (forall x y, getpixel img x y = getpixel img0 x y \/ painted value img x y))
    as Hdone.
  { intros i f [Hsize Hkept Hsound Hlooked Hnew Hcl].
    cbn [ImageDraw.buf ImageDraw.new_edge ImageDraw.full_edge] in *.
    split; [| split; [auto |]].
    - intros x y Hp. split; [now apply Hsound |].
      destruct (Hcl x y Hp) as [[]|[[]|H]]. exact H.
    - intros x y. destruct (Hkept x y) as [E|[Hp _]]; auto. }
  revert img edge full. induction fuel as [|fuel IH]; intros img edge full;
    destruct edge as [|e edge]; cbn [ImageDraw.sweeps]; try discriminate.
  - intros E Hinv _. inversion E; subst. eapply Hdone; eassumption.
  - intros E Hinv _. inversion E; subst. eapply Hdone; eassumption.
  - intros E Hinv Hedge.
    destruct (fold_around_invariant (e :: edge) (e :: edge) (ImageDraw.mkSweep img [] full) Hinv)
      as [Hinv' [Hmono Hfilled]].
    { exact Hedge. }
    cbv zeta in Hinv', Hmono, Hfilled.
    set (st := fold_left (ImageDraw.visit_around background value) (e :: edge)
                         (ImageDraw.mkSweep img [] full)) in *.
    destruct Hinv' as [Hsize Hkept Hsound Hlooked Hnew Hcl].
    destruct (IH _ _ _ E) as [Hfin [Hmono' Hkept']].
    + constructor; cbn [ImageDraw.buf ImageDraw.new_edge ImageDraw.full_edge]; try assumption.
      * intros x y Hin _. apply Hmono. now apply Hedge.
      * intros x y [].
      * intros x y Hp. destruct (Hcl x y Hp) as [H|[H|H]]; auto.
    + exact Hnew.
    + split; [exact Hfin |]. split; [| exact Hkept'].
      intros x y Hp. apply Hmono'. now apply Hmono.
Qed.

End FloodReach.

(** [ImageDraw.floodfill] paints exactly the pixels of the seed's
    colour that can be walked to from the seed, and leaves every other
    pixel as it was. *)
Lemma floodfill_paints (img : Image) (x y value : Z) :
  inside img x y -> value <> getpixel img x y ->
  (forall a b, getpixel img a b <> value) ->
  (forall a b, painted value (ImageDraw.floodfill img x y value) a b
               <-> reach (same_colour img (getpixel img x y)) (at_seed x y) a b)
  /\ (forall a b, getpixel (ImageDraw.floodfill img x y value) a b = getpixel img a b
                  \/ painted value (ImageDraw.floodfill img x y value) a b).
Proof.
  intros Hin Hfresh Hclean.
  destruct (floodfill_total img x y value) as [out [Hout ->]];
    [now apply insideb_iff | exact Hfresh |].
  destruct (sweeps_paint img (getpixel img x y) value x y Hfresh _ _ _ _ _ Hout)
    as [Hfin [Hmono Hkept]].
  - constructor; cbn [ImageDraw.buf ImageDraw.new_edge ImageDraw.full_edge].
    + apply size_putpixel.
    + intros a b. rewrite getpixel_putpixel.
      destruct (Z.eqb_spec a x); destruct (Z.eqb_spec b y); cbn [andb]; auto.
      subst. right. split; [apply painted_putpixel; auto | split; [exact Hin | reflexivity]].
    + intros a b Hp. apply painted_putpixel in Hp. destruct Hp as [[-> ->]|Hp].
      * apply reach_seed; [split; reflexivity | split; [exact Hin | reflexivity]].
      * exfalso. now apply (Hclean a b).
    + intros a b [].
    + intros a b [].
    + intros a b Hp. apply painted_putpixel in Hp. destruct Hp as [[-> ->]|Hp].
      * left. now left.
      * exfalso. now apply (Hclean a b).
  - intros a b [E|[]]. inversion E; subst. apply painted_putpixel. auto.
  - split; [| exact Hkept].
    intros a b. split; [apply Hfin |].
    induction 1 as [a b [-> ->] _|a b a' b' _ IH Ha Hs].
    + apply Hmono. apply painted_putpixel. auto.
    + destruct (Hfin a b IH) as [_ Hf]. now apply Hf.
Qed.

(** ** The two fills compared *)

Lemma point_binary (f : Z -> Z) (m : Mode) (img : Image) (x y : Z) :
  (forall v, f v = 255 \/ f v = 0) ->
  getpixel (point f m img) x y = 255 \/ getpixel (point f m img) x y = 0.
Proof.
  intros Hf. destruct (inside_dec img x y) as [Hin|Hout].
  - rewrite getpixel_point by exact Hin. apply Hf.
  - right. unfold point. now rewrite getpixel_new_outside.
Qed.

Lemma reach_origin_border (blocked : Image) (x y : Z) :
  reach (free blocked) (at_seed 0 0) x y -> reach (free blocked) (on_border blocked) x y.
Proof.
  apply reach_change; [auto |].
  intros a b [-> ->] Hf. apply reach_seed; [now left | exact Hf].
Qed.

Section FillReach.

Variable dither : Image -> Image.

Lemma blocked_binary_walls (o : Image) (r a b : Z) :
  getpixel (blocked_binary dither o r) a b = 255
  \/ getpixel (blocked_binary dither o r) a b = 0.
Proof. unfold blocked_binary. apply point_gt0_binary. Qed.

Lemma blocked_binary_mode (o : Image) (r : Z) : mode (blocked_binary dither o r) = Mode1.
Proof. reflexivity. Qed.

Lemma fallback_is_python (o : Image) (r x y : Z) :
  fg (fill_closed_regions dither false o r) x y
  = fg (_fill_closed_regions_python (blocked_binary dither o r)) x y.
Proof.
  unfold fill_closed_regions. cbv zeta.
  destruct ((width (blocked_binary dither o r) =? 0)
            || (height (blocked_binary dither o r) =? 0)) eqn:E; [| reflexivity].
  unfold _fill_closed_regions_python. now rewrite E.
Qed.

Lemma fallback_interior (o : Image) (r x y : Z) :
  fg (fill_closed_regions dither false o r) x y = true <->
  free (blocked_binary dither o r) x y
  /\ ~ reach (free (blocked_binary dither o r)) (on_border (blocked_binary dither o r)) x y.
Proof.
  rewrite fallback_is_python. apply fill_python_interior. apply blocked_binary_walls.
Qed.

Lemma flood_image_pixel (o : Image) (r a b : Z) :
  getpixel (convert_L (blocked_binary dither o r)) a b
  = if insideb (blocked_binary dither o r) a b && fg (blocked_binary dither o r) a b
    then 255 else 0.
Proof.
  destruct (insideb (blocked_binary dither o r) a b) eqn:Hin; cbn [andb].
  - apply insideb_iff in Hin. apply convert_L_mode1_pixel; [reflexivity | exact Hin].
  - unfold convert_L. rewrite blocked_binary_mode. apply getpixel_new_outside.
    intros H. apply not_true_iff_false in Hin. apply Hin. now apply insideb_iff.
Qed.

Lemma same_colour_free (o : Image) (r a b : Z) :
  same_colour (convert_L (blocked_binary dither o r)) 0 a b
  <-> free (blocked_binary dither o r) a b.
Proof.
  unfold same_colour, free. rewrite inside_convert_L, flood_image_pixel.
  split; intros [Hin H]; (split; [exact Hin |]); apply insideb_iff in Hin;
    rewrite Hin in *; cbn [andb] in *; unfold fg in *;
    destruct (Z.eqb_spec (getpixel (blocked_binary dither o r) a b) 0);
    cbn [negb] in *; congruence.
Qed.

(** The interior returned on the flood-fill path, pixel by pixel. *)
Lemma fast_cases (o : Image) (r x y : Z) :
  inside (blocked_binary dither o r) x y ->
  (fg (fill_closed_regions dither true o r) x y = true
   /\ free (blocked_binary dither o r) x y
   /\ ~ reach (free (blocked_binary dither o r)) (at_seed 0 0) x y)
  \/ (fg (fill_closed_regions dither true o r) x y = false
      /\ (~ free (blocked_binary dither o r) x y
          \/ reach (free (blocked_binary dither o r)) (at_seed 0 0) x y)).
Proof.
  intros Hin. unfold fill_closed_regions. cbv zeta.
  set (B := blocked_binary dither o r) in *.
  assert (0 < width B /\ 0 < height B) as [Hw Hh] by (unfold inside in Hin; lia).
  destruct (Z.eqb_spec (width B) 0) as [E|_]; [lia |].
  destruct (Z.eqb_spec (height B) 0) as [E|_]; [lia |]. cbn [orb].
  set (img := convert_L B).
  assert (inside img 0 0) as Hin0 by (apply inside_convert_L; unfold inside; lia).
  assert (forall a b, getpixel img a b = 255 \/ getpixel img a b = 0) as Hbin.
  { intros a b. unfold img, B. rewrite flood_image_pixel. destruct (_ && _); auto. }
  assert (forall a b, getpixel img a b <> 128) as Hclean
      by (intros a b; destruct (Hbin a b); lia).
  destruct (floodfill_paints img 0 0 128 Hin0 (not_eq_sym (Hclean 0 0)) Hclean)
    as [Hpaint Hkept].
  set (flood := ImageDraw.floodfill img 0 0 128) in *.
  assert (same_size flood B) as [Hfw Hfh].
  { eapply same_size_trans; [apply size_floodfill | apply size_convert_L]. }
  assert (inside flood x y) as Hinf by (unfold inside; now rewrite Hfw, Hfh).
  set (outside := point (fun v => if v =? 128 then 255 else 0) Mode1 flood).
  assert (inside outside x y) as Hino by exact Hinf.
  rewrite fg_logical_and
    by (apply inside_chop; split; [exact Hino | exact Hin]).
  rewrite fg_invert_binary
    by (try exact Hino; apply point_binary; intros v; destruct (v =? 128); auto).
  rewrite (fg_invert_binary B) by (try exact Hin; apply blocked_binary_walls).
  assert (fg outside x y = (getpixel flood x y =? 128)) as Eo.
  { unfold fg, outside. rewrite getpixel_point by exact Hinf.
    now destruct (getpixel flood x y =? 128). }
  rewrite Eo.
  destruct (blocked_binary_walls o r x y : getpixel B x y = 255 \/ getpixel B x y = 0)
    as [Hwall|Hfree].
  - assert (fg B x y = true) as -> by (unfold fg; now rewrite Hwall).
    right. cbn [negb]. rewrite andb_false_r.
    split; [reflexivity |]. left. intros [_ H]. congruence.
  - assert (free B x y) as Hf by (split; assumption).
    assert (fg B x y = false) as -> by (unfold fg; now rewrite Hfree).
    cbn [negb]. rewrite andb_true_r.
    destruct (Z.eqb_spec (getpixel flood x y) 128) as [Hp|Hp]; cbn [negb].
    + right. split; [reflexivity |]. right.
      apply Hpaint in Hp.
      pose proof (reach_ok _ _ _ _ Hp) as [_ Hc].
      assert (getpixel img x y = 0) as Hz by (apply same_colour_free; exact Hf).
      rewrite Hz in Hc. rewrite <- Hc in Hp.
      revert Hp. apply reach_change; [intros a b; apply same_colour_free | ].
      intros a b Hs Hok. apply reach_seed; [exact Hs | now apply same_colour_free].
    + left. split; [reflexivity |]. split; [exact Hf |].
      intros Hr. apply Hp. apply Hpaint.
      destruct (reach_seeded _ _ _ _ Hr) as [a [b [[-> ->] H0]]].
      assert (getpixel img 0 0 = 0) as Hz by (apply same_colour_free; exact H0).
      rewrite Hz.
      revert Hr. apply reach_change; [intros a b; apply same_colour_free |].
      intros a b Hs Hok. apply reach_seed; [exact Hs | now apply same_colour_free].
Qed.

Lemma fast_inside (o : Image) (r x y : Z) :
  fg (fill_closed_regions dither true o r) x y = true ->
  inside (blocked_binary dither o r) x y.
Proof. intros H. now apply fill_avoids_blocked in H. Qed.

(** X11: on the fallback path, [fill_closed_regions] returns exactly
    the enclosed pixels: the pixels off the walls from which no walk
    from pixel to neighbouring pixel, off the walls, reaches the border
    of the canvas. *)
Theorem fallback_fills_enclosed (o : Image) (r x y : Z) :
  fg (fill_closed_regions dither false o r) x y = true <->
  free (blocked_binary dither o r) x y
  /\ ~ reach (free (blocked_binary dither o r)) (on_border (blocked_binary dither o r)) x y.
Proof. apply fallback_interior. Qed.

(** X12: on the flood-fill path, [fill_closed_regions] returns the
    pixels off the walls that cannot be walked to from the corner
    (0, 0); when that corner is itself a wall, these are all the
    pixels off the walls. *)
Theorem floodfill_fills_unreached (o : Image) (r x y : Z) :
  fg (fill_closed_regions dither true o r) x y = true <->
  free (blocked_binary dither o r) x y
  /\ ~ reach (free (blocked_binary dither o r)) (at_seed 0 0) x y.
Proof.
  split.
  - intros H. destruct (fast_cases o r x y (fast_inside o r x y H)) as [[_ C]|[E _]];
      [exact C | congruence].
  - intros [Hf Hn]. destruct (fast_cases o r x y (proj1 Hf)) as [[E _]|[_ [C|C]]];
      [exact E | contradiction | contradiction].
Qed.

(** X13: the fallback never fills more than the flood-fill path:
    every pixel of its interior is a pixel of the interior computed
    with [ImageDraw.floodfill]. *)
Theorem fallback_within_floodfill (o : Image) (r x y : Z) :
  fg (fill_closed_regions dither false o r) x y = true ->
  fg (fill_closed_regions dither true o r) x y = true.
Proof.
  intros H. apply fallback_interior in H. destruct H as [Hf Hn].
  destruct (fast_cases o r x y (proj1 Hf)) as [[E _]|[_ [C|C]]];
    [exact E | contradiction |].
  exfalso. apply Hn. now apply reach_origin_border.
Qed.

(** X14: the two paths of [fill_closed_regions] return the same
    interior if and only if every border pixel off the walls can be
    walked to from the corner (0, 0) without crossing a wall. *)
Theorem fill_paths_agree_iff (o : Image) (r : Z) :
  (forall x y, fg (fill_closed_regions dither true o r) x y
               = fg (fill_closed_regions dither false o r) x y)
  <-> (forall x y, free (blocked_binary dither o r) x y ->
                   on_border (blocked_binary dither o r) x y ->
                   reach (free (blocked_binary dither o r)) (at_seed 0 0) x y).
Proof.
  split.
  - intros Hagree x y Hf Hb.
    assert (fg (fill_closed_regions dither false o r) x y = false) as Efalse.
    { destruct (fg (fill_closed_regions dither false o r) x y) eqn:E; [| reflexivity].
      apply fallback_interior in E. destruct E as [_ Hn].
      exfalso. apply Hn. now apply reach_seed. }
    rewrite <- Hagree in Efalse.
    destruct (fast_cases o r x y (proj1 Hf)) as [[E _]|[_ [C|C]]];
      [congruence | contradiction | exact C].
  - intros Hconn x y.
    destruct (fg (fill_closed_regions dither false o r) x y) eqn:Eslow.
    + apply fallback_interior in Eslow. destruct Eslow as [Hf Hn].
      destruct (fast_cases o r x y (proj1 Hf)) as [[E _]|[_ [C|C]]];
        [exact E | contradiction |].
      exfalso. apply Hn. now apply reach_origin_border.
    + destruct (fg (fill_closed_regions dither true o r) x y) eqn:Efast; [| reflexivity].
      destruct (fast_cases o r x y (fast_inside o r x y Efast)) as [[_ [Hf Hn]]|[E _]];
        [| congruence].
      assert (fg (fill_closed_regions dither false o r) x y = true) as C; [| congruence].
      apply fallback_interior. split; [exact Hf |].
      intros Hr. apply Hn. revert Hr. apply reach_change; [auto |].
      intros a b Hb Hfa. now apply Hconn.
Qed.

End FillReach.

Lemma fallback_within_floodfill_witness :
  fg (fill_closed_regions (fun i => i) true circle7 0) 3 3 = true.
Proof.
  apply (fallback_within_floodfill (fun i => i) circle7 0 3 3).
  vm_compute. reflexivity.
Defined.

(** ** The holes of the bundle *)

Lemma blank_new (m : Mode) (w h : Z) : blank (Image_new m w h 0).
Proof. intros x y. apply fg_Image_new_zero. Qed.

Lemma blank_pixel (img : Image) (x y : Z) : blank img -> getpixel img x y = 0.
Proof.
  intros H. specialize (H x y). unfold fg in H.
  apply negb_false_iff in H. now apply Z.eqb_eq.
Qed.

Lemma blank_logical_and_l (a b : Image) : blank a -> blank (ImageChops.logical_and a b).
Proof.
  intros H x y. destruct (fg (ImageChops.logical_and a b) x y) eqn:E; [| reflexivity].
  apply fg_logical_and_true in E. destruct E as [_ [E _]]. now rewrite H in E.
Qed.

Lemma blank_logical_or (a b : Image) :
  blank a -> blank b -> blank (ImageChops.logical_or a b).
Proof.
  intros Ha Hb x y. destruct (inside_dec (ImageChops.logical_or a b) x y) as [Hin|Hout].
  - rewrite fg_logical_or by exact Hin. now rewrite Ha, Hb.
  - unfold fg, ImageChops.logical_or, ImageChops.chop.
    now rewrite getpixel_new_outside by exact Hout.
Qed.

Lemma blank_convert_L (img : Image) (x y : Z) :
  blank img -> getpixel (convert_L img) x y = 0.
Proof.
  intros H. unfold convert_L. destruct (mode img); [| now apply blank_pixel].
  destruct (inside_dec img x y) as [Hin|Hout].
  - rewrite getpixel_new by apply Hin. now rewrite blank_pixel.
  - now apply getpixel_new_outside.
Qed.

Lemma blank_closing (m : Image) (r : Z) : blank m -> blank (_apply_closing m r).
Proof.
  intros H x y. destruct (Z_le_gt_dec r 0) as [Hr|Hr].
  - unfold _apply_closing. destruct (Z.leb_spec r 0); [apply H | lia].
  - destruct (fg (_apply_closing m r) x y) eqn:E; [exfalso | reflexivity].
    assert (inside m x y) as Hin.
    { unfold _apply_closing in E. destruct (Z.leb_spec r 0); [lia |].
      apply fg_new_inside in E.
      change (width (MinFilter ?k ?i)) with (width i) in E.
      change (height (MinFilter ?k ?i)) with (height i) in E.
      change (width (MaxFilter ?k ?i)) with (width i) in E.
      change (height (MaxFilter ?k ?i)) with (height i) in E.
      rewrite width_convert_L, height_convert_L in E. exact E. }
    assert (getpixel (_apply_closing m r) x y = 255) as E255.
    { destruct (closing_pixel m r x y ltac:(lia) Hin) as [C|C]; [exact C |].
      unfold fg in E. rewrite C in E. discriminate. }
    apply closing_fg in E255; [| lia | exact Hin].
    destruct (E255 x y (near_refl _ _ r x y ltac:(lia) (proj1 Hin) (proj2 Hin)))
      as [qx [qy [_ Hs]]].
    unfold solid in Hs. rewrite blank_convert_L in Hs by exact H. lia.
Qed.

Lemma mode_closing (m : Image) (r : Z) : mode m = Mode1 -> mode (_apply_closing m r) = Mode1.
Proof.
  intros Hm. unfold _apply_closing. destruct (r <=? 0); [exact Hm | reflexivity].
Qed.

Lemma closing_keeps_fg (m : Image) (r x y : Z) :
  mode m = Mode1 -> inside m x y -> fg m x y = true -> fg (_apply_closing m r) x y = true.
Proof.
  intros Hm Hin Hf. destruct (Z_le_gt_dec r 0) as [Hr|Hr].
  - unfold _apply_closing. destruct (Z.leb_spec r 0); [exact Hf | lia].
  - assert (getpixel (_apply_closing m r) x y = 255) as E.
    { apply closing_fg; [lia | exact Hin |].
      apply closeP_extensive; [apply Hin | apply Hin |]. now apply solid_mode1. }
    unfold fg. now rewrite E.
Qed.

Lemma mode_enqueue (blocked : Image) (st : Bfs.state) (p : Z * Z) :
  mode (Bfs.outside (Bfs.enqueue blocked st p)) = mode (Bfs.outside st).
Proof.
  destruct p as [x y]. unfold Bfs.enqueue. now destruct (_ && _).
Qed.

Lemma mode_fold_enqueue (blocked : Image) (l : list (Z * Z)) (st : Bfs.state) :
  mode (Bfs.outside (fold_left (Bfs.enqueue blocked) l st)) = mode (Bfs.outside st).
Proof.
  revert st. induction l as [|p l IH]; intros st; cbn [fold_left]; [reflexivity |].
  now rewrite IH, mode_enqueue.
Qed.

Lemma mode_drain (fuel : nat) (blocked : Image) (st : Bfs.state) (out : Image) :
  Bfs.drain fuel blocked st = Some out -> mode out = mode (Bfs.outside st).
Proof.
  revert st. induction fuel as [|fuel IH]; intros [o q];
    destruct q as [|[x y] rest]; cbn [Bfs.drain Bfs.queue Bfs.outside]; try discriminate;
    try (intros E; inversion E; reflexivity).
  intros E. apply IH in E. rewrite E.
  change (fold_left (fun st d => Bfs.enqueue blocked st (x + fst d, y + snd d))
                    Bfs.neighbours (Bfs.mkState o rest))
    with (fold_left (Bfs.enqueue blocked)
                    [(x + -1, y + 0); (x + 1, y + 0); (x + 0, y + -1); (x + 0, y + 1)]
                    (Bfs.mkState o rest)).
  now rewrite mode_fold_enqueue.
Qed.

(** On a canvas without walls every pixel can be walked to from the
    corner. *)
Lemma grid_reach (blocked : Image) (x y : Z) :
  (forall a b, inside blocked a b -> free blocked a b) ->
  inside blocked x y -> reach (free blocked) (at_seed 0 0) x y.
Proof.
  intros Hall [Hx Hy].
  assert (forall a, 0 <= a -> a < width blocked -> reach (free blocked) (at_seed 0 0) a 0)
    as Hrow.
  { apply (natlike_ind (fun a => a < width blocked ->
                                 reach (free blocked) (at_seed 0 0) a 0)).
    - intros H0. apply reach_seed; [split; reflexivity |].
      apply Hall. unfold inside. lia.
    - intros a Ha IH Hlt. apply reach_step with (x := a) (y := 0).
      + apply IH. lia.
      + unfold adjacent. lia.
      + apply Hall. unfold inside. lia. }
  assert (forall b, 0 <= b -> b < height blocked -> reach (free blocked) (at_seed 0 0) x b)
    as Hcol.
  { apply (natlike_ind (fun b => b < height blocked ->
                                 reach (free blocked) (at_seed 0 0) x b)).
    - intros _. apply Hrow; lia.
    - intros b Hb IH Hlt. apply reach_step with (x := x) (y := b).
      + apply IH. lia.
      + unfold adjacent. lia.
      + apply Hall. unfold inside. lia. }
  apply Hcol; lia.
Qed.

Section HolesFacts.

Variable dither : Image -> Image.
Variable GaussianBlur : float -> Image -> Image.
Variable BoxBlur : Z -> Image -> Image.
Variable FIND_EDGES : Image -> Image.
Variable floodfill_available : bool.

(** What is assumed of Pillow's Gaussian blur: a black image stays
    below the binarisation threshold. *)
Hypothesis blur_black :
  forall radius img,
    (forall x y, getpixel img x y = 0) ->
    forall x y, getpixel (GaussianBlur radius img) x y < 128.

Lemma mode_fill (o : Image) (r : Z) :
  mode (fill_closed_regions dither floodfill_available o r) = Mode1.
Proof.
  unfold fill_closed_regions. cbv zeta.
  destruct ((width (blocked_binary dither o r) =? 0)
            || (height (blocked_binary dither o r) =? 0)) eqn:E; [reflexivity |].
  destruct floodfill_available; [reflexivity |].
  unfold _fill_closed_regions_python. rewrite E.
  destruct (Bfs.drain _ _ _) as [out|] eqn:D; [| reflexivity].
  apply mode_drain in D. rewrite seed_as_fold, mode_fold_enqueue in D. exact D.
Qed.

Lemma fill_blank (o : Image) (r : Z) :
  mode o = Mode1 -> blank o -> blank (fill_closed_regions dither floodfill_available o r).
Proof.
  intros Hm Hb x y.
  destruct (fg (fill_closed_regions dither floodfill_available o r) x y) eqn:E;
    [exfalso | reflexivity].
  assert (forall a b, inside (blocked_binary dither o r) a b ->
                      free (blocked_binary dither o r) a b) as Hall.
  { intros a b Hin. split; [exact Hin |].
    destruct (fg (blocked_binary dither o r) a b) eqn:Ew.
    - apply fg_blocked_binary in Ew; [| exact Hm | now apply (inside_blocked_binary dither o r a b Hm)].
      destruct Ew as [qx [qy [_ Hq]]]. now rewrite Hb in Hq.
    - unfold fg in Ew. apply negb_false_iff in Ew. now apply Z.eqb_eq. }
  pose proof (fill_avoids_blocked dither floodfill_available o r x y E) as [Hin _].
  pose proof (grid_reach _ x y Hall Hin) as Hr.
  destruct floodfill_available.
  - destruct (fast_cases dither o r x y Hin) as [[_ [_ C]]|[C _]];
      [contradiction | congruence].
  - apply fallback_interior in E. destruct E as [_ C].
    apply C. now apply reach_origin_border.
Qed.

Lemma mode_extract_outline (m : Image) (r : Z) :
  mode m = Mode1 -> mode (extract_outline dither m r) = Mode1.
Proof.
  intros Hm. unfold extract_outline, convert_1. now rewrite Hm.
Qed.

Lemma blank_extract_outline (m : Image) (r : Z) :
  mode m = Mode1 -> blank m -> blank (extract_outline dither m r).
Proof.
  intros Hm Hb. unfold extract_outline. apply blank_logical_and_l.
  unfold convert_1. now rewrite Hm.
Qed.

Lemma blank_smooth (m : Image) (radius : float) :
  mode m = Mode1 -> blank m -> blank (smooth_binary_edges dither GaussianBlur m radius).
Proof.
  intros Hm Hb. unfold smooth_binary_edges.
  destruct (PrimFloat.leb radius 0); [unfold convert_1; now rewrite Hm |].
  intros x y. unfold fg.
  destruct (inside_dec (GaussianBlur radius (convert_L m)) x y) as [Hin|Hout].
  - rewrite getpixel_point by exact Hin.
    pose proof (blur_black radius (convert_L m)
                           (fun a b => blank_convert_L m a b Hb) x y) as Hlt.
    unfold ge128. destruct (Z.leb_spec 128 (getpixel (GaussianBlur radius (convert_L m)) x y));
      [lia | reflexivity].
  - unfold point. now rewrite getpixel_new_outside by exact Hout.
Qed.

Lemma blank_connect (m : Image) (j : Z) (s : float) :
  mode m = Mode1 -> blank m -> blank (connect_detail_gaps dither GaussianBlur m j s).
Proof.
  intros Hm Hb. unfold connect_detail_gaps. cbv zeta.
  unfold convert_1. rewrite Hm.
  assert (mode (if 0 <? j then ImageChops.logical_or m (_apply_closing m j) else m) = Mode1
          /\ blank (if 0 <? j then ImageChops.logical_or m (_apply_closing m j) else m))
    as [Hm' Hb'].
  { destruct (0 <? j); [| now split]. split; [exact Hm |].
    apply blank_logical_or; [exact Hb | now apply blank_closing]. }
  destruct (PrimFloat.ltb 0 s); [now apply blank_smooth | exact Hb'].
Qed.

Lemma blank_detect (gray pc : Image) (t_bg t_detail : Z) :
  mode pc = Mode1 ->
  (forall x y, inside gray x y -> getpixel gray x y < t_bg -> fg pc x y = false) ->
  blank (detect_relative_dark_regions dither BoxBlur FIND_EDGES floodfill_available
                                      gray pc t_bg t_detail).
Proof.
  intros Hm Hdark. unfold detect_relative_dark_regions. cbv zeta. rewrite Hm.
  destruct (getbbox_is_None pc); [apply blank_new |].
  apply blank_closing.
  assert (forall rel, blank (ImageChops.logical_and
                               (ImageChops.logical_and
                                  rel (point (fun g => if g <? t_bg - 2 then 255 else 0)
                                             Mode1 gray))
                               pc)) as Hrel.
  { intros rel x y.
    match goal with |- ?b = false => destruct b eqn:E; [exfalso | reflexivity] end.
    apply fg_logical_and_true in E. destruct E as [_ [E1 E2]].
    apply fg_logical_and_true in E1. destruct E1 as [_ [_ E3]].
    pose proof (fg_new_inside _ _ _ _ _ _ E3) as Hin.
    unfold fg in E3. rewrite getpixel_point in E3 by exact Hin.
    destruct (Z.ltb_spec (getpixel gray x y) (t_bg - 2)) as [Hlt|Hge];
      [| discriminate].
    rewrite Hdark in E2; [discriminate | exact Hin | lia]. }
  destruct (negb (getbbox_is_None _)); [apply blank_logical_and_l |]; apply Hrel.
Qed.

(** The filled interior holds no pixel darker than the background
    threshold. *)
Lemma filled_avoids_dark (gray : Image) (params : BWParams) (r x y : Z) :
  inside gray x y ->
  getpixel gray x y < Z.max 0 (Z.min 255 (threshold_bg params)) ->
  fg (fill_closed_regions dither floodfill_available
                          (_apply_closing (outline_raw gray params) (dilate_px params)) r) x y
  = false.
Proof.
  intros Hin Hlt.
  set (oc := _apply_closing (outline_raw gray params) (dilate_px params)).
  destruct (fg (fill_closed_regions dither floodfill_available oc r) x y) eqn:E;
    [exfalso | reflexivity].
  apply fill_avoids_blocked in E. destruct E as [_ E].
  assert (mode oc = Mode1) as Hm by (apply mode_closing; reflexivity).
  assert (inside (outline_raw gray params) x y) as Hino by exact Hin.
  assert (inside oc x y) as Hinc.
  { destruct (closing_size (outline_raw gray params) (dilate_px params)) as [Hw Hh].
    unfold inside, oc. rewrite Hw, Hh. exact Hino. }
  assert (fg (blocked_binary dither oc r) x y = true) as C; [| congruence].
  apply fg_blocked_binary; [exact Hm | exact Hinc |].
  exists x, y. split; [apply near_refl; try lia; apply Hinc |].
  apply closing_keeps_fg; [reflexivity | exact Hino |].
  rewrite fg_outline_raw by exact Hin. now apply Z.ltb_lt.
Qed.

Lemma detail_blank (hs : Image) (hc bridge jr : Z) (js : float) :
  mode hs = Mode1 -> blank hs ->
  blank (connect_detail_gaps
           dither GaussianBlur
           (ImageChops.logical_or
              (_apply_closing hs hc)
              (fill_closed_regions
                 dither floodfill_available
                 (_apply_closing (extract_outline dither (_apply_closing hs hc) 1) bridge)
                 bridge))
           jr js).
Proof.
  intros Hm Hb.
  set (hr := _apply_closing hs hc).
  assert (mode hr = Mode1) as Hmr by now apply mode_closing.
  assert (blank hr) as Hbr by now apply blank_closing.
  apply blank_connect; [exact Hmr |].
  apply blank_logical_or; [exact Hbr |].
  apply fill_blank.
  - apply mode_closing. now apply mode_extract_outline.
  - apply blank_closing. now apply blank_extract_outline.
Qed.

Lemma holes_blank (gray : Image) (params : BWParams) :
  blank (holes (build_masks_from_gray dither GaussianBlur BoxBlur FIND_EDGES
                                      floodfill_available gray params)).
Proof.
  unfold build_masks_from_gray. cbv zeta. cbn [holes].
  apply blank_logical_and_l. apply detail_blank.
  - destruct (negb (getbbox_is_None _)); reflexivity.
  - assert (blank (ImageChops.logical_and
                     (point (fun g => if g <? Z.max 0 (Z.min (Z.max 0 (Z.min 255 (threshold_bg params)))
                                                             (threshold_detail params))
                                      then 255 else 0) Mode1 gray)
                     (fill_closed_regions
                        dither floodfill_available
                        (_apply_closing (outline_raw gray params) (dilate_px params))
                        (if 0 <? dilate_px params then dilate_px params else 0)))) as Hseed.
    { intros x y.
      match goal with |- ?b = false => destruct b eqn:E; [exfalso | reflexivity] end.
      apply fg_logical_and_true in E. destruct E as [_ [E1 E2]].
      pose proof (fg_new_inside _ _ _ _ _ _ E1) as Hin.
      unfold fg in E1. rewrite getpixel_point in E1 by exact Hin.
      match type of E1 with
      | context [?a <? ?b] => destruct (Z.ltb_spec a b) as [Hlt|Hge]; [| discriminate]
      end.
      rewrite filled_avoids_dark in E2; [discriminate | exact Hin | lia]. }
    destruct (negb (getbbox_is_None _)); [| exact Hseed].
    apply blank_logical_or; [exact Hseed |].
    apply blank_detect; [apply mode_fill |].
    intros x y Hin Hlt. now apply filled_avoids_dark.
Qed.

(** X15: as long as blurring a black image leaves it dark, the holes
    mask returned by [build_masks_from_gray] has no foreground pixel at
    all, whatever the image and the parameters, and the paper mask is
    the filled mask, pixel for pixel. *)
Theorem holes_always_empty (gray : Image) (params : BWParams) :
  let r := build_masks_from_gray dither GaussianBlur BoxBlur FIND_EDGES
                                 floodfill_available gray params in
  (forall x y, fg (holes r) x y = false)
  /\ (forall x y, inside (paper r) x y -> fg (paper r) x y = fg (filled r) x y).
Proof.
  intros r. pose proof (holes_blank gray params) as Hb. fold r in Hb.
  split; [exact Hb |].
  intros x y Hin. unfold r, build_masks_from_gray in *. cbv zeta in *.
  cbn [paper filled holes] in *.
  rewrite fg_logical_and by exact Hin.
  apply inside_chop in Hin. destruct Hin as [_ Hin].
  rewrite fg_invert_binary; [| exact Hin | apply logical_and_binary].
  rewrite Hb. cbn [negb]. apply andb_true_r.
Qed.

Lemma fill_misses_outline (o : Image) (r x y : Z) :
  mode o = Mode1 -> inside o x y -> fg o x y = true ->
  fg (fill_closed_regions dither floodfill_available o r) x y = false.
Proof.
  intros Hm Hin Hf.
  destruct (fg (fill_closed_regions dither floodfill_available o r) x y) eqn:E;
    [exfalso | reflexivity].
  apply fill_avoids_blocked in E. destruct E as [_ E].
  assert (fg (blocked_binary dither o r) x y = true) as C; [| congruence].
  apply fg_blocked_binary; [exact Hm | exact Hin |].
  exists x, y. split; [apply near_refl; try lia; apply Hin | exact Hf].
Qed.

(** X19: in the bundle of [build_masks_from_gray], the outline mask
    is the closing of the pixels darker than the background threshold
    (joining it with those pixels adds nothing), and no pixel of the
    outline is a pixel of the filled mask or of the paper mask. *)
Theorem bundle_outline (gray : Image) (params : BWParams) (x y : Z) :
  inside gray x y ->
  let r := build_masks_from_gray dither GaussianBlur BoxBlur FIND_EDGES
                                 floodfill_available gray params in
  fg (outline r) x y
  = fg (_apply_closing (outline_raw gray params) (dilate_px params)) x y
  /\ (fg (outline r) x y = true ->
      fg (filled r) x y = false /\ fg (paper r) x y = false).
Proof.
  intros Hin r. unfold r, build_masks_from_gray. cbv zeta. cbn [outline filled paper].
  set (oc := _apply_closing (outline_raw gray params) (dilate_px params)).
  assert (inside (outline_raw gray params) x y) as Hino by exact Hin.
  assert (inside oc x y) as Hinc.
  { destruct (closing_size (outline_raw gray params) (dilate_px params)) as [Hw Hh].
    unfold inside, oc. rewrite Hw, Hh. exact Hino. }
  assert (mode oc = Mode1) as Hm by (apply mode_closing; reflexivity).
  assert (fg (ImageChops.logical_or (outline_raw gray params) oc) x y = fg oc x y) as Eo.
  { rewrite fg_logical_or by (apply inside_chop; split; assumption).
    destruct (fg (outline_raw gray params) x y) eqn:E; [| reflexivity].
    cbn [orb]. symmetry. apply closing_keeps_fg; [reflexivity | exact Hino | exact E]. }
  split; [exact Eo |].
  rewrite Eo. intros Hf.
  assert (fg (fill_closed_regions dither floodfill_available oc
                                  (if 0 <? dilate_px params then dilate_px params else 0)) x y
          = false) as Efill by now apply fill_misses_outline.
  split; [exact Efill |].
  match goal with |- ?b = false => destruct b eqn:E; [exfalso | reflexivity] end.
  apply fg_logical_and_true in E. destruct E as [_ [E _]]. congruence.
Qed.

End HolesFacts.

(** ** The paper mask without antialiasing *)

Section PaperMaskFacts.

Variable dither : Image -> Image.
Variable GaussianBlur : float -> Image -> Image.
Variable BoxBlur : Z -> Image -> Image.
Variable FIND_EDGES : Image -> Image.
Variable floodfill_available : bool.
Variable autocontrast : Image -> Image.

(** X16: with an antialias radius that is not positive,
    [build_paper_mask] returns the paper mask of
    [build_masks_from_gray] on the prepared image, pixel for pixel and
    as a bilevel image. *)
Theorem build_paper_mask_crisp (gray : Image) (params : BWParams) (invert : bool) :
  PrimFloat.leb (antialias_radius params) 0 = true ->
  let prepared := prepare_grayscale GaussianBlur autocontrast gray params in
  let prepared := if invert then ImageOps.invert prepared else prepared in
  same_pixels (build_paper_mask dither GaussianBlur BoxBlur FIND_EDGES floodfill_available
                                autocontrast gray params invert)
              (paper (build_masks_from_gray dither GaussianBlur BoxBlur FIND_EDGES
                                            floodfill_available prepared params))
  /\ mode (build_paper_mask dither GaussianBlur BoxBlur FIND_EDGES floodfill_available
                            autocontrast gray params invert) = Mode1.
Proof.
  intros Hr. cbv zeta. unfold build_paper_mask. cbv zeta.
  set (prepared := if invert then ImageOps.invert (prepare_grayscale GaussianBlur autocontrast gray params)
                   else prepare_grayscale GaussianBlur autocontrast gray params).
  set (masks := build_masks_from_gray dither GaussianBlur BoxBlur FIND_EDGES
                                      floodfill_available prepared params).
  unfold soften_mask. cbv zeta. rewrite Hr.
  split; [| reflexivity].
  assert (mode (paper masks) = Mode1) as Hm.
  { unfold masks, build_masks_from_gray. cbv zeta. cbn [paper].
    change (mode (ImageChops.logical_and ?a ?b)) with (mode a). apply mode_fill. }
  split; [| split].
  - cbn [point width new_image]. apply width_convert_L.
  - cbn [point height new_image]. apply height_convert_L.
  - intros x y Hin.
    assert (inside (paper masks) x y) as Hp.
    { unfold inside in *. cbn [point width height new_image] in Hin.
      now rewrite width_convert_L, height_convert_L in Hin. }
    rewrite !getpixel_point by (try exact Hin; now apply inside_convert_L).
    rewrite convert_L_mode1_pixel by assumption.
    assert (getpixel (paper masks) x y = 255 \/ getpixel (paper masks) x y = 0) as Hbin.
    { unfold masks, build_masks_from_gray. cbv zeta. cbn [paper]. apply logical_and_binary. }
    unfold fg. destruct Hbin as [E|E]; rewrite E; reflexivity.
Qed.

End PaperMaskFacts.

Lemma build_paper_mask_crisp_witness :
  let prepared := prepare_grayscale (fun _ i => i) (fun i => i) gray_ring5 params0 in
  same_pixels (build_paper_mask (fun i => i) (fun _ i => i) (fun _ i => i) (fun i => i) true
                                (fun i => i) gray_ring5 params0 false)
              (paper (build_masks_from_gray (fun i => i) (fun _ i => i) (fun _ i => i)
                                            (fun i => i) true prepared params0))
  /\ mode (build_paper_mask (fun i => i) (fun _ i => i) (fun _ i => i) (fun i => i) true
                            (fun i => i) gray_ring5 params0 false) = Mode1.
Proof.
  apply (build_paper_mask_crisp (fun i => i) (fun _ i => i) (fun _ i => i) (fun i => i) true
                                (fun i => i) gray_ring5 params0 false).
  vm_compute. reflexivity.
Defined.

Lemma holes_always_empty_witness :
  let r := build_masks_from_gray (fun i => i) (fun _ i => i) (fun _ i => i) (fun i => i)
                                 true gray_ring5 params0 in
  (forall x y, fg (holes r) x y = false)
  /\ (forall x y, inside (paper r) x y -> fg (paper r) x y = fg (filled r) x y).
Proof.
  apply (holes_always_empty (fun i => i) (fun _ i => i) (fun _ i => i) (fun i => i) true).
  intros radius img H x y. rewrite H. lia.
Defined.

(** ** Normalising the source *)

Section NormalizeFacts.

Variable resize : Z -> Z -> Image -> Image.
Variable GaussianBlur : float -> Image -> Image.

Hypothesis resize_size :
  forall w h img, width (resize w h img) = w /\ height (resize w h img) = h.
Hypothesis blur_size : forall radius img, same_size (GaussianBlur radius img) img.

(** X17: whatever the scale and the blur, the image that
    [normalize_source_image] returns has the size of the image it was
    given; the blur it reports is 0 or at least 0.05. *)
Theorem normalize_keeps_size (img : Image) (info_dpi : option (float * float))
        (params : NormalizationParams) (working : Image) (upscale applied_blur : float) :
  normalize_source_image resize GaussianBlur img info_dpi params
  = Ok (working, upscale, applied_blur) ->
  same_size working img
  /\ (applied_blur = 0%float \/ PrimFloat.leb 0x1.999999999999ap-5 applied_blur = true).
Proof.
  unfold normalize_source_image.
  destruct (PrimFloat.leb (upscale_factor params) 1 && PrimFloat.leb (blur_radius params) 0).
  { intros E. inversion E; subst. split; [apply same_size_refl | now left]. }
  cbv zeta.
  destruct ((width img =? 0) || (height img =? 0)).
  { intros E. inversion E; subst. split; [apply same_size_refl | now left]. }
  destruct (Py.round _) as [rw|e]; cbn [bind]; [| discriminate].
  destruct (Py.round _) as [rh|e]; cbn [bind]; [| discriminate].
  match goal with
  | |- Ok (_, _, match ?b with Some _ => _ | None => _ end) = _ -> _ =>
      set (blur := b)
  end.
  intros E. inversion E as [[Hw Hu Ha]]. clear E. split.
  - destruct ((Z.max 1 rw =? width img) && (Z.max 1 rh =? height img)).
    + destruct blur as [radius|]; [apply blur_size | apply same_size_refl].
    + split; apply resize_size.
  - destruct blur as [radius|] eqn:Eb; [| now left].
    right. unfold blur in Eb.
    destruct (PrimFloat.ltb 0 (blur_radius params)); [| discriminate].
    match type of Eb with
    | (if ?c then _ else _) = _ => destruct c eqn:Ec; [| discriminate]
    end.
    inversion Eb; subst. exact Ec.
Qed.

End NormalizeFacts.

Lemma nearest_resize_size (w h : Z) (img : Image) :
  width (nearest_resize w h img) = w /\ height (nearest_resize w h img) = h.
Proof. split; reflexivity. Qed.

Lemma normalize_keeps_size_witness :
  exists working upscale applied_blur,
    normalize_source_image nearest_resize (fun _ i => i) gray_ring5 (Some (72, 72)%float)
                           (mkNormalizationParams 144 1 0x1p-1)
    = Ok (working, upscale, applied_blur)
    /\ same_size working gray_ring5.
Proof.
  destruct (normalize_source_image nearest_resize (fun _ i => i) gray_ring5
                                   (Some (72, 72)%float)
                                   (mkNormalizationParams 144 1 0x1p-1))
    as [[[working upscale] applied_blur]|e] eqn:E.
  - exists working, upscale, applied_blur. split; [reflexivity |].
    exact (proj1 (normalize_keeps_size nearest_resize (fun _ i => i) nearest_resize_size
                                       (fun _ i => same_size_refl i)
                                       _ _ _ _ _ _ E)).
  - vm_compute in E. discriminate.
Defined.

Lemma bundle_outline_witness :
  let r := build_masks_from_gray (fun i => i) (fun _ i => i) (fun _ i => i) (fun i => i)
                                 true gray_ring5 params0 in
  fg (outline r) 1 1 = fg (_apply_closing (outline_raw gray_ring5 params0) (dilate_px params0)) 1 1
  /\ (fg (outline r) 1 1 = true -> fg (filled r) 1 1 = false /\ fg (paper r) 1 1 = false).
Proof.
  apply (bundle_outline (fun i => i) (fun _ i => i) (fun _ i => i) (fun i => i) true
                        gray_ring5 params0 1 1).
  vm_compute. repeat split; discriminate.
Defined.

(** ** Raising the background threshold *)

Section ThresholdFacts.

Variable dither : Image -> Image.
Variable floodfill_available : bool.

Lemma size_fill_blocked (o : Image) (r : Z) :
  same_size (fill_closed_regions dither floodfill_available o r) (blocked_binary dither o r).
Proof.
  unfold fill_closed_regions. cbv zeta.
  destruct ((width (blocked_binary dither o r) =? 0)
            || (height (blocked_binary dither o r) =? 0)).
  - split; reflexivity.
  - destruct floodfill_available.
    + apply size_chop.
      * eapply same_size_trans; [apply size_invert |].
        eapply same_size_trans; [apply size_point |].
        eapply same_size_trans; [apply size_floodfill | apply size_convert_L].
      * apply size_invert.
    + apply size_fill_python.
Qed.

Lemma size_blocked_mode1 (o : Image) (r : Z) :
  mode o = Mode1 -> same_size (blocked_binary dither o r) o.
Proof.
  intros Hm. unfold blocked_binary. rewrite Hm.
  eapply same_size_trans; [apply size_point |].
  destruct (0 <? r).
  - eapply same_size_trans; [apply size_MaxFilter | apply size_convert_L].
  - apply size_convert_L.
Qed.

Section TwoOutlines.

Variables o1 o2 : Image.
Variable r : Z.

Hypothesis mode1 : mode o1 = Mode1.
Hypothesis mode2 : mode o2 = Mode1.
Hypothesis same : same_size o1 o2.
Hypothesis grows : forall x y, inside o1 x y -> fg o1 x y = true -> fg o2 x y = true.

(** A larger outline has larger walls. *)
Lemma walls_mono (x y : Z) :
  fg (blocked_binary dither o1 r) x y = true -> fg (blocked_binary dither o2 r) x y = true.
Proof.
  intros H. destruct same as [Hw Hh].
  assert (inside (blocked_binary dither o1 r) x y) as Hin
      by (unfold blocked_binary in *; now apply fg_new_inside in H).
  apply (inside_blocked_binary dither o1 r x y mode1) in Hin.
  apply fg_blocked_binary in H; [| exact mode1 | exact Hin].
  destruct H as [qx [qy [Hn Hq]]].
  apply fg_blocked_binary; [exact mode2 | unfold inside in *; now rewrite <- Hw, <- Hh |].
  exists qx, qy. rewrite <- Hw, <- Hh. split; [exact Hn |].
  apply grows; [apply Hn | exact Hq].
Qed.

Lemma free_shrinks (x y : Z) :
  free (blocked_binary dither o2 r) x y -> free (blocked_binary dither o1 r) x y.
Proof.
  intros [Hin Hz]. destruct same as [Hw Hh].
  assert (inside (blocked_binary dither o1 r) x y) as Hin1.
  { apply (inside_blocked_binary dither o1 r x y mode1).
    apply (inside_blocked_binary dither o2 r x y mode2) in Hin.
    unfold inside in *. now rewrite Hw, Hh. }
  split; [exact Hin1 |].
  destruct (blocked_binary_walls dither o1 r x y) as [E|E]; [| exact E].
  assert (fg (blocked_binary dither o2 r) x y = true) as C
      by (apply walls_mono; unfold fg; now rewrite E).
  unfold fg in C. rewrite Hz in C. discriminate.
Qed.

(** A filled pixel stays filled or becomes a wall. *)
Lemma filled_or_wall_mono (x y : Z) :
  fg (fill_closed_regions dither floodfill_available o1 r) x y = true ->
  fg (fill_closed_regions dither floodfill_available o2 r) x y = true
  \/ fg (blocked_binary dither o2 r) x y = true.
Proof.
  intros H1. destruct same as [Hw Hh].
  pose proof (fill_avoids_blocked dither floodfill_available o1 r x y H1) as [Hin1 _].
  assert (inside (blocked_binary dither o2 r) x y) as Hin2.
  { apply (inside_blocked_binary dither o2 r x y mode2).
    apply (inside_blocked_binary dither o1 r x y mode1) in Hin1.
    unfold inside in *. now rewrite <- Hw, <- Hh. }
  destruct (blocked_binary_walls dither o2 r x y) as [E|E];
    [right; unfold fg; now rewrite E |].
  left.
  assert (free (blocked_binary dither o2 r) x y) as Hf2 by (split; assumption).
  destruct floodfill_available.
  - destruct (fast_cases dither o2 r x y Hin2) as [[E2 _]|[_ [C|C]]];
      [exact E2 | contradiction |].
    exfalso.
    destruct (fast_cases dither o1 r x y Hin1) as [[_ [_ Hn]]|[E1 _]]; [| congruence].
    apply Hn. revert C. apply reach_change; [apply free_shrinks |].
    intros a b Hs Hf. apply reach_seed; [exact Hs | now apply free_shrinks].
  - apply fallback_interior. split; [exact Hf2 |].
    intros C. apply fallback_interior in H1. destruct H1 as [_ Hn].
    apply Hn. revert C. apply reach_change; [apply free_shrinks |].
    intros a b Hs Hf. apply reach_seed; [| now apply free_shrinks].
    destruct (size_blocked_mode1 o1 r mode1) as [Hw1 Hh1].
    destruct (size_blocked_mode1 o2 r mode2) as [Hw2 Hh2].
    unfold on_border in *. rewrite Hw1, Hh1, Hw. rewrite Hh.
    now rewrite Hw2, Hh2 in Hs.
Qed.

End TwoOutlines.

End ThresholdFacts.

(** C5, as amended: for a fixed grayscale input, fixed t_detail and
    fixed morphology parameters, raising t_bg never lowers the number
    of pixels that are in the [filled] mask of [build_masks_from_gray]
    or on the walls of its fill (the closed outline grown by
    [dilate_px]): a filled pixel stays filled or becomes a wall, on the
    flood-fill path and on the fallback path alike. *)
Theorem filled_or_wall_monotone
        (dither : Image -> Image) (GaussianBlur : float -> Image -> Image)
        (BoxBlur : Z -> Image -> Image) (FIND_EDGES : Image -> Image)
        (floodfill_available : bool) (gray : Image) (p : BWParams) (t1 t2 : Z) :
  t1 <= t2 ->
  (forall x y,
      fg (filled (build_masks_from_gray dither GaussianBlur BoxBlur FIND_EDGES
                                        floodfill_available gray (set_threshold_bg p t1))) x y
      = true ->
      fg (filled (build_masks_from_gray dither GaussianBlur BoxBlur FIND_EDGES
                                        floodfill_available gray (set_threshold_bg p t2))) x y
      = true
      \/ fg (walls dither gray (set_threshold_bg p t2)) x y = true)
  /\ (count_fg (filled_or_wall dither GaussianBlur BoxBlur FIND_EDGES floodfill_available
                               gray (set_threshold_bg p t1))
      <= count_fg (filled_or_wall dither GaussianBlur BoxBlur FIND_EDGES floodfill_available
                                  gray (set_threshold_bg p t2)))%nat.
Proof.
  intros Ht.
  unfold filled_or_wall, walls, build_masks_from_gray. cbv zeta.
  cbn [filled dilate_px set_threshold_bg].
  set (r := if 0 <? dilate_px p then dilate_px p else 0).
  set (o1 := _apply_closing (outline_raw gray (set_threshold_bg p t1)) (dilate_px p)).
  set (o2 := _apply_closing (outline_raw gray (set_threshold_bg p t2)) (dilate_px p)).
  assert (mode o1 = Mode1) as Hm1 by (apply mode_closing; reflexivity).
  assert (mode o2 = Mode1) as Hm2 by (apply mode_closing; reflexivity).
  assert (same_size o1 gray) as Hs1
      by (eapply same_size_trans; [apply size_closing | apply size_point]).
  assert (same_size o2 gray) as Hs2
      by (eapply same_size_trans; [apply size_closing | apply size_point]).
  assert (same_size o1 o2) as Hsame
      by (destruct Hs1, Hs2; split; congruence).
  assert (forall x y, inside o1 x y -> fg o1 x y = true -> fg o2 x y = true) as Hgrow.
  { intros x y Hin.
    assert (inside (outline_raw gray (set_threshold_bg p t1)) x y) as Hraw.
    { destruct (closing_size (outline_raw gray (set_threshold_bg p t1)) (dilate_px p))
        as [Hw Hh]. unfold inside, o1 in *. now rewrite <- Hw, <- Hh. }
    revert Hraw. unfold o1, o2. intros Hraw.
    apply closing_mono; try reflexivity; try exact Hraw.
    intros qx qy Hq. exact (outline_raw_mono gray p t1 t2 qx qy Ht Hq). }
  split.
  - intros x y. apply filled_or_wall_mono; assumption.
  - set (F1 := fill_closed_regions dither floodfill_available o1 r).
    set (F2 := fill_closed_regions dither floodfill_available o2 r).
    set (W1 := blocked_binary dither o1 r).
    set (W2 := blocked_binary dither o2 r).
    assert (same_size W1 gray) as HW1
        by (eapply same_size_trans; [now apply size_blocked_mode1 | exact Hs1]).
    assert (same_size W2 gray) as HW2
        by (eapply same_size_trans; [now apply size_blocked_mode1 | exact Hs2]).
    assert (same_size F1 gray) as HF1
        by (eapply same_size_trans; [apply size_fill_blocked | exact HW1]).
    assert (same_size F2 gray) as HF2
        by (eapply same_size_trans; [apply size_fill_blocked | exact HW2]).
    destruct (size_chop (fun u v => if negb (u =? 0) || negb (v =? 0) then 255 else 0)
                        F1 W1 gray HF1 HW1) as [Hw1 Hh1].
    destruct (size_chop (fun u v => if negb (u =? 0) || negb (v =? 0) then 255 else 0)
                        F2 W2 gray HF2 HW2) as [Hw2 Hh2].
    apply count_fg_mono.
    + unfold ImageChops.logical_or. now rewrite Hw1, Hw2.
    + unfold ImageChops.logical_or. now rewrite Hh1, Hh2.
    + intros x y Hin Hfg.
      assert (inside (ImageChops.logical_or F2 W2) x y) as Hin2.
      { unfold inside, ImageChops.logical_or in *. rewrite Hw2, Hh2.
        now rewrite Hw1, Hh1 in Hin. }
      rewrite fg_logical_or in Hfg by exact Hin.
      rewrite fg_logical_or by exact Hin2.
      apply orb_true_iff in Hfg. apply orb_true_iff.
      destruct Hfg as [Hf|Hwall].
      * now apply (filled_or_wall_mono dither floodfill_available o1 o2 r Hm1 Hm2 Hsame Hgrow).
      * right. now apply (walls_mono dither o1 o2 r Hm1 Hm2 Hsame Hgrow).
Qed.

Lemma filled_or_wall_monotone_witness :
  (count_fg (filled_or_wall (fun i => i) (fun _ i => i) (fun _ i => i) (fun i => i) true
                            gray_ring5 (set_threshold_bg params0 50))
   <= count_fg (filled_or_wall (fun i => i) (fun _ i => i) (fun _ i => i) (fun i => i) true
                               gray_ring5 (set_threshold_bg params0 150)))%nat.
Proof.
  apply (filled_or_wall_monotone (fun i => i) (fun _ i => i) (fun _ i => i) (fun i => i) true
                                 gray_ring5 params0 50 150).
  lia.
Defined.

(** The counts of [filled] and of filled-or-wall on [gray_ring5] at the
    thresholds 0, 50, 150 and 255, on either path of the fill. *)
Example filled_or_wall_ring5 :
  forall floodfill_available,
    map (fun t => (count_fg (filled (build_masks_from_gray
                                       (fun i => i) (fun _ i => i) (fun _ i => i)
                                       (fun i => i) floodfill_available gray_ring5
                                       (set_threshold_bg params0 t))),
                   count_fg (filled_or_wall (fun i => i) (fun _ i => i) (fun _ i => i)
                                            (fun i => i) floodfill_available gray_ring5
                                            (set_threshold_bg params0 t))))
        [0; 50; 150; 255]
    = [(0, 0); (1, 9); (0, 9); (0, 25)]%nat.
Proof. intros []; vm_compute; reflexivity. Qed.
